(** * LFUCache: a shallow embedding of [lfu_cache/models.py]

    The cache object is a record of its five data attributes and its
    re-entrant lock.  Methods are computations in a state monad whose
    results are a returned value, a raised exception, or a caller that is
    blocked on the lock.  The state that an exception leaves behind is the
    state at the point where it was raised, as in Python. *)

From Stdlib Require Import ZArith Lia ZifyBool.
From stdpp Require Import base gmap strings list fin_maps.

Local Open Scope Z_scope.

(** ** Python values *)

(** The objects that reach the cache as values, defaults and limits.
    [PyInt] stands for every instance of [int]; Python's [True] and
    [False] are the integers 1 and 0 and arrive as [PyInt 1], [PyInt 0]. *)
Inductive pyval : Type :=
  | PyNone
  | PyInt (z : Z)
  | PyStr (s : string).

Inductive exn : Type :=
  | LFUCacheException
  | KeyError (key : string)
  | IndexError
  | RuntimeError.

(** [_CacheEntry = namedtuple("CacheEntry", ("key", "value", "access_count"))] *)
Record _CacheEntry : Type := CacheEntry {
  key : string;
  value : pyval;
  access_count : Z
}.

(** ** The re-entrant lock *)

Definition tid : Type := nat.

(** [threading.RLock]: free, or held by [owner], who acquired it
    [S depth] times. *)
Inductive RLock : Type :=
  | Unlocked
  | Locked (owner : tid) (depth : nat).

Definition acquire (me : tid) (l : RLock) : option RLock :=
  match l with
  | Unlocked => Some (Locked me 0)
  | Locked o n => if decide (o = me) then Some (Locked o (S n)) else None
  end.

Definition release (me : tid) (l : RLock) : option RLock :=
  match l with
  | Unlocked => None
  | Locked o n =>
      if decide (o = me)
      then Some (match n with O => Unlocked | S n' => Locked o n' end)
      else None
  end.

(** ** The cache object *)

Record LFUCache : Type := mkLFUCache {
  _limit : option Z;
  (* key: [queue_id, value] *)
  _cache_entries : gmap string (Z * pyval);
  (* queue_id: [key, access_count] *)
  _priority_queue : list (string * Z);
  _hits : Z;
  _misses : Z;
  _lock : RLock
}.

Definition set_limit (x : option Z) (c : LFUCache) : LFUCache :=
  mkLFUCache x (_cache_entries c) (_priority_queue c) (_hits c) (_misses c) (_lock c).
Definition set_entries (x : gmap string (Z * pyval)) (c : LFUCache) : LFUCache :=
  mkLFUCache (_limit c) x (_priority_queue c) (_hits c) (_misses c) (_lock c).
Definition set_queue (x : list (string * Z)) (c : LFUCache) : LFUCache :=
  mkLFUCache (_limit c) (_cache_entries c) x (_hits c) (_misses c) (_lock c).
Definition set_hits (x : Z) (c : LFUCache) : LFUCache :=
  mkLFUCache (_limit c) (_cache_entries c) (_priority_queue c) x (_misses c) (_lock c).
Definition set_misses (x : Z) (c : LFUCache) : LFUCache :=
  mkLFUCache (_limit c) (_cache_entries c) (_priority_queue c) (_hits c) x (_lock c).
Definition set_lock (x : RLock) (c : LFUCache) : LFUCache :=
  mkLFUCache (_limit c) (_cache_entries c) (_priority_queue c) (_hits c) (_misses c) x.

(** ** The monad of methods *)

Inductive outcome (A : Type) : Type :=
  | Ret (a : A)
  | Raise (e : exn)
  | Blocked.
Arguments Ret {A} a.
Arguments Raise {A} e.
Arguments Blocked {A}.

Definition M (A : Type) : Type := LFUCache -> LFUCache * outcome A.

Definition ret {A} (a : A) : M A := fun c => (c, Ret a).
Definition raise {A} (e : exn) : M A := fun c => (c, Raise e).
Definition bind {A B} (m : M A) (k : A -> M B) : M B :=
  fun c =>
    match m c with
    | (c1, Ret a) => k a c1
    | (c1, Raise e) => (c1, Raise e)
    | (c1, Blocked) => (c1, Blocked)
    end.
Definition gets {A} (f : LFUCache -> A) : M A := fun c => (c, Ret (f c)).
Definition modify (f : LFUCache -> LFUCache) : M unit := fun c => (f c, Ret tt).

Notation "x <- m ;; k" := (bind m (fun x => k))
  (at level 100, m at next level, k at level 200, right associativity).
Notation "m ;; k" := (bind m (fun _ => k))
  (at level 100, k at level 200, right associativity).

(** [for item in l: body(item)] *)
Fixpoint for_each {A} (l : list A) (body : A -> M unit) : M unit :=
  match l with
  | [] => ret tt
  | x :: l' => body x ;; for_each l' body
  end.

(** [[f(x) for x in l]] *)
Fixpoint comprehension {A B} (l : list A) (f : A -> M B) : M (list B) :=
  match l with
  | [] => ret []
  | x :: l' => y <- f x ;; ys <- comprehension l' f ;; ret (y :: ys)
  end.

(** ** Python list indexing *)

(** The position that index [i] denotes in a list of length [n]:
    a negative index counts from the end, anything outside is an
    [IndexError]. *)
Definition py_index (n i : Z) : option nat :=
  let j := if i <? 0 then i + n else i in
  if (0 <=? j) && (j <? n) then Some (Z.to_nat j) else None.

(** The clamped bound of a slice. *)
Definition py_bound (n : Z) (i : Z) : nat :=
  Z.to_nat (if i <? 0 then Z.max (i + n) 0 else Z.min i n).

(** [l[start:end_]] *)
Definition py_slice {A} (l : list A) (start end_ : option Z) : list A :=
  let n := Z.of_nat (length l) in
  let lo := match start with None => O | Some i => py_bound n i end in
  let hi := match end_ with None => length l | Some i => py_bound n i end in
  take (hi - lo)%nat (drop lo l).

Section Methods.

(** The calling thread. *)
Variable me : tid.

(** [with self._lock: m] *)
Definition with_lock {A} (m : M A) : M A :=
  fun c =>
    match acquire me (_lock c) with
    | None => (c, Blocked)
    | Some l =>
        let '(c1, r) := m (set_lock l c) in
        match release me (_lock c1) with
        | Some l' => (set_lock l' c1, r)
        | None => (c1, Raise RuntimeError)
        end
    end.

(** *** Accesses to the two containers *)

(** [self._cache_entries[k]] *)
Definition entries_getitem (k : string) : M (Z * pyval) :=
  fun c =>
    match _cache_entries c !! k with
    | Some e => (c, Ret e)
    | None => (c, Raise (KeyError k))
    end.

(** [self._cache_entries[k] = e] *)
Definition entries_setitem (k : string) (e : Z * pyval) : M unit :=
  modify (fun c => set_entries (<[k := e]> (_cache_entries c)) c).

(** [del self._cache_entries[k]] *)
Definition entries_delitem (k : string) : M unit :=
  fun c =>
    match _cache_entries c !! k with
    | Some _ => (set_entries (delete k (_cache_entries c)) c, Ret tt)
    | None => (c, Raise (KeyError k))
    end.

(** [self._priority_queue[i]] *)
Definition queue_getitem (i : Z) : M (string * Z) :=
  fun c =>
    let q := _priority_queue c in
    match py_index (Z.of_nat (length q)) i ≫= (q !!.) with
    | Some x => (c, Ret x)
    | None => (c, Raise IndexError)
    end.

(** [self._priority_queue[i] = x] *)
Definition queue_setitem (i : Z) (x : string * Z) : M unit :=
  fun c =>
    let q := _priority_queue c in
    match py_index (Z.of_nat (length q)) i with
    | Some j => (set_queue (<[j := x]> q) c, Ret tt)
    | None => (c, Raise IndexError)
    end.

(** [del self._priority_queue[i]] *)
Definition queue_delitem (i : Z) : M unit :=
  fun c =>
    let q := _priority_queue c in
    match py_index (Z.of_nat (length q)) i with
    | Some j => (set_queue (delete j q) c, Ret tt)
    | None => (c, Raise IndexError)
    end.

(** [self._priority_queue.append(x)] *)
Definition queue_append (x : string * Z) : M unit :=
  modify (fun c => set_queue (_priority_queue c ++ [x]) c).

(** [self._priority_queue.pop()] *)
Definition queue_pop : M (string * Z) :=
  fun c =>
    let q := _priority_queue c in
    match last q with
    | Some x => (set_queue (removelast q) c, Ret x)
    | None => (c, Raise IndexError)
    end.

(** [self._cache_entries[k][0] -= 1] *)
Definition shift_left (item : string * Z) : M unit :=
  e <- entries_getitem (fst item) ;;
  entries_setitem (fst item) (fst e - 1, snd e).

(** *** Methods of [LFUCache] *)

Definition __len__ : M Z :=
  gets (fun c => Z.of_nat (length (_priority_queue c))).

Definition limit : M (option Z) := gets _limit.
Definition hits : M Z := gets _hits.
Definition misses : M Z := gets _misses.

(** The [while excessive_entries > 0] loop of the limit setter; the
    counter goes down by one each round, so it runs [excessive_entries]
    rounds. *)
Fixpoint drop_excessive (excessive_entries : nat) : M unit :=
  match excessive_entries with
  | O => ret tt
  | S n =>
      item <- queue_pop ;;
      entries_delitem (fst item) ;;
      drop_excessive n
  end.

Definition limit_setter (new_limit : pyval) : M unit :=
  with_lock
    (match new_limit with
     | PyNone => modify (set_limit None)
     | PyInt n =>
         if n <? 0 then raise LFUCacheException
         else
           sz <- __len__ ;;
           drop_excessive (Z.to_nat (sz - n)) ;;
           modify (set_limit (Some n))
     | PyStr _ => raise LFUCacheException
     end).

Definition clear : M unit :=
  with_lock
    (modify (set_entries ∅) ;;
     modify (set_queue [])).

Definition has_cache (k : string) : M bool :=
  with_lock (gets (fun c => bool_decide (is_Some (_cache_entries c !! k)))).

Definition _remove_by_id (queue_id : Z) : M bool :=
  with_lock
    (sz <- __len__ ;;
     if negb ((sz >? queue_id) && (queue_id >=? 0)) then ret false
     else
       item <- queue_getitem queue_id ;;
       let k := fst item in
       entries_delitem k ;;
       queue_delitem queue_id ;;
       rest <- gets (fun c => py_slice (_priority_queue c) (Some queue_id) None) ;;
       for_each rest shift_left ;;
       ret true).

(** The [while] loop of [_increment_access_count].  [queue_id] goes down
    by one each round and the loop stops at [queue_id <= 0], so
    [Z.to_nat queue_id] rounds of fuel are never used up before the
    test fails. *)
Fixpoint promote (fuel : nat) (queue_id next_queue_id : Z) : M Z :=
  match fuel with
  | O => ret queue_id
  | S fuel' =>
      if queue_id >? 0 then
        a <- queue_getitem queue_id ;;
        b <- queue_getitem next_queue_id ;;
        if snd a >? snd b then
          (* Update cache for the next entry *)
          nxt <- queue_getitem next_queue_id ;;
          let next_entry_key := fst nxt in
          e <- entries_getitem next_entry_key ;;
          entries_setitem next_entry_key (next_queue_id + 1, snd e) ;;
          (* Swap positions in the queue *)
          x <- queue_getitem next_queue_id ;;
          y <- queue_getitem queue_id ;;
          queue_setitem queue_id x ;;
          queue_setitem next_queue_id y ;;
          promote fuel' (queue_id - 1) (next_queue_id - 1)
        else ret queue_id
      else ret queue_id
  end.

Definition _increment_access_count (k : string) : M unit :=
  with_lock
    (e <- entries_getitem k ;;
     let queue_id := fst e in
     let next_queue_id := queue_id - 1 in
     (* Kick up access count *)
     item <- queue_getitem queue_id ;;
     queue_setitem queue_id (fst item, snd item + 1) ;;
     (* Move this entry in the queue if needed *)
     queue_id' <- promote (Z.to_nat queue_id) queue_id next_queue_id ;;
     (* Update cache for this entry *)
     e' <- entries_getitem k ;;
     entries_setitem k (queue_id', snd e')).

Definition add (k : string) (v : pyval) (update : bool) : M bool :=
  with_lock
    (lim <- gets _limit ;;
     if bool_decide (lim = Some 0) then ret false
     else
       present <- has_cache k ;;
       if negb present then
         queue_len <- __len__ ;;
         queue_len' <-
           match lim with
           | Some l =>
               if queue_len >=? l then
                 _remove_by_id (l - 1) ;;
                 ret (queue_len - 1)
               else ret queue_len
           | None => ret queue_len
           end ;;
         queue_append (k, 1) ;;
         entries_setitem k (queue_len', v) ;;
         modify (fun c => set_misses (_misses c + 1) c) ;;
         ret true
       else if update then
         _increment_access_count k ;;
         e <- entries_getitem k ;;
         entries_setitem k (fst e, v) ;;
         modify (fun c => set_misses (_misses c + 1) c) ;;
         ret true
       else ret false).

Definition get (k : string) (default : pyval) : M pyval :=
  with_lock
    (present <- has_cache k ;;
     if negb present then ret default
     else
       modify (fun c => set_hits (_hits c + 1) c) ;;
       _increment_access_count k ;;
       e <- entries_getitem k ;;
       ret (snd e)).

Definition remove (k : string) : M bool :=
  with_lock
    (present <- has_cache k ;;
     if negb present then ret false
     else
       e <- entries_getitem k ;;
       let queue_id := fst e in
       queue_delitem queue_id ;;
       entries_delitem k ;;
       (* We need to update the ids for the keys after this one *)
       rest <- gets (fun c => py_slice (_priority_queue c) (Some queue_id) None) ;;
       for_each rest shift_left ;;
       ret true).

(** Takes no lock (the docstring: NOT thread safe). *)
Definition retrieve (start end_ : option Z) : M (list _CacheEntry) :=
  items <- gets (fun c => py_slice (_priority_queue c) start end_) ;;
  comprehension items
    (fun item =>
       e <- entries_getitem (fst item) ;;
       ret (CacheEntry (fst item) (snd e) (snd item))).

End Methods.

(** [LFUCache(limit)]: the new object, or the exception of the constructor. *)
Definition __init__ (limit : pyval) : exn + LFUCache :=
  match limit with
  | PyNone => inr (mkLFUCache None ∅ [] 0 0 Unlocked)
  | PyInt n =>
      if n >=? 0 then inr (mkLFUCache (Some n) ∅ [] 0 0 Unlocked)
      else inl LFUCacheException
  | PyStr _ => inl LFUCacheException
  end.

(** ** Sequences of public operations *)

Inductive op : Type :=
  | Add (k : string) (v : pyval) (update : bool)
  | Get (k : string) (default : pyval)
  | Remove (k : string)
  | Clear
  | SetLimit (new_limit : pyval)
  | HasCache (k : string)
  | Len
  | Retrieve (start end_ : option Z)
  | GetLimit
  | GetHits
  | GetMisses.

(** The object after a call, whatever the call returned or raised. *)
Definition after {A} (m : M A) (c : LFUCache) : LFUCache := fst (m c).

Definition step (c : LFUCache) (call : tid * op) : LFUCache :=
  let me := fst call in
  match snd call with
  | Add k v update => after (add me k v update) c
  | Get k default => after (get me k default) c
  | Remove k => after (remove me k) c
  | Clear => after (clear me) c
  | SetLimit v => after (limit_setter me v) c
  | HasCache k => after (has_cache me k) c
  | Len => after __len__ c
  | Retrieve start end_ => after (retrieve start end_) c
  | GetLimit => after limit c
  | GetHits => after hits c
  | GetMisses => after misses c
  end.

Definition run (calls : list (tid * op)) (c : LFUCache) : LFUCache :=
  foldl step c calls.

(** A cache that some constructor call and some calls of public
    operations produce. *)
Definition reachable (c : LFUCache) : Prop :=
  ∃ lim c0 calls, __init__ lim = inr c0 ∧ c = run calls c0.

(** ** The cache of the test suite: limit 5, keys "0".."4"

    The suite stores random strings; any five values do. *)

Definition fresh5 : LFUCache := mkLFUCache (Some 5) ∅ [] 0 0 Unlocked.

Definition generate_cache : LFUCache :=
  run [(O, Add "0" (PyStr "a") false); (O, Add "1" (PyStr "b") false);
       (O, Add "2" (PyStr "c") false); (O, Add "3" (PyStr "d") false);
       (O, Add "4" (PyStr "e") false)] fresh5.

(** ** Invariants *)

(** Invariant 1 of the data model: the index and the sequence describe
    the same entries. *)
Definition consistent (ent : gmap string (Z * pyval)) (q : list (string * Z)) : Prop :=
  (∀ (i : nat) k n, q !! i = Some (k, n) → ∃ v, ent !! k = Some (Z.of_nat i, v)) ∧
  (∀ k j v, ent !! k = Some (j, v) → 0 <= j ∧ ∃ n, q !! Z.to_nat j = Some (k, n)).

(** Invariant 2: access counts do not increase along the sequence. *)
Definition sorted (q : list (string * Z)) : Prop :=
  ∀ (i : nat) a b, q !! i = Some a → q !! S i = Some b → snd b <= snd a.

(** Invariant 4: access counts are positive. *)
Definition positive (q : list (string * Z)) : Prop :=
  ∀ a, a ∈ q → 1 <= snd a.

(** Invariant 3: the size is within a finite limit, which is not negative. *)
Definition within_limit (lim : option Z) (q : list (string * Z)) : Prop :=
  ∀ l, lim = Some l → 0 <= l ∧ Z.of_nat (length q) <= l.

(** The lock can be taken by [me]: it is free or [me] holds it. *)
Definition holdable (me : tid) (l : RLock) : Prop :=
  l = Unlocked ∨ ∃ n, l = Locked me n.

(** The lock is held by another thread than [me]. *)
Definition held_by_other (me : tid) (l : RLock) : Prop :=
  ∃ o n, l = Locked o n ∧ o ≠ me.

(** What holds of the object between any two public calls. *)
Record wf (c : LFUCache) : Prop := mkwf {
  wf_consistent : consistent (_cache_entries c) (_priority_queue c);
  wf_sorted : sorted (_priority_queue c);
  wf_positive : positive (_priority_queue c);
  wf_limit : within_limit (_limit c) (_priority_queue c);
  wf_lock : _lock c = Unlocked
}.

(** ** The containers after a shift *)

(** The index once the entry at slot [i] is gone: the slots after [i]
    are one lower. *)
Definition slots_down (i : Z) (ent : gmap string (Z * pyval)) : gmap string (Z * pyval) :=
  (λ e, if bool_decide (i < fst e) then (fst e - 1, snd e) else e) <$> ent.

(** The index once the entries under the keys [ks] sit one slot higher. *)
Definition slots_up (ks : list string) (ent : gmap string (Z * pyval)) : gmap string (Z * pyval) :=
  foldr (alter (λ e, (fst e + 1, snd e))) ent ks.

(** The index without the keys [ks]. *)
Definition without (ks : list string) (ent : gmap string (Z * pyval)) : gmap string (Z * pyval) :=
  foldr delete ent ks.

(** The sequence once the entry at slot [i] has moved to slot [j <= i] as
    [x]; the entries it passed keep their order, one slot further. *)
Definition move_up (q : list (string * Z)) (i j : nat) (x : string * Z) : list (string * Z) :=
  take j q ++ x :: drop j (take i q) ++ drop (S i) q.

(** The slot where an entry of count [n] coming from slot [i] stops: it
    passes every left neighbour of a strictly lower count. *)
Fixpoint climb (n : Z) (q : list (string * Z)) (i : nat) : nat :=
  match i with
  | O => O
  | S i' =>
      match q !! i' with
      | Some b => if n >? snd b then climb n q i' else i
      | None => i
      end
  end.

(** The tuple that [retrieve] builds for an item of the sequence. *)
Definition entry_at (ent : gmap string (Z * pyval)) (item : string * Z) : _CacheEntry :=
  CacheEntry (fst item) (default PyNone (snd <$> ent !! fst item)) (snd item).

(** ** What a call leaves alone *)

Definition counters (c : LFUCache) : Z * Z := (_hits c, _misses c).

(** The method [m] never changes what [f] reads off the object, whether
    it returns, raises or blocks. *)
Definition keeps {A X} (f : LFUCache → X) (m : M A) : Prop :=
  ∀ c, f (after m c) = f c.

(** A call by [me] takes the lock: while another thread holds the lock
    the call waits and the object stays as it is. *)
Definition acquires_lock {A} (me : tid) (m : M A) : Prop :=
  ∀ c, held_by_other me (_lock c) → m c = (c, Blocked).

(** A call by [me] gives the lock back: when [me] can take the lock, the
    call does not wait, and whether it returns or raises the lock is
    afterwards as it was before. *)
Definition lock_neutral {A} (me : tid) (m : M A) : Prop :=
  ∀ c, holdable me (_lock c) → _lock (after m c) = _lock c ∧ snd (m c) ≠ Blocked.

(** The call waits for the lock. *)
Definition blocks (c : LFUCache) (call : tid * op) : Prop :=
  let me := fst call in
  match snd call with
  | Add k v update => snd (add me k v update c) = Blocked
  | Get k default => snd (get me k default c) = Blocked
  | Remove k => snd (remove me k c) = Blocked
  | Clear => snd (clear me c) = Blocked
  | SetLimit v => snd (limit_setter me v c) = Blocked
  | HasCache k => snd (has_cache me k c) = Blocked
  | Len => snd (__len__ c) = Blocked
  | Retrieve start end_ => snd (retrieve start end_ c) = Blocked
  | GetLimit => snd (limit c) = Blocked
  | GetHits => snd (hits c) = Blocked
  | GetMisses => snd (misses c) = Blocked
  end.

(** ** Methods step by step

    What concurrent callers can tell apart: a method as the sequence of
    its operations on the lock and of its accesses to the object, each
    access one step of its own.  The text of every method is the text
    above, with [atom] marking each access. *)

Inductive Prog (A : Type) : Type :=
  | Done (a : A)
  | Fail (e : exn)
  | Stuck
  | Access {X : Type} (f : M X) (k : outcome X → Prog A)
  | Acq (k : Prog A)
  | Rel (k : Prog A).
Arguments Done {A} a.
Arguments Fail {A} e.
Arguments Stuck {A}.
Arguments Access {A X} f k.
Arguments Acq {A} k.
Arguments Rel {A} k.

Definition of_outcome {A} (o : outcome A) : Prog A :=
  match o with
  | Ret a => Done a
  | Raise e => Fail e
  | Blocked => Stuck
  end.

(** One access to the object. *)
Definition atom {A} (f : M A) : Prog A := Access f of_outcome.

Fixpoint pbind {A B} (p : Prog A) (k : A → Prog B) : Prog B :=
  match p with
  | Done a => k a
  | Fail e => Fail e
  | Stuck => Stuck
  | Access f h => Access f (λ o, pbind (h o) k)
  | Acq p' => Acq (pbind p' k)
  | Rel p' => Rel (pbind p' k)
  end.

(** The exit of a [with self._lock] block: the lock is released where
    the body ends, whether it returned or raised. *)
Fixpoint finally {A} (p : Prog A) : Prog A :=
  match p with
  | Done a => Rel (Done a)
  | Fail e => Rel (Fail e)
  | Stuck => Rel Stuck
  | Access f h => Access f (λ o, finally (h o))
  | Acq p' => Acq (finally p')
  | Rel p' => Rel (finally p')
  end.

Declare Scope prog_scope.
Delimit Scope prog_scope with prog.
Notation "x <- m ;; k" := (pbind m (fun x => k))
  (at level 100, m at next level, k at level 200, right associativity) : prog_scope.
Notation "m ;; k" := (pbind m (fun _ => k))
  (at level 100, k at level 200, right associativity) : prog_scope.

(** [with self._lock: p] *)
Definition with_lock_steps {A} (p : Prog A) : Prog A := Acq (finally p).

Fixpoint for_each_steps {A} (l : list A) (body : A → Prog unit) : Prog unit :=
  match l with
  | [] => Done tt
  | x :: l' => (body x ;; for_each_steps l' body)%prog
  end.

Fixpoint comprehension_steps {A B} (l : list A) (f : A → Prog B) : Prog (list B) :=
  match l with
  | [] => Done []
  | x :: l' => (y <- f x ;; ys <- comprehension_steps l' f ;; Done (y :: ys))%prog
  end.

Definition shift_left_steps (item : string * Z) : Prog unit :=
  (e <- atom (entries_getitem (fst item)) ;;
   atom (entries_setitem (fst item) (fst e - 1, snd e)))%prog.

Definition len_steps : Prog Z := atom __len__.
Definition limit_steps : Prog (option Z) := atom limit.
Definition hits_steps : Prog Z := atom hits.
Definition misses_steps : Prog Z := atom misses.

Fixpoint drop_excessive_steps (excessive_entries : nat) : Prog unit :=
  match excessive_entries with
  | O => Done tt
  | S n =>
      (item <- atom queue_pop ;;
       atom (entries_delitem (fst item)) ;;
       drop_excessive_steps n)%prog
  end.

Definition limit_setter_steps (new_limit : pyval) : Prog unit :=
  with_lock_steps
    (match new_limit with
     | PyNone => atom (modify (set_limit None))
     | PyInt n =>
         if n <? 0 then Fail LFUCacheException
         else
           sz <- len_steps ;;
           drop_excessive_steps (Z.to_nat (sz - n)) ;;
           atom (modify (set_limit (Some n)))
     | PyStr _ => Fail LFUCacheException
     end)%prog.

Definition clear_steps : Prog unit :=
  with_lock_steps
    (atom (modify (set_entries ∅)) ;;
     atom (modify (set_queue [])))%prog.

Definition has_cache_steps (k : string) : Prog bool :=
  with_lock_steps (atom (gets (fun c => bool_decide (is_Some (_cache_entries c !! k))))).

Definition _remove_by_id_steps (queue_id : Z) : Prog bool :=
  with_lock_steps
    (sz <- len_steps ;;
     if negb ((sz >? queue_id) && (queue_id >=? 0)) then Done false
     else
       item <- atom (queue_getitem queue_id) ;;
       let k := fst item in
       atom (entries_delitem k) ;;
       atom (queue_delitem queue_id) ;;
       rest <- atom (gets (fun c => py_slice (_priority_queue c) (Some queue_id) None)) ;;
       for_each_steps rest shift_left_steps ;;
       Done true)%prog.

Fixpoint promote_steps (fuel : nat) (queue_id next_queue_id : Z) : Prog Z :=
  match fuel with
  | O => Done queue_id
  | S fuel' =>
      (if queue_id >? 0 then
         a <- atom (queue_getitem queue_id) ;;
         b <- atom (queue_getitem next_queue_id) ;;
         if snd a >? snd b then
           nxt <- atom (queue_getitem next_queue_id) ;;
           let next_entry_key := fst nxt in
           e <- atom (entries_getitem next_entry_key) ;;
           atom (entries_setitem next_entry_key (next_queue_id + 1, snd e)) ;;
           x <- atom (queue_getitem next_queue_id) ;;
           y <- atom (queue_getitem queue_id) ;;
           atom (queue_setitem queue_id x) ;;
           atom (queue_setitem next_queue_id y) ;;
           promote_steps fuel' (queue_id - 1) (next_queue_id - 1)
         else Done queue_id
       else Done queue_id)%prog
  end.

Definition _increment_access_count_steps (k : string) : Prog unit :=
  with_lock_steps
    (e <- atom (entries_getitem k) ;;
     let queue_id := fst e in
     let next_queue_id := queue_id - 1 in
     item <- atom (queue_getitem queue_id) ;;
     atom (queue_setitem queue_id (fst item, snd item + 1)) ;;
     queue_id' <- promote_steps (Z.to_nat queue_id) queue_id next_queue_id ;;
     e' <- atom (entries_getitem k) ;;
     atom (entries_setitem k (queue_id', snd e')))%prog.

Definition add_steps (k : string) (v : pyval) (update : bool) : Prog bool :=
  with_lock_steps
    (lim <- atom (gets _limit) ;;
     if bool_decide (lim = Some 0) then Done false
     else
       present <- has_cache_steps k ;;
       if negb present then
         queue_len <- len_steps ;;
         queue_len' <-
           match lim with
           | Some l =>
               if queue_len >=? l then
                 _remove_by_id_steps (l - 1) ;;
                 Done (queue_len - 1)
               else Done queue_len
           | None => Done queue_len
           end ;;
         atom (queue_append (k, 1)) ;;
         atom (entries_setitem k (queue_len', v)) ;;
         atom (modify (fun c => set_misses (_misses c + 1) c)) ;;
         Done true
       else if update then
         _increment_access_count_steps k ;;
         e <- atom (entries_getitem k) ;;
         atom (entries_setitem k (fst e, v)) ;;
         atom (modify (fun c => set_misses (_misses c + 1) c)) ;;
         Done true
       else Done false)%prog.

Definition get_steps (k : string) (default : pyval) : Prog pyval :=
  with_lock_steps
    (present <- has_cache_steps k ;;
     if negb present then Done default
     else
       atom (modify (fun c => set_hits (_hits c + 1) c)) ;;
       _increment_access_count_steps k ;;
       e <- atom (entries_getitem k) ;;
       Done (snd e))%prog.

Definition remove_steps (k : string) : Prog bool :=
  with_lock_steps
    (present <- has_cache_steps k ;;
     if negb present then Done false
     else
       e <- atom (entries_getitem k) ;;
       let queue_id := fst e in
       atom (queue_delitem queue_id) ;;
       atom (entries_delitem k) ;;
       rest <- atom (gets (fun c => py_slice (_priority_queue c) (Some queue_id) None)) ;;
       for_each_steps rest shift_left_steps ;;
       Done true)%prog.

Definition retrieve_steps (start end_ : option Z) : Prog (list _CacheEntry) :=
  (items <- atom (gets (fun c => py_slice (_priority_queue c) start end_)) ;;
   comprehension_steps items
     (fun item =>
        e <- atom (entries_getitem (fst item)) ;;
        Done (CacheEntry (fst item) (snd e) (snd item))))%prog.

(** *** One thread on its own *)

(** The steps of [p] taken by thread [me] with no other thread in
    between. *)
Fixpoint run_alone {A} (me : tid) (p : Prog A) (c : LFUCache) {struct p}
  : LFUCache * outcome A :=
  match p with
  | Done a => (c, Ret a)
  | Fail e => (c, Raise e)
  | Stuck => (c, Blocked)
  | Access f k => let '(c1, o) := f c in run_alone me (k o) c1
  | Acq p' =>
      match acquire me (_lock c) with
      | Some l => run_alone me p' (set_lock l c)
      | None => (c, Blocked)
      end
  | Rel p' =>
      match release me (_lock c) with
      | Some l => run_alone me p' (set_lock l c)
      | None => (c, Raise RuntimeError)
      end
  end.

(** *** Threads taking turns *)

(** One step of thread [t]: an access, or an operation on the lock.  A
    thread whose next step is to take a lock that another thread holds
    waits, and a thread that is done has no step. *)
Definition thread_step {A} (t : tid) (c : LFUCache) (p : Prog A)
  : option (LFUCache * Prog A) :=
  match p with
  | Done _ | Fail _ | Stuck => None
  | Access f k => let '(c1, o) := f c in Some (c1, k o)
  | Acq p' =>
      match acquire t (_lock c) with
      | Some l => Some (set_lock l c, p')
      | None => None
      end
  | Rel p' =>
      match release t (_lock c) with
      | Some l => Some (set_lock l c, p')
      | None => Some (c, Fail RuntimeError)
      end
  end.

(** The object and what each thread has left to do. *)
Definition threads (A : Type) : Type := LFUCache * (tid → Prog A).

(** The thread [t] is given a turn. *)
Definition turn {A} (s : threads A) (t : tid) : threads A :=
  match thread_step t (fst s) (snd s t) with
  | Some (c', p') => (c', λ t', if decide (t' = t) then p' else snd s t')
  | None => s
  end.

(** The threads take turns in the order [schedule]. *)
Definition interleave {A} (schedule : list tid) (s : threads A) : threads A :=
  foldl turn s schedule.

(** *** The lock discipline *)

(** Started when the calling thread has taken the lock [d] times, [p]
    accesses the object only while the thread holds the lock, leaves the
    lock to the accesses alone, never holds the lock fewer than [fin]
    times, and ends when the thread has the lock [fin] times. *)
Fixpoint under_lock {A} (d fin : nat) (p : Prog A) : Prop :=
  match p with
  | Done _ | Fail _ | Stuck => d = fin
  | Access f k => (0 < d)%nat ∧ keeps _lock f ∧ ∀ o, under_lock d fin (k o)
  | Acq p' => under_lock (S d) fin p'
  | Rel p' =>
      match d with
      | O => False
      | S d' => (fin <= d')%nat ∧ under_lock d' fin p'
      end
  end.

(** Every access of [p] is made with the lock held, and [p] starts and
    ends without it. *)
Definition guarded {A} (p : Prog A) : Prop := under_lock 0 0 p.

(** How often each thread has taken the lock, as the lock records it. *)
Definition lock_counts (l : RLock) (depth : tid → nat) : Prop :=
  match l with
  | Unlocked => ∀ t, depth t = O
  | Locked o n => depth o = S n ∧ ∀ t, t ≠ o → depth t = O
  end.

(** A call as a statement: the value it returns is dropped. *)
Definition call {A} (p : Prog A) : Prog unit := (p ;; Done tt)%prog.

(** The steps of a public call. *)
Definition steps_of (o : op) : Prog unit :=
  match o with
  | Add k v update => call (add_steps k v update)
  | Get k default => call (get_steps k default)
  | Remove k => call (remove_steps k)
  | Clear => call clear_steps
  | SetLimit v => call (limit_setter_steps v)
  | HasCache k => call (has_cache_steps k)
  | Len => call len_steps
  | Retrieve start end_ => call (retrieve_steps start end_)
  | GetLimit => call limit_steps
  | GetHits => call hits_steps
  | GetMisses => call misses_steps
  end.

(** The operations whose body is a [with self._lock] block. *)
Definition locking (o : op) : Prop :=
  match o with
  | Add _ _ _ | Get _ _ | Remove _ | Clear | SetLimit _ | HasCache _ => True
  | Len | Retrieve _ _ | GetLimit | GetHits | GetMisses => False
  end.

(** The thread has no step left. *)
Definition finished {A} (p : Prog A) : Prop :=
  match p with
  | Done _ | Fail _ | Stuck => True
  | Access _ _ | Acq _ | Rel _ => False
  end.

(** ** [lfu_cache/decorators.py] *)

(** What [create_lfu_cache(limit, typed)(func)] raises: the [Exception]
    for a function that already has a cache, or what [LFUCache(limit)]
    raised. *)
Inductive decorator_exn : Type :=
  | AlreadyCached (func : string)
  | FromCache (e : exn).

Section Decorators.

(** The arguments of a call, [(args, kwargs)]. *)
Context {Args : Type}.

(** [functools._make_key(args, kwargs, typed)], from Python's library.
    The cache uses a key only through its hash and equality; the key is
    given here as a string. *)
Variable _make_key : Args → bool → string.

(** The calling thread. *)
Variable me : tid.

(** The statements of [wrapper] that follow
    [cache = funcs_cache_map[func]], run on that cache.  The decorated
    function [func] is any callable: it returns or raises, and may itself
    use the cache (a recursive function calls its own wrapper). *)
Definition wrapper_body (func : Args → M pyval) (typed : bool) (args : Args) : M pyval :=
  let k := _make_key args typed in
  present <- has_cache me k ;;
  if present then get me k PyNone
  else
    value <- func args ;;
    add me k value false ;;
    ret value.

(** A call of [wrapper], on the module's [funcs_cache_map].  A
    function object is a dictionary key by identity; [func_id] names it.
    The cache object is changed in place, so the map holds the cache as
    the call left it. *)
Definition wrapper (func_id : string) (func : Args → M pyval) (typed : bool) (args : Args)
    (funcs_cache_map : gmap string LFUCache) : gmap string LFUCache * outcome pyval :=
  match funcs_cache_map !! func_id with
  | None => (funcs_cache_map, Raise (KeyError func_id))
  | Some cache =>
      let '(cache', r) := wrapper_body func typed args cache in
      (<[func_id := cache']> funcs_cache_map, r)
  end.

(** [create_lfu_cache(limit, typed)(func)]: the map afterwards, and the
    wrapper it returns or the exception it raises. *)
Definition create_lfu_cache (limit : pyval) (typed : bool)
    (func_id : string) (func : Args → M pyval)
    (funcs_cache_map : gmap string LFUCache)
  : gmap string LFUCache
    * (decorator_exn
       + (Args → gmap string LFUCache → gmap string LFUCache * outcome pyval)) :=
  if bool_decide (is_Some (funcs_cache_map !! func_id)) then
    (funcs_cache_map, inl (AlreadyCached func_id))
  else
    match __init__ limit with
    | inl e => (funcs_cache_map, inl (FromCache e))
    | inr cache =>
        (<[func_id := cache]> funcs_cache_map, inr (wrapper func_id func typed))
    end.

(** The cache after the calls [history] of the wrapper, in order. *)
Definition replay (func : Args → M pyval) (typed : bool) (history : list Args)
    (c : LFUCache) : LFUCache :=
  foldl (λ c args, after (wrapper_body func typed args) c) c history.

End Decorators.

(** * Proofs *)

Create HintDb frame.

(** Reads the fields of an object that is given field by field. *)
Ltac fields :=
  cbn [_limit _cache_entries _priority_queue _hits _misses _lock].
Tactic Notation "fields" "in" "*" :=
  cbn [_limit _cache_entries _priority_queue _hits _misses _lock] in *.

(** ** The lock *)

Lemma holdable_acquire me l :
  holdable me l → ∃ l', acquire me l = Some l' ∧ holdable me l' ∧ release me l' = Some l.
Proof.
  intros [-> | [n ->]]; simpl.
  - exists (Locked me 0). simpl. rewrite decide_True by done.
    split; [done | split; [right; by eexists | done]].
  - rewrite decide_True by done. exists (Locked me (S n)). simpl.
    rewrite decide_True by done.
    split; [done | split; [right; by eexists | done]].
Qed.

Lemma held_by_other_acquire me l : held_by_other me l → acquire me l = None.
Proof. intros (o & n & -> & Hne). simpl. by rewrite decide_False. Qed.

Lemma acquire_None me l : acquire me l = None → held_by_other me l.
Proof.
  destruct l as [|o n]; simpl; [done |].
  destruct (decide (o = me)); [done |]. intros _. by exists o, n.
Qed.

Lemma acquire_Some me l l' : acquire me l = Some l' → holdable me l.
Proof.
  destruct l as [|o n]; simpl; [by left |].
  destruct (decide (o = me)) as [-> |]; [| done]. intros _. right. by exists n.
Qed.

Section Running.

Variable me : tid.

(** *** Running a method on an object given field by field *)

Lemma bind_Ret {A B} (m : M A) (k : A → M B) c c1 a :
  m c = (c1, Ret a) → bind m k c = k a c1.
Proof. intros H. unfold bind. by rewrite H. Qed.

Lemma bind_Raise {A B} (m : M A) (k : A → M B) c c1 e :
  m c = (c1, Raise e) → bind m k c = (c1, Raise e).
Proof. intros H. unfold bind. by rewrite H. Qed.

Lemma with_lock_run {A} (m : M A) lim ent q h mi lk lk' lim' ent' q' h' mi' r :
  acquire me lk = Some lk' →
  release me lk' = Some lk →
  m (mkLFUCache lim ent q h mi lk') = (mkLFUCache lim' ent' q' h' mi' lk', r) →
  with_lock me m (mkLFUCache lim ent q h mi lk) = (mkLFUCache lim' ent' q' h' mi' lk, r).
Proof.
  intros Ha Hr Hm. unfold with_lock. cbn [_lock]. rewrite Ha.
  unfold set_lock at 1. cbn [_limit _cache_entries _priority_queue _hits _misses].
  rewrite Hm. cbn [_lock]. by rewrite Hr.
Qed.

Lemma with_lock_blocked {A} (m : M A) c :
  held_by_other me (_lock c) → with_lock me m c = (c, Blocked).
Proof. intros H. unfold with_lock. by rewrite held_by_other_acquire. Qed.

Lemma has_cache_run lim ent q h mi lk k :
  holdable me lk →
  has_cache me k (mkLFUCache lim ent q h mi lk)
  = (mkLFUCache lim ent q h mi lk, Ret (bool_decide (is_Some (ent !! k)))).
Proof.
  intros (lk' & Ha & _ & Hr)%holdable_acquire.
  unfold has_cache. by eapply with_lock_run.
Qed.

End Running.

(** ** Python indices *)

Lemma py_index_nat (n i : nat) :
  (i < n)%nat → py_index (Z.of_nat n) (Z.of_nat i) = Some i.
Proof.
  intros H. unfold py_index.
  assert ((Z.of_nat i <? 0) = false) as -> by lia.
  assert ((0 <=? Z.of_nat i) && (Z.of_nat i <? Z.of_nat n) = true) as -> by lia.
  by rewrite Nat2Z.id.
Qed.

Lemma py_slice_from {A} (l : list A) (i : nat) :
  (i <= length l)%nat → py_slice l (Some (Z.of_nat i)) None = drop i l.
Proof.
  intros H. unfold py_slice, py_bound.
  assert ((Z.of_nat i <? 0) = false) as -> by lia.
  rewrite Z.min_l by lia. rewrite Nat2Z.id.
  apply take_ge. rewrite length_drop. lia.
Qed.

Lemma py_slice_all {A} (l : list A) : py_slice l None None = l.
Proof. unfold py_slice. rewrite drop_0, Nat.sub_0_r. by apply take_ge. Qed.

Section Primitives.

Variable me : tid.
Variables (lim : option Z) (h mi : Z) (lk : RLock).

Lemma entries_getitem_run ent q k e :
  ent !! k = Some e →
  entries_getitem k (mkLFUCache lim ent q h mi lk) = (mkLFUCache lim ent q h mi lk, Ret e).
Proof. intros H. unfold entries_getitem. cbn [_cache_entries]. by rewrite H. Qed.

Lemma entries_delitem_run ent q k e :
  ent !! k = Some e →
  entries_delitem k (mkLFUCache lim ent q h mi lk)
  = (mkLFUCache lim (delete k ent) q h mi lk, Ret tt).
Proof. intros H. unfold entries_delitem. cbn [_cache_entries]. by rewrite H. Qed.

Lemma queue_getitem_run ent q (i : nat) x :
  q !! i = Some x →
  queue_getitem (Z.of_nat i) (mkLFUCache lim ent q h mi lk)
  = (mkLFUCache lim ent q h mi lk, Ret x).
Proof.
  intros H. unfold queue_getitem. cbn [_priority_queue].
  rewrite py_index_nat by (by eapply lookup_lt_Some). simpl. by rewrite H.
Qed.

Lemma queue_setitem_run ent q (i : nat) x :
  (i < length q)%nat →
  queue_setitem (Z.of_nat i) x (mkLFUCache lim ent q h mi lk)
  = (mkLFUCache lim ent (<[i := x]> q) h mi lk, Ret tt).
Proof.
  intros H. unfold queue_setitem. cbn [_priority_queue].
  by rewrite py_index_nat.
Qed.

Lemma queue_delitem_run ent q (i : nat) :
  (i < length q)%nat →
  queue_delitem (Z.of_nat i) (mkLFUCache lim ent q h mi lk)
  = (mkLFUCache lim ent (delete i q) h mi lk, Ret tt).
Proof.
  intros H. unfold queue_delitem. cbn [_priority_queue].
  by rewrite py_index_nat.
Qed.

Lemma shift_left_run ent q item e :
  ent !! item.1 = Some e →
  shift_left item (mkLFUCache lim ent q h mi lk)
  = (mkLFUCache lim (alter (λ e, (fst e - 1, snd e)) item.1 ent) q h mi lk, Ret tt).
Proof.
  intros H. unfold shift_left.
  erewrite bind_Ret by (by apply entries_getitem_run).
  unfold entries_setitem, modify, set_entries. fields.
  do 2 f_equal. apply map_eq. intros k'.
  destruct (decide (item.1 = k')) as [<- |].
  - by rewrite lookup_insert_eq, lookup_alter_eq, H.
  - by rewrite lookup_insert_ne, lookup_alter_ne.
Qed.

Lemma for_each_shift_left_run items ent q :
  (∀ k, k ∈ items.*1 → is_Some (ent !! k)) →
  for_each items shift_left (mkLFUCache lim ent q h mi lk)
  = (mkLFUCache lim
       (foldl (λ m k, alter (λ e, (fst e - 1, snd e)) k m) ent items.*1) q h mi lk,
     Ret tt).
Proof.
  revert ent. induction items as [| item items IH]; intros ent Hin; [done |].
  destruct (Hin item.1) as [e He]; [rewrite fmap_cons; apply list_elem_of_here |].
  cbn [for_each]. erewrite bind_Ret by (by eapply shift_left_run).
  rewrite IH; [done |].
  intros k Hk. destruct (decide (item.1 = k)) as [<- |].
  - rewrite lookup_alter_eq, He. by eexists.
  - rewrite lookup_alter_ne by done. apply Hin.
    rewrite fmap_cons. by apply list_elem_of_further.
Qed.

End Primitives.

(** ** The bijection between index and sequence *)

Lemma consistent_slot ent q k j v :
  consistent ent q → ent !! k = Some (j, v) →
  ∃ (i : nat) n, j = Z.of_nat i ∧ q !! i = Some (k, n).
Proof.
  intros [_ H2] Hk. destruct (H2 _ _ _ Hk) as [Hj [n Hn]].
  exists (Z.to_nat j), n. split; [lia | done].
Qed.

Lemma consistent_inj ent q (i j : nat) k n n' :
  consistent ent q → q !! i = Some (k, n) → q !! j = Some (k, n') → i = j.
Proof.
  intros [H1 _] Hi Hj.
  destruct (H1 _ _ _ Hi) as [v Hv]. destruct (H1 _ _ _ Hj) as [v' Hv'].
  rewrite Hv in Hv'. injection Hv' as ?%Nat2Z.inj _. done.
Qed.

Lemma consistent_NoDup ent q : consistent ent q → NoDup q.*1.
Proof.
  intros Hc. apply NoDup_alt. intros i j k Hi Hj.
  apply list_lookup_fmap_Some_1 in Hi as [[k1 n1] [-> Hi]].
  apply list_lookup_fmap_Some_1 in Hj as [[k2 n2] [Heq Hj]].
  simpl in Heq. subst k2. by eapply consistent_inj.
Qed.

Lemma consistent_absent ent q k :
  consistent ent q → ent !! k = None → k ∉ q.*1.
Proof.
  intros [H1 _] Hk Hin.
  apply list_elem_of_fmap in Hin as [[k' n] [-> Hin]].
  apply list_elem_of_lookup in Hin as [i Hi].
  destruct (H1 _ _ _ Hi) as [v Hv]. simpl in Hk. congruence.
Qed.

(** The two containers have the same size. *)
Lemma consistent_size ent q : consistent ent q → size ent = length q.
Proof.
  intros Hc.
  assert (dom ent = list_to_set q.*1) as Hdom.
  { apply set_eq. intros k. rewrite elem_of_dom, elem_of_list_to_set. split.
    - intros [[j v] Hk]. destruct (consistent_slot _ _ _ _ _ Hc Hk) as (i & n & _ & Hi).
      apply list_elem_of_fmap. exists (k, n). split; [done |].
      apply list_elem_of_lookup. by exists i.
    - intros Hin. apply list_elem_of_fmap in Hin as [[k' n] [-> Hin]].
      apply list_elem_of_lookup in Hin as [i Hi].
      destruct Hc as [H1 _]. destruct (H1 _ _ _ Hi) as [v Hv]. by eexists. }
  rewrite <- size_dom, Hdom, size_list_to_set by (by eapply consistent_NoDup).
  by rewrite length_fmap.
Qed.

Lemma consistent_empty : consistent ∅ [].
Proof. split; intros *; [by rewrite lookup_nil | by rewrite lookup_empty]. Qed.

Lemma lookup_foldl_alter (f : Z * pyval → Z * pyval) ks (m : gmap string (Z * pyval)) k :
  NoDup ks →
  foldl (λ m k, alter f k m) m ks !! k
  = if decide (k ∈ ks) then f <$> m !! k else m !! k.
Proof.
  revert m. induction ks as [| k0 ks IH]; intros m Hnd.
  - cbn [foldl]. case_decide as Hin; [by apply elem_of_nil in Hin | done].
  - apply NoDup_cons in Hnd as [Hk0 Hnd]. cbn [foldl]. rewrite IH by done.
    destruct (decide (k = k0)) as [-> |].
    + rewrite lookup_alter_eq. case_decide; [done |].
      case_decide as Hin; [done |]. exfalso. apply Hin, list_elem_of_here.
    + rewrite lookup_alter_ne by done.
      rewrite (decide_ext (k ∈ k0 :: ks) (k ∈ ks)); [done |].
      rewrite elem_of_cons. tauto.
Qed.

Lemma drop_delete_here {A} (l : list A) i : drop i (delete i l) = drop (S i) l.
Proof.
  revert l. induction i as [| i IH]; intros [| x l]; simpl; done.
Qed.

(** The loop after a deletion computes [slots_down]. *)
Lemma shifted_slots_down ent q (i : nat) k n :
  consistent ent q → q !! i = Some (k, n) →
  foldl (λ m k, alter (λ e, (fst e - 1, snd e)) k m) (delete k ent) (drop (S i) q).*1
  = slots_down (Z.of_nat i) (delete k ent).
Proof.
  intros Hc Hi. apply map_eq. intros k'.
  assert (NoDup (drop (S i) q).*1) as Hnd.
  { rewrite fmap_drop. eapply sublist_NoDup; [| apply sublist_drop].
    by eapply consistent_NoDup. }
  rewrite lookup_foldl_alter by done. unfold slots_down. rewrite lookup_fmap.
  destruct (decide (k' = k)) as [-> |].
  { rewrite lookup_delete_eq. by destruct (decide _). }
  rewrite lookup_delete_ne by done.
  destruct (ent !! k') as [[j v] |] eqn:Hk'; [| by destruct (decide _)].
  destruct (consistent_slot _ _ _ _ _ Hc Hk') as (p & m & -> & Hp).
  simpl. destruct (decide (k' ∈ (drop (S i) q).*1)) as [Hin | Hnin].
  - apply list_elem_of_fmap in Hin as [[k2 n2] [Heq Hin]]. simpl in Heq. subst k2.
    apply list_elem_of_lookup in Hin as [t Ht]. rewrite lookup_drop in Ht.
    assert (p = (S i + t)%nat) as -> by (by eapply consistent_inj).
    by rewrite bool_decide_eq_true_2 by lia.
  - rewrite bool_decide_eq_false_2; [done |]. intros Hlt. apply Hnin.
    apply list_elem_of_fmap. exists (k', m). split; [done |].
    apply list_elem_of_lookup. exists (p - S i)%nat. rewrite lookup_drop.
    by replace (S i + (p - S i))%nat with p by lia.
Qed.

Lemma consistent_delete ent q (i : nat) k n :
  consistent ent q → q !! i = Some (k, n) →
  consistent (slots_down (Z.of_nat i) (delete k ent)) (delete i q).
Proof.
  intros Hc Hi. split.
  - intros p k' n' Hp. unfold slots_down. rewrite lookup_fmap.
    rewrite list_lookup_delete in Hp. destruct (decide (p < i)%nat).
    + assert (k' ≠ k) by (intros ->; assert (p = i) by (by eapply consistent_inj); lia).
      rewrite lookup_delete_ne by done.
      destruct Hc as [H1 _]. destruct (H1 _ _ _ Hp) as [v ->]. simpl. exists v.
      by rewrite bool_decide_eq_false_2 by lia.
    + assert (k' ≠ k) by (intros ->; assert (S p = i) by (by eapply consistent_inj); lia).
      rewrite lookup_delete_ne by done.
      destruct Hc as [H1 _]. destruct (H1 _ _ _ Hp) as [v ->]. simpl. exists v.
      rewrite bool_decide_eq_true_2 by lia. do 2 f_equal. lia.
  - intros k' j v. unfold slots_down. rewrite lookup_fmap.
    destruct (decide (k' = k)) as [-> |]; [by rewrite lookup_delete_eq |].
    rewrite lookup_delete_ne by done.
    destruct (ent !! k') as [[j0 v0] |] eqn:Hk'; [| done].
    destruct (consistent_slot _ _ _ _ _ Hc Hk') as (p & m & -> & Hp).
    assert (p ≠ i) by (intros ->; rewrite Hi in Hp; congruence).
    simpl. case_bool_decide; intros [= <- <-].
    + split; [lia |]. exists m. rewrite list_lookup_delete_ge by lia.
      by replace (S (Z.to_nat (Z.of_nat p - 1))) with p by lia.
    + split; [lia |]. exists m. rewrite list_lookup_delete_lt by lia.
      by rewrite Nat2Z.id.
Qed.

(** ** Removal *)

Section Removal.

Variable me : tid.
Variables (lim : option Z) (h mi : Z).

Lemma rest_present ent q (i : nat) k n :
  consistent ent q → q !! i = Some (k, n) →
  ∀ k', k' ∈ (drop (S i) q).*1 → is_Some (delete k ent !! k').
Proof.
  intros Hc Hi k' Hin.
  apply list_elem_of_fmap in Hin as [[k2 n2] [-> Hin]].
  apply list_elem_of_lookup in Hin as [t Ht]. rewrite lookup_drop in Ht.
  simpl. assert (k2 ≠ k).
  { intros ->. assert ((S i + t)%nat = i) by (by eapply consistent_inj). lia. }
  rewrite lookup_delete_ne by done.
  destruct Hc as [H1 _]. destruct (H1 _ _ _ Ht) as [v Hv]. by eexists.
Qed.

Lemma _remove_by_id_run ent q lk (i : nat) k n :
  consistent ent q → holdable me lk → q !! i = Some (k, n) →
  _remove_by_id me (Z.of_nat i) (mkLFUCache lim ent q h mi lk)
  = (mkLFUCache lim (slots_down (Z.of_nat i) (delete k ent)) (delete i q) h mi lk,
     Ret true).
Proof.
  intros Hc (lk' & Ha & Hh & Hr)%holdable_acquire Hi.
  pose proof (lookup_lt_Some _ _ _ Hi) as Hlt.
  destruct Hc as [H1 H2]. destruct (H1 _ _ _ Hi) as [v Hv].
  unfold _remove_by_id. eapply with_lock_run; [done.. |].
  erewrite bind_Ret by reflexivity. cbn [_priority_queue].
  assert (negb ((Z.of_nat (length q) >? Z.of_nat i) && (Z.of_nat i >=? 0)) = false)
    as -> by lia.
  erewrite bind_Ret by (by apply queue_getitem_run). cbn [fst].
  erewrite bind_Ret by (by eapply entries_delitem_run).
  erewrite bind_Ret by (by apply queue_delitem_run).
  erewrite bind_Ret by reflexivity. cbn [_priority_queue].
  rewrite py_slice_from by (rewrite length_delete by (by eexists); lia).
  rewrite drop_delete_here.
  erewrite bind_Ret by (by eapply for_each_shift_left_run, rest_present).
  by erewrite shifted_slots_down.
Qed.

Lemma _remove_by_id_out_of_range ent q lk (i : Z) :
  holdable me lk → ¬ (0 <= i < Z.of_nat (length q)) →
  _remove_by_id me i (mkLFUCache lim ent q h mi lk)
  = (mkLFUCache lim ent q h mi lk, Ret false).
Proof.
  intros (lk' & Ha & Hh & Hr)%holdable_acquire Hi.
  unfold _remove_by_id. eapply with_lock_run; [done.. |].
  erewrite bind_Ret by reflexivity. cbn [_priority_queue].
  by assert (negb ((Z.of_nat (length q) >? i) && (i >=? 0)) = true) as -> by lia.
Qed.

Lemma remove_run ent q lk (i : nat) k v :
  consistent ent q → holdable me lk → ent !! k = Some (Z.of_nat i, v) →
  remove me k (mkLFUCache lim ent q h mi lk)
  = (mkLFUCache lim (slots_down (Z.of_nat i) (delete k ent)) (delete i q) h mi lk,
     Ret true).
Proof.
  intros Hc (lk' & Ha & Hh & Hr)%holdable_acquire Hk.
  destruct (consistent_slot _ _ _ _ _ Hc Hk) as (i' & n & ->%Nat2Z.inj & Hi).
  pose proof (lookup_lt_Some _ _ _ Hi) as Hlt.
  unfold remove. eapply with_lock_run; [done.. |].
  erewrite bind_Ret by (by apply has_cache_run).
  rewrite Hk, bool_decide_eq_true_2 by (by eexists). cbn [negb].
  erewrite bind_Ret by (by apply entries_getitem_run). cbn [fst].
  erewrite bind_Ret by (by apply queue_delitem_run).
  erewrite bind_Ret by (by eapply entries_delitem_run).
  erewrite bind_Ret by reflexivity. cbn [_priority_queue].
  rewrite py_slice_from by (rewrite length_delete by (by eexists); lia).
  rewrite drop_delete_here.
  erewrite bind_Ret by (by eapply for_each_shift_left_run, rest_present).
  by erewrite shifted_slots_down.
Qed.

Lemma remove_absent ent q lk k :
  holdable me lk → ent !! k = None →
  remove me k (mkLFUCache lim ent q h mi lk) = (mkLFUCache lim ent q h mi lk, Ret false).
Proof.
  intros (lk' & Ha & Hh & Hr)%holdable_acquire Hk.
  unfold remove. eapply with_lock_run; [done.. |].
  erewrite bind_Ret by (by apply has_cache_run).
  rewrite Hk, bool_decide_eq_false_2 by (by intros [? ?]). done.
Qed.

End Removal.

(** ** Promotion *)

Lemma climb_le n q i : (climb n q i <= i)%nat.
Proof.
  induction i as [| i IH]; simpl; [done |].
  destruct (q !! i) as [b |]; [| done]. destruct (n >? snd b); lia.
Qed.

Lemma climb_ext n q q' i :
  (∀ p : nat, (p < i)%nat → q !! p = q' !! p) → climb n q i = climb n q' i.
Proof.
  induction i as [| i IH]; intros Hp; simpl; [done |].
  rewrite <- (Hp i) by lia. rewrite IH by (intros; apply Hp; lia). done.
Qed.

(** The entries passed have a strictly lower count. *)
Lemma climb_passed n q i (p : nat) b :
  (climb n q i <= p < i)%nat → q !! p = Some b → snd b < n.
Proof.
  induction i as [| i IH]; simpl; intros Hp Hb; [lia |].
  destruct (q !! i) as [b' |] eqn:Hi.
  - destruct (n >? snd b') eqn:Hgt; [| lia].
    destruct (decide (p = i)) as [-> |].
    + rewrite Hi in Hb. injection Hb as <-. lia.
    + apply IH; [lia | done].
  - lia.
Qed.

(** The climb stops at slot 0 or below a count that is not lower. *)
Lemma climb_stop n q i (j : nat) b :
  (i < length q)%nat → climb n q i = S j → q !! j = Some b → n <= snd b.
Proof.
  induction i as [| i IH]; simpl; intros Hlt Hj Hb; [done |].
  destruct (q !! i) as [b' |] eqn:Hi.
  - destruct (n >? snd b') eqn:Hgt.
    + apply IH; [lia | done..].
    + injection Hj as <-. rewrite Hi in Hb. injection Hb as <-. lia.
  - apply lookup_ge_None in Hi. lia.
Qed.

Lemma move_up_here q i x : q !! i = Some x → move_up q i i x = q.
Proof.
  intros Hi. unfold move_up.
  rewrite drop_ge by (rewrite length_take; lia).
  by apply take_drop_middle.
Qed.

Lemma move_up_insert q i j x y :
  (j <= i)%nat → move_up (<[i := y]> q) i j x = move_up q i j x.
Proof.
  intros Hj. unfold move_up.
  by rewrite !take_insert_ge, drop_insert_lt by lia.
Qed.

Lemma move_up_length q i j x :
  (j <= i < length q)%nat → length (move_up q i j x) = length q.
Proof.
  intros Hj. unfold move_up.
  rewrite length_app. cbn [length]. rewrite length_app, length_drop, !length_take, length_drop. lia.
Qed.

Lemma move_up_lookup q i j x (p : nat) :
  (j <= i < length q)%nat →
  move_up q i j x !! p
  = if decide (p < j)%nat then q !! p
    else if decide (p = j) then Some x
    else if decide (p <= i)%nat then q !! (p - 1)%nat
    else q !! p.
Proof.
  intros Hj. unfold move_up.
  assert (length (take j q) = j) as Hlen by (rewrite length_take; lia).
  destruct (decide (p < j)%nat).
  { rewrite lookup_app_l by lia. by rewrite lookup_take_lt. }
  rewrite lookup_app_r by lia. rewrite Hlen.
  destruct (decide (p = j)) as [-> |].
  { by rewrite Nat.sub_diag. }
  replace (p - j)%nat with (S (p - S j)) by lia. rewrite lookup_cons. cbv beta iota.
  assert (length (drop j (take i q)) = (i - j)%nat) as Hlen2.
  { rewrite length_drop, length_take. lia. }
  destruct (decide (p <= i)%nat).
  - rewrite lookup_app_l by lia. rewrite lookup_drop, lookup_take_lt by lia.
    f_equal. lia.
  - rewrite lookup_app_r by lia. rewrite lookup_drop. f_equal. lia.
Qed.

(** One swap of the loop moves the entry one slot further. *)
Lemma move_up_swap q i j x b :
  (j <= i)%nat → q !! i = Some b → (S i < length q)%nat →
  move_up (<[i := x]> (<[S i := b]> q)) i j x = move_up q (S i) j x.
Proof.
  intros Hj Hi Hlt. rewrite move_up_insert by done. unfold move_up.
  rewrite !take_insert_ge by lia.
  rewrite (take_S_r q i b) by done.
  rewrite drop_app_le by (rewrite length_take; lia).
  rewrite <- (assoc_L (++)). cbn [app].
  rewrite drop_insert_ge by lia. rewrite Nat.sub_diag.
  assert (is_Some (q !! S i)) as [y Hy] by (by apply lookup_lt_is_Some).
  by rewrite (drop_S q y (S i)) by done.
Qed.

Lemma lookup_slots_up ks (ent : gmap string (Z * pyval)) k :
  NoDup ks →
  slots_up ks ent !! k
  = if decide (k ∈ ks) then (λ e, (fst e + 1, snd e)) <$> ent !! k else ent !! k.
Proof.
  unfold slots_up. induction ks as [| k0 ks IH]; intros Hnd.
  - cbn [foldr]. case_decide as Hin; [by apply elem_of_nil in Hin | done].
  - apply NoDup_cons in Hnd as [Hk0 Hnd]. cbn [foldr].
    destruct (decide (k = k0)) as [-> |].
    + rewrite lookup_alter_eq, IH by done.
      rewrite (decide_False _ _ Hk0).
      by rewrite decide_True by apply list_elem_of_here.
    + rewrite lookup_alter_ne, IH by done.
      rewrite (decide_ext (k ∈ k0 :: ks) (k ∈ ks)); [done |].
      rewrite elem_of_cons. tauto.
Qed.

Section Promotion.

Variable me : tid.
Variables (lim : option Z) (h mi : Z).

Lemma promote_run lk k n : ∀ (i : nat) ent q,
  q !! i = Some (k, n) →
  (∀ (p : nat) kp np, (p < i)%nat → q !! p = Some (kp, np) →
     ∃ v, ent !! kp = Some (Z.of_nat p, v)) →
  promote i (Z.of_nat i) (Z.of_nat i - 1) (mkLFUCache lim ent q h mi lk)
  = (mkLFUCache lim (slots_up (drop (climb n q i) (take i q)).*1 ent)
       (move_up q i (climb n q i) (k, n)) h mi lk,
     Ret (Z.of_nat (climb n q i))).
Proof.
  induction i as [| i IH]; intros ent q Hi Hleft.
  - cbn [promote climb]. rewrite move_up_here by done. done.
  - pose proof (lookup_lt_Some _ _ _ Hi) as Hlt.
    assert (is_Some (q !! i)) as [[kb nb] Hb] by (apply lookup_lt_is_Some; lia).
    destruct (Hleft i kb nb) as [vb Hvb]; [lia | done |].
    cbn [promote climb]. rewrite Hb. cbn [snd].
    assert ((Z.of_nat (S i) >? 0) = true) as -> by lia.
    replace (Z.of_nat (S i) - 1) with (Z.of_nat i) by lia.
    erewrite bind_Ret by (by apply queue_getitem_run).
    erewrite bind_Ret by (by apply queue_getitem_run).
    cbn [snd]. destruct (n >? nb) eqn:Hgt.
    + erewrite bind_Ret by (by apply queue_getitem_run). cbn [fst snd].
      erewrite bind_Ret by (by apply entries_getitem_run). cbn [snd].
      erewrite bind_Ret by reflexivity.
      unfold set_entries. fields.
      erewrite bind_Ret by (by apply queue_getitem_run).
      erewrite bind_Ret by (by apply queue_getitem_run).
      erewrite bind_Ret by (by apply queue_setitem_run).
      erewrite bind_Ret by (apply queue_setitem_run; rewrite length_insert; lia).
      rewrite IH.
      * assert (climb n (<[i:=(k, n)]> (<[S i:=(kb, nb)]> q)) i = climb n q i) as ->.
        { apply climb_ext. intros p Hp. by rewrite !list_lookup_insert_ne by lia. }
        pose proof (climb_le n q i) as Hle.
        rewrite move_up_swap by (done || lia).
        rewrite !take_insert_ge by lia.
        rewrite (take_S_r q i (kb, nb)) by done.
        rewrite drop_app_le by (rewrite length_take; lia).
        rewrite fmap_app. unfold slots_up. rewrite foldr_app. cbn [fmap list_fmap foldr fst].
        do 4 f_equal. apply map_eq. intros k'.
        destruct (decide (kb = k')) as [<- |].
        -- rewrite lookup_insert_eq, lookup_alter_eq, Hvb. done.
        -- by rewrite lookup_insert_ne, lookup_alter_ne.
      * rewrite list_lookup_insert_eq; [done |]. rewrite length_insert. lia.
      * intros p kp np Hp Hq. rewrite !list_lookup_insert_ne in Hq by lia.
        destruct (Hleft p kp np) as [v Hv]; [lia | done |].
        exists v. rewrite lookup_insert_ne; [done |].
        intros ->. rewrite Hvb in Hv. injection Hv as ?%Nat2Z.inj _. lia.
    + rewrite move_up_here by done.
      rewrite drop_ge by (rewrite length_take; lia). done.
Qed.

Lemma _increment_access_count_run ent q lk (i : nat) k n v :
  consistent ent q → holdable me lk →
  q !! i = Some (k, n) → ent !! k = Some (Z.of_nat i, v) →
  _increment_access_count me k (mkLFUCache lim ent q h mi lk)
  = (mkLFUCache lim
       (<[k := (Z.of_nat (climb (n + 1) q i), v)]>
          (slots_up (drop (climb (n + 1) q i) (take i q)).*1 ent))
       (move_up q i (climb (n + 1) q i) (k, n + 1)) h mi lk,
     Ret tt).
Proof.
  intros Hc (lk' & Ha & Hh & Hr)%holdable_acquire Hi Hk.
  pose proof (lookup_lt_Some _ _ _ Hi) as Hlt.
  pose proof (climb_le (n + 1) q i) as Hle.
  unfold _increment_access_count. eapply with_lock_run; [done.. |].
  erewrite bind_Ret by (by apply entries_getitem_run). cbn [fst].
  erewrite bind_Ret by (by apply queue_getitem_run). cbn [fst snd].
  erewrite bind_Ret by (by apply queue_setitem_run).
  rewrite Nat2Z.id.
  erewrite bind_Ret; cycle 1.
  { apply promote_run.
    - by apply list_lookup_insert_eq.
    - intros p kp np Hp Hq. rewrite list_lookup_insert_ne in Hq by lia.
      destruct Hc as [H1 _]. by eapply H1. }
  assert (climb (n + 1) (<[i:=(k, n + 1)]> q) i = climb (n + 1) q i) as ->.
  { apply climb_ext. intros p Hp. by rewrite list_lookup_insert_ne by lia. }
  rewrite move_up_insert, take_insert_ge by lia.
  assert (slots_up (drop (climb (n + 1) q i) (take i q)).*1 ent !! k = Some (Z.of_nat i, v)) as Hk'.
  { rewrite lookup_slots_up.
    - rewrite decide_False; [done |]. intros Hin.
      apply list_elem_of_fmap in Hin as [[k2 n2] [Heq Hin]]. simpl in Heq. subst k2.
      apply list_elem_of_lookup in Hin as [t Ht].
      rewrite lookup_drop in Ht. apply lookup_take_Some in Ht as [Ht Hti].
      assert ((climb (n + 1) q i + t)%nat = i) by (by eapply consistent_inj). lia.
    - rewrite fmap_drop, fmap_take.
      eapply sublist_NoDup; [| apply sublist_drop].
      eapply sublist_NoDup; [| apply sublist_take].
      by eapply consistent_NoDup. }
  erewrite bind_Ret by (by apply entries_getitem_run). done.
Qed.

End Promotion.

(** ** The invariants across a promotion *)

Lemma elem_of_passed (q : list (string * Z)) (i j : nat) k :
  k ∈ (drop j (take i q)).*1 ↔ ∃ (p : nat) n, (j <= p < i)%nat ∧ q !! p = Some (k, n).
Proof.
  split.
  - intros Hin. apply list_elem_of_fmap in Hin as [[k2 n2] [Heq Hin]].
    simpl in Heq. subst k2. apply list_elem_of_lookup in Hin as [t Ht].
    rewrite lookup_drop in Ht. apply lookup_take_Some in Ht as [Ht Hlt].
    exists (j + t)%nat, n2. split; [lia | done].
  - intros (p & n & Hp & Hq). apply list_elem_of_fmap. exists (k, n). split; [done |].
    apply list_elem_of_lookup. exists (p - j)%nat.
    rewrite lookup_drop, lookup_take_lt by lia.
    by replace (j + (p - j))%nat with p by lia.
Qed.

Lemma NoDup_passed ent q (i j : nat) :
  consistent ent q → NoDup (drop j (take i q)).*1.
Proof.
  intros Hc. rewrite fmap_drop, fmap_take.
  eapply sublist_NoDup; [| apply sublist_drop].
  eapply sublist_NoDup; [| apply sublist_take].
  by eapply consistent_NoDup.
Qed.

Lemma consistent_promote ent q (i j : nat) k n n' v v' :
  consistent ent q → q !! i = Some (k, n) → ent !! k = Some (Z.of_nat i, v) →
  (j <= i)%nat →
  consistent (<[k := (Z.of_nat j, v')]> (slots_up (drop j (take i q)).*1 ent))
    (move_up q i j (k, n')).
Proof.
  intros Hc Hi Hk Hj.
  pose proof (lookup_lt_Some _ _ _ Hi) as Hlt.
  pose proof (NoDup_passed ent q i j Hc) as Hnd.
  split.
  - intros p k' m Hp. rewrite move_up_lookup in Hp by lia.
    destruct (decide (k' = k)) as [-> | Hne].
    { rewrite lookup_insert_eq. exists v'. do 2 f_equal.
      repeat case_decide; try (simplify_eq; lia);
        assert (H' := consistent_inj _ _ _ _ _ _ _ Hc Hi Hp); lia. }
    rewrite lookup_insert_ne by done.
    pose proof Hc as [H1 H2].
    repeat case_decide; simplify_eq; rewrite lookup_slots_up by done.
    + destruct (H1 _ _ _ Hp) as [w Hw]. exists w.
      rewrite decide_False; [done |].
      intros (p' & m' & Hp' & Hq)%elem_of_passed.
      assert (p' = p) by (by eapply consistent_inj). lia.
    + destruct (H1 _ _ _ Hp) as [w Hw]. exists w.
      rewrite decide_True by (apply elem_of_passed; exists (p - 1)%nat, m; split; [lia | done]).
      rewrite Hw. simpl. do 2 f_equal. lia.
    + destruct (H1 _ _ _ Hp) as [w Hw]. exists w.
      rewrite decide_False; [done |].
      intros (p' & m' & Hp' & Hq)%elem_of_passed.
      assert (p' = p) by (by eapply consistent_inj). lia.
  - intros k' x w Hk'.
    destruct (decide (k' = k)) as [-> | Hne].
    { rewrite lookup_insert_eq in Hk'. injection Hk' as <- <-.
      split; [lia |]. exists n'. rewrite Nat2Z.id, move_up_lookup by lia.
      rewrite decide_False by lia. by rewrite decide_True. }
    rewrite lookup_insert_ne, lookup_slots_up in Hk' by done.
    case_decide as Hin.
    + destruct (ent !! k') as [[x0 w0] |] eqn:He; [| done].
      simpl in Hk'. injection Hk' as <- <-.
      apply elem_of_passed in Hin as (p & m & Hp & Hq).
      destruct Hc as [H1 H2]. destruct (H1 _ _ _ Hq) as [w' Hw'].
      rewrite He in Hw'. injection Hw' as -> ->.
      split; [lia |]. exists m. rewrite move_up_lookup by lia.
      replace (Z.to_nat (Z.of_nat p + 1)) with (S p) by lia.
      rewrite decide_False by lia. rewrite decide_False by lia.
      rewrite decide_True by lia. by replace (S p - 1)%nat with p by lia.
    + destruct (consistent_slot _ _ _ _ _ Hc Hk') as (p & m & -> & Hp).
      split; [lia |]. exists m. rewrite Nat2Z.id, move_up_lookup by lia.
      assert (p ≠ i) by (intros ->; rewrite Hi in Hp; congruence).
      assert (¬ (j <= p < i)%nat).
      { intros Hr. apply Hin, elem_of_passed. by exists p, m. }
      repeat case_decide; try lia; done.
Qed.

Lemma sorted_le q (p p' : nat) a b :
  sorted q → (p <= p')%nat → q !! p = Some a → q !! p' = Some b → snd b <= snd a.
Proof.
  intros Hs Hle. revert b. induction Hle as [| p' Hle IH]; intros b Ha Hb.
  - rewrite Ha in Hb. injection Hb as <-. lia.
  - assert (is_Some (q !! p')) as [c Hc].
    { apply lookup_lt_is_Some. apply lookup_lt_Some in Hb. lia. }
    specialize (IH c Ha Hc). specialize (Hs p' c b Hc Hb). lia.
Qed.

Lemma sorted_promote q (i : nat) k n :
  sorted q → q !! i = Some (k, n) →
  sorted (move_up q i (climb (n + 1) q i) (k, n + 1)).
Proof.
  intros Hs Hi.
  pose proof (lookup_lt_Some _ _ _ Hi) as Hlt.
  pose proof (climb_le (n + 1) q i) as Hle.
  intros p a b Ha Hb. rewrite move_up_lookup in Ha, Hb by lia.
  repeat case_decide; simplify_eq; try lia; cbn [snd].
  - by eapply Hs.
  - eapply (climb_stop (n + 1) q i p a); [lia | done..].
  - replace (S (climb (n + 1) q i) - 1)%nat with (climb (n + 1) q i) in Hb by lia.
    assert (climb (n + 1) q i <= climb (n + 1) q i < i)%nat as Hr by lia.
    pose proof (climb_passed (n + 1) q i _ b Hr Hb). lia.
  - replace (S p - 1)%nat with (S (p - 1)) in Hb by lia. by eapply Hs.
  - assert (climb (n + 1) q i = i) as Heq by lia. rewrite Heq in *.
    specialize (Hs i _ _ Hi Hb). simpl in Hs. lia.
  - eapply (sorted_le q (p - 1) (S p)); [done | lia | done..].
  - by eapply Hs.
Qed.

Lemma positive_promote q (i j : nat) k n :
  positive q → q !! i = Some (k, n) → (j <= i)%nat →
  positive (move_up q i j (k, n + 1)).
Proof.
  intros Hpos Hi Hj a Ha.
  pose proof (lookup_lt_Some _ _ _ Hi) as Hlt.
  apply list_elem_of_lookup in Ha as [p Hp].
  rewrite move_up_lookup in Hp by lia.
  assert (1 <= n) by (apply (Hpos (k, n)), list_elem_of_lookup; by exists i).
  repeat case_decide; simplify_eq; cbn [snd]; try lia;
    apply Hpos, list_elem_of_lookup; by eexists.
Qed.

(** ** The public methods, run on a consistent object *)

Section Facade.

Variable me : tid.
Variables (h mi : Z).

Lemma add_limit_zero ent q lk k v update :
  holdable me lk →
  add me k v update (mkLFUCache (Some 0) ent q h mi lk)
  = (mkLFUCache (Some 0) ent q h mi lk, Ret false).
Proof.
  intros (lk' & Ha & Hh & Hr)%holdable_acquire.
  unfold add. eapply with_lock_run; [done.. |].
  erewrite bind_Ret by reflexivity. cbn [_limit].
  by rewrite bool_decide_eq_true_2.
Qed.

Lemma add_present_keep lim ent q lk k v :
  holdable me lk → lim ≠ Some 0 → is_Some (ent !! k) →
  add me k v false (mkLFUCache lim ent q h mi lk)
  = (mkLFUCache lim ent q h mi lk, Ret false).
Proof.
  intros (lk' & Ha & Hh & Hr)%holdable_acquire Hlim Hk.
  unfold add. eapply with_lock_run; [done.. |].
  erewrite bind_Ret by reflexivity. cbn [_limit].
  rewrite bool_decide_eq_false_2 by done.
  erewrite bind_Ret by (by apply has_cache_run).
  by rewrite bool_decide_eq_true_2.
Qed.

Lemma add_present_update lim ent q lk (i : nat) k n v0 v :
  consistent ent q → holdable me lk → lim ≠ Some 0 →
  q !! i = Some (k, n) → ent !! k = Some (Z.of_nat i, v0) →
  add me k v true (mkLFUCache lim ent q h mi lk)
  = (mkLFUCache lim
       (<[k := (Z.of_nat (climb (n + 1) q i), v)]>
          (slots_up (drop (climb (n + 1) q i) (take i q)).*1 ent))
       (move_up q i (climb (n + 1) q i) (k, n + 1)) h (mi + 1) lk,
     Ret true).
Proof.
  intros Hc Hlk Hlim Hi Hk.
  destruct (holdable_acquire _ _ Hlk) as (lk' & Ha & Hh & Hr).
  unfold add. eapply with_lock_run; [done.. |].
  erewrite bind_Ret by reflexivity. cbn [_limit].
  rewrite bool_decide_eq_false_2 by done.
  erewrite bind_Ret by (by apply has_cache_run).
  rewrite bool_decide_eq_true_2 by (by eexists). cbn [negb].
  erewrite bind_Ret by (by eapply _increment_access_count_run).
  erewrite bind_Ret by (apply entries_getitem_run, lookup_insert_eq). cbn [fst].
  erewrite bind_Ret by reflexivity.
  erewrite bind_Ret by reflexivity.
  unfold ret, set_misses, set_entries.
  fields.
  by rewrite insert_insert_eq.
Qed.

Lemma add_new lim ent q lk k v update :
  holdable me lk → ent !! k = None →
  (∀ l, lim = Some l → Z.of_nat (length q) < l) →
  add me k v update (mkLFUCache lim ent q h mi lk)
  = (mkLFUCache lim (<[k := (Z.of_nat (length q), v)]> ent) (q ++ [(k, 1)])
       h (mi + 1) lk,
     Ret true).
Proof.
  intros (lk' & Ha & Hh & Hr)%holdable_acquire Hk Hlim.
  unfold add. eapply with_lock_run; [done.. |].
  erewrite bind_Ret by reflexivity. cbn [_limit].
  rewrite bool_decide_eq_false_2
    by (intros ->; specialize (Hlim 0 eq_refl); lia).
  erewrite bind_Ret by (by apply has_cache_run).
  rewrite Hk, bool_decide_eq_false_2 by (by intros [? ?]). cbn [negb].
  erewrite bind_Ret by reflexivity. cbn [_priority_queue].
  erewrite (bind_Ret _ _ _ _ (Z.of_nat (length q))); cycle 1.
  { destruct lim as [l |]; [| reflexivity].
    specialize (Hlim l eq_refl).
    by assert ((Z.of_nat (length q) >=? l) = false) as -> by lia. }
  reflexivity.
Qed.

Lemma add_evict ent q lk (l : nat) k v update kl nl :
  consistent ent q → holdable me lk → ent !! k = None →
  (l < length q)%nat → q !! l = Some (kl, nl) →
  add me k v update (mkLFUCache (Some (Z.of_nat (S l))) ent q h mi lk)
  = (mkLFUCache (Some (Z.of_nat (S l)))
       (<[k := (Z.of_nat (length q) - 1, v)]> (slots_down (Z.of_nat l) (delete kl ent)))
       (delete l q ++ [(k, 1)]) h (mi + 1) lk,
     Ret true).
Proof.
  intros Hc Hlk Hk Hlen Hl.
  destruct (holdable_acquire _ _ Hlk) as (lk' & Ha & Hh & Hr).
  unfold add. eapply with_lock_run; [done.. |].
  erewrite bind_Ret by reflexivity. cbn [_limit].
  rewrite bool_decide_eq_false_2 by (intros [=]; lia).
  erewrite bind_Ret by (by apply has_cache_run).
  rewrite Hk, bool_decide_eq_false_2 by (by intros [? ?]). cbn [negb].
  erewrite bind_Ret by reflexivity. cbn [_priority_queue].
  assert ((Z.of_nat (length q) >=? Z.of_nat (S l)) = true) as -> by lia.
  replace (Z.of_nat (S l) - 1) with (Z.of_nat l) by lia.
  erewrite (bind_Ret _ _ _ _ (Z.of_nat (length q) - 1)); cycle 1.
  { by erewrite bind_Ret by (by eapply _remove_by_id_run). }
  reflexivity.
Qed.

Lemma get_absent lim ent q lk k default :
  holdable me lk → ent !! k = None →
  get me k default (mkLFUCache lim ent q h mi lk)
  = (mkLFUCache lim ent q h mi lk, Ret default).
Proof.
  intros (lk' & Ha & Hh & Hr)%holdable_acquire Hk.
  unfold get. eapply with_lock_run; [done.. |].
  erewrite bind_Ret by (by apply has_cache_run).
  by rewrite Hk, bool_decide_eq_false_2 by (by intros [? ?]).
Qed.

Lemma get_present lim ent q lk (i : nat) k n v default :
  consistent ent q → holdable me lk →
  q !! i = Some (k, n) → ent !! k = Some (Z.of_nat i, v) →
  get me k default (mkLFUCache lim ent q h mi lk)
  = (mkLFUCache lim
       (<[k := (Z.of_nat (climb (n + 1) q i), v)]>
          (slots_up (drop (climb (n + 1) q i) (take i q)).*1 ent))
       (move_up q i (climb (n + 1) q i) (k, n + 1)) (h + 1) mi lk,
     Ret v).
Proof.
  intros Hc Hlk Hi Hk.
  destruct (holdable_acquire _ _ Hlk) as (lk' & Ha & Hh & Hr).
  unfold get. eapply with_lock_run; [done.. |].
  erewrite bind_Ret by (by apply has_cache_run).
  rewrite bool_decide_eq_true_2 by (by eexists). cbn [negb].
  erewrite bind_Ret by reflexivity.
  unfold set_hits. fields.
  erewrite bind_Ret by (by eapply _increment_access_count_run).
  by erewrite bind_Ret by (apply entries_getitem_run, lookup_insert_eq).
Qed.

Lemma clear_run lim ent q lk :
  holdable me lk →
  clear me (mkLFUCache lim ent q h mi lk) = (mkLFUCache lim ∅ [] h mi lk, Ret tt).
Proof.
  intros (lk' & Ha & Hh & Hr)%holdable_acquire.
  unfold clear. by eapply with_lock_run.
Qed.

End Facade.

(** ** The limit setter and [retrieve] *)

Lemma lookup_without ks (ent : gmap string (Z * pyval)) k :
  without ks ent !! k = if decide (k ∈ ks) then None else ent !! k.
Proof.
  unfold without. induction ks as [| k0 ks IH].
  - cbn [foldr]. case_decide as Hin; [by apply elem_of_nil in Hin | done].
  - cbn [foldr]. destruct (decide (k = k0)) as [-> |].
    + rewrite lookup_delete_eq. by rewrite decide_True by apply list_elem_of_here.
    + rewrite lookup_delete_ne, IH by done.
      rewrite (decide_ext (k ∈ k0 :: ks) (k ∈ ks)); [done |].
      rewrite elem_of_cons. tauto.
Qed.

Section Resize.

Variable me : tid.
Variables (h mi : Z).

Lemma drop_excessive_run lim lk : ∀ (t : nat) ent q,
  (t <= length q)%nat → NoDup q.*1 → (∀ k, k ∈ q.*1 → is_Some (ent !! k)) →
  drop_excessive t (mkLFUCache lim ent q h mi lk)
  = (mkLFUCache lim (without (drop (length q - t) q).*1 ent)
       (take (length q - t) q) h mi lk,
     Ret tt).
Proof.
  induction t as [| t IH]; intros ent q Ht Hnd Hin.
  - cbn [drop_excessive]. rewrite Nat.sub_0_r, drop_all, firstn_all. done.
  - destruct (last q) as [x |] eqn:Hlast; cycle 1.
    { apply last_None in Hlast. subst q. simpl in Ht. lia. }
    apply last_Some in Hlast as [q' ->].
    rewrite fmap_app in Hnd, Hin. cbn [fmap list_fmap] in Hnd, Hin.
    apply NoDup_app in Hnd as (Hnd & Hx & _).
    rewrite length_app in *. cbn [length] in *.
    destruct (Hin x.1) as [e He]; [rewrite elem_of_app, list_elem_of_singleton; by right |].
    cbn [drop_excessive]. unfold queue_pop at 1.
    erewrite bind_Ret; cycle 1.
    { cbn [_priority_queue]. rewrite last_snoc, removelast_last. reflexivity. }
    unfold set_queue. fields.
    erewrite bind_Ret by (by eapply entries_delitem_run).
    rewrite IH; [| lia | done |].
    + replace (length q' + 1 - S t)%nat with (length q' - t)%nat by lia.
      rewrite drop_app_le, take_app_le by lia.
      rewrite fmap_app. unfold without. rewrite foldr_app. done.
    + intros k Hk. rewrite lookup_delete_ne.
      * apply Hin. rewrite elem_of_app. by left.
      * intros <-. apply (Hx x.1); [done | apply list_elem_of_here].
Qed.

Lemma limit_setter_int lim ent q lk (n : nat) :
  consistent ent q → holdable me lk →
  limit_setter me (PyInt (Z.of_nat n)) (mkLFUCache lim ent q h mi lk)
  = (mkLFUCache (Some (Z.of_nat n)) (without (drop n q).*1 ent) (take n q) h mi lk,
     Ret tt).
Proof.
  intros Hc (lk' & Ha & Hh & Hr)%holdable_acquire.
  unfold limit_setter. eapply with_lock_run; [done.. |].
  assert ((Z.of_nat n <? 0) = false) as -> by lia.
  erewrite bind_Ret by reflexivity. cbn [_priority_queue].
  erewrite bind_Ret; cycle 1.
  { apply drop_excessive_run; [lia | by eapply consistent_NoDup |].
    intros k Hin. apply list_elem_of_fmap in Hin as [[k' m] [-> Hin]].
    apply list_elem_of_lookup in Hin as [i Hi].
    destruct Hc as [H1 _]. destruct (H1 _ _ _ Hi) as [v Hv]. by eexists. }
  destruct (decide (n <= length q)%nat).
  - replace (length q - Z.to_nat (Z.of_nat (length q) - Z.of_nat n))%nat with n by lia.
    done.
  - replace (length q - Z.to_nat (Z.of_nat (length q) - Z.of_nat n))%nat
      with (length q) by lia.
    by rewrite drop_all, firstn_all, drop_ge, take_ge by lia.
Qed.

Lemma limit_setter_none lim ent q lk :
  holdable me lk →
  limit_setter me PyNone (mkLFUCache lim ent q h mi lk)
  = (mkLFUCache None ent q h mi lk, Ret tt).
Proof.
  intros (lk' & Ha & Hh & Hr)%holdable_acquire.
  unfold limit_setter. by eapply with_lock_run.
Qed.

(** The limits that the checks of the constructor and of the setter turn
    down: neither [None] nor an [int] that is [>= 0]. *)
Lemma limit_setter_invalid lim ent q lk v :
  holdable me lk → v ≠ PyNone → (∀ n, v = PyInt n → n < 0) →
  limit_setter me v (mkLFUCache lim ent q h mi lk)
  = (mkLFUCache lim ent q h mi lk, Raise LFUCacheException).
Proof.
  intros (lk' & Ha & Hh & Hr)%holdable_acquire Hnone Hint.
  unfold limit_setter. eapply with_lock_run; [done.. |].
  destruct v as [| n | s]; [done | | done].
  specialize (Hint n eq_refl).
  by assert ((n <? 0) = true) as -> by lia.
Qed.

End Resize.

Lemma comprehension_after {B} (f : string * Z → M B) items c :
  (∀ item c', after (f item) c' = c') → after (comprehension items f) c = c.
Proof.
  intros Hf. unfold after. revert c. induction items as [| item items IH]; intros c; [done |].
  cbn [comprehension]. unfold bind at 1.
  specialize (Hf item c). unfold after in Hf.
  destruct (f item c) as [c1 [b | e |]]; cbn [fst] in Hf; subst c1; [| done..].
  unfold bind at 1. specialize (IH c).
  by destruct (comprehension items f c) as [c1 [bs | e |]]; cbn [fst] in IH; subst c1.
Qed.

(** [retrieve] never changes the object, whatever it returns or raises. *)
Lemma retrieve_after start end_ c : after (retrieve start end_) c = c.
Proof.
  unfold retrieve, after, bind at 1, gets.
  apply comprehension_after. intros item c'.
  unfold after, bind, entries_getitem. by destruct (_cache_entries c' !! item.1).
Qed.

Lemma comprehension_entries lim ent q h mi lk items :
  (∀ item, item ∈ items → is_Some (ent !! item.1)) →
  comprehension items
    (λ item, e <- entries_getitem item.1 ;; ret (CacheEntry item.1 e.2 item.2))
    (mkLFUCache lim ent q h mi lk)
  = (mkLFUCache lim ent q h mi lk, Ret (entry_at ent <$> items)).
Proof.
  induction items as [| item items IH]; intros Hin; [done |].
  destruct (Hin item) as [e He]; [apply list_elem_of_here |].
  cbn [comprehension].
  erewrite bind_Ret; cycle 1.
  { by erewrite bind_Ret by (by apply entries_getitem_run). }
  erewrite bind_Ret by (apply IH; intros ? ?; by apply Hin, list_elem_of_further).
  unfold ret, entry_at. by rewrite fmap_cons, He.
Qed.

(** On a consistent object [retrieve] returns the slice of the priority
    sequence, each key with its stored value. *)
Lemma retrieve_run lim ent q h mi lk start end_ :
  consistent ent q →
  retrieve start end_ (mkLFUCache lim ent q h mi lk)
  = (mkLFUCache lim ent q h mi lk, Ret (entry_at ent <$> py_slice q start end_)).
Proof.
  intros [H1 _]. unfold retrieve.
  erewrite bind_Ret by reflexivity. fields.
  apply comprehension_entries. intros [k n] Hin.
  assert ((k, n) ∈ q) as Hq.
  { unfold py_slice in Hin.
    eapply elem_of_sublist; [| apply sublist_drop].
    eapply elem_of_sublist; [done | apply sublist_take]. }
  apply list_elem_of_lookup in Hq as [i Hi].
  destruct (H1 _ _ _ Hi) as [v Hv]. by eexists.
Qed.

(** ** The invariants across insertion, removal and truncation *)

Lemma consistent_append ent q k v n :
  consistent ent q → ent !! k = None →
  consistent (<[k := (Z.of_nat (length q), v)]> ent) (q ++ [(k, n)]).
Proof.
  intros Hc Hk. pose proof Hc as [H1 H2]. split.
  - intros p k' m Hp. destruct (decide (p < length q)%nat).
    + rewrite lookup_app_l in Hp by done. destruct (H1 _ _ _ Hp) as [w Hw].
      exists w. rewrite lookup_insert_ne; [done |]. intros <-. congruence.
    + rewrite lookup_app_r in Hp by lia.
      destruct (p - length q)%nat as [| t] eqn:Ht; [| by destruct t].
      injection Hp as <- <-. rewrite lookup_insert_eq. exists v. do 2 f_equal. lia.
  - intros k' j w Hk'. destruct (decide (k' = k)) as [-> |].
    + rewrite lookup_insert_eq in Hk'. injection Hk' as <- <-.
      split; [lia |]. exists n. rewrite Nat2Z.id. by apply list_lookup_middle.
    + rewrite lookup_insert_ne in Hk' by done.
      destruct (H2 _ _ _ Hk') as [Hj [m Hm]]. split; [done |]. exists m.
      rewrite lookup_app_l; [done |]. by eapply lookup_lt_Some.
Qed.

Lemma consistent_truncate ent q (n : nat) :
  consistent ent q → consistent (without (drop n q).*1 ent) (take n q).
Proof.
  intros Hc. pose proof Hc as [H1 H2]. split.
  - intros p k m Hp. apply lookup_take_Some in Hp as [Hp Hlt].
    destruct (H1 _ _ _ Hp) as [w Hw]. exists w.
    rewrite lookup_without, decide_False; [done |].
    intros Hin. apply list_elem_of_fmap in Hin as [[k' m'] [Heq Hin]]. simpl in Heq. subst k'.
    apply list_elem_of_lookup in Hin as [t Ht]. rewrite lookup_drop in Ht.
    assert ((n + t)%nat = p) by (by eapply consistent_inj). lia.
  - intros k j w Hk. rewrite lookup_without in Hk. case_decide as Hin; [done |].
    destruct (consistent_slot _ _ _ _ _ Hc Hk) as (p & m & -> & Hp).
    split; [lia |]. exists m. rewrite Nat2Z.id.
    rewrite lookup_take_lt; [done |].
    destruct (decide (p < n)%nat); [done |]. exfalso. apply Hin.
    apply list_elem_of_fmap. exists (k, m). split; [done |].
    apply list_elem_of_lookup. exists (p - n)%nat. rewrite lookup_drop.
    by replace (n + (p - n))%nat with p by lia.
Qed.

Lemma sorted_delete q i : sorted q → sorted (delete i q).
Proof.
  intros Hs p a b Ha Hb. rewrite list_lookup_delete in Ha, Hb.
  eapply (sorted_le q); [done | | done..].
  repeat case_decide; lia.
Qed.

Lemma sorted_take q n : sorted q → sorted (take n q).
Proof.
  intros Hs p a b [Ha _]%lookup_take_Some [Hb _]%lookup_take_Some. by eapply Hs.
Qed.

Lemma sorted_append q k : sorted q → positive q → sorted (q ++ [(k, 1)]).
Proof.
  intros Hs Hpos p a b Ha Hb.
  destruct (decide (S p < length q)%nat).
  - rewrite lookup_app_l in Ha, Hb by lia. by eapply Hs.
  - rewrite lookup_app_r in Hb by lia.
    destruct (S p - length q)%nat as [| t] eqn:Ht; [| by destruct t].
    injection Hb as <-. rewrite lookup_app_l in Ha by lia.
    apply (Hpos a), list_elem_of_lookup. by exists p.
Qed.

Lemma positive_delete q i : positive q → positive (delete i q).
Proof.
  intros Hpos a Ha. apply Hpos.
  eapply elem_of_sublist; [done |]. apply sublist_delete.
Qed.

Lemma positive_take q n : positive q → positive (take n q).
Proof.
  intros Hpos a Ha. apply Hpos.
  eapply elem_of_sublist; [done |]. apply sublist_take.
Qed.

Lemma positive_append q k : positive q → positive (q ++ [(k, 1)]).
Proof.
  intros Hpos a [Ha | ->%list_elem_of_singleton]%elem_of_app; [by apply Hpos | done].
Qed.

(** ** Every public call keeps the invariants *)

Lemma holdable_unlocked me : holdable me Unlocked.
Proof. by left. Qed.

Lemma slots_down_absent i (ent : gmap string (Z * pyval)) k k' :
  ent !! k = None → slots_down i (delete k' ent) !! k = None.
Proof.
  intros Hk. unfold slots_down. rewrite lookup_fmap.
  destruct (decide (k = k')) as [-> |].
  - by rewrite lookup_delete_eq.
  - by rewrite lookup_delete_ne, Hk.
Qed.

Lemma wf_add me k v update c : wf c → wf (after (add me k v update) c).
Proof.
  intros [Hc Hs Hpos Hlim Hlk]. destruct c as [lim ent q h mi lk].
  fields in *. subst lk.
  pose proof (holdable_unlocked me) as Hh. unfold after.
  destruct (decide (lim = Some 0)) as [-> | Hz].
  { by rewrite add_limit_zero. }
  destruct (ent !! k) as [[j v0] |] eqn:Hk.
  - destruct update.
    + destruct (consistent_slot _ _ _ _ _ Hc Hk) as (i & n & -> & Hi).
      pose proof (lookup_lt_Some _ _ _ Hi) as Hlt.
      pose proof (climb_le (n + 1) q i) as Hle.
      erewrite add_present_update by done. cbn [fst].
      split; fields.
      * by eapply consistent_promote.
      * by apply sorted_promote.
      * by apply positive_promote.
      * intros l Hl. rewrite move_up_length by lia. by apply Hlim.
      * done.
    + rewrite add_present_keep by (done || by eexists). done.
  - assert ((∀ l, lim = Some l → Z.of_nat (length q) < l) →
            wf (add me k v update (mkLFUCache lim ent q h mi Unlocked)).1) as Hnew.
    { intros Hroom. rewrite add_new by done. cbn [fst].
      split; fields.
      - by apply consistent_append.
      - by apply sorted_append.
      - by apply positive_append.
      - intros l Hl. specialize (Hroom l Hl). destruct (Hlim l Hl).
        rewrite length_app. cbn [length]. lia.
      - done. }
    destruct lim as [l |]; [| by apply Hnew].
    destruct (decide (Z.of_nat (length q) < l)); [by apply Hnew; intros ? [= <-] |].
    destruct (Hlim l eq_refl) as [Hl0 Hlen].
    assert (l = Z.of_nat (length q)) as -> by lia.
    destruct (length q) as [| l'] eqn:Hq; [done |].
    assert (is_Some (q !! l')) as [[kl nl] Hl'] by (apply lookup_lt_is_Some; lia).
    rewrite <- Hq. rewrite Hq at 1.
    erewrite add_evict; [| done.. | lia | done]. cbn [fst].
    assert (length (delete l' q) = l') as Hdel
      by (rewrite length_delete by (by eexists); lia).
    split; fields.
    + replace (Z.of_nat (length q) - 1) with (Z.of_nat (length (delete l' q))) by lia.
      apply consistent_append; [by eapply consistent_delete |].
      by apply slots_down_absent.
    + apply sorted_append; [by apply sorted_delete | by apply positive_delete].
    + by apply positive_append, positive_delete.
    + intros l [= <-]. rewrite length_app, Hdel. cbn [length]. lia.
    + done.
Qed.

Lemma wf_get me k default c : wf c → wf (after (get me k default) c).
Proof.
  intros [Hc Hs Hpos Hlim Hlk]. destruct c as [lim ent q h mi lk].
  fields in *. subst lk.
  pose proof (holdable_unlocked me) as Hh. unfold after.
  destruct (ent !! k) as [[j v0] |] eqn:Hk.
  - destruct (consistent_slot _ _ _ _ _ Hc Hk) as (i & n & -> & Hi).
    pose proof (lookup_lt_Some _ _ _ Hi) as Hlt.
    pose proof (climb_le (n + 1) q i) as Hle.
    erewrite get_present by done. cbn [fst].
    split; fields.
    + by eapply consistent_promote.
    + by apply sorted_promote.
    + by apply positive_promote.
    + intros l Hl. rewrite move_up_length by lia. by apply Hlim.
    + done.
  - by rewrite get_absent.
Qed.

Lemma wf_remove me k c : wf c → wf (after (remove me k) c).
Proof.
  intros [Hc Hs Hpos Hlim Hlk]. destruct c as [lim ent q h mi lk].
  fields in *. subst lk.
  pose proof (holdable_unlocked me) as Hh. unfold after.
  destruct (ent !! k) as [[j v0] |] eqn:Hk.
  - destruct (consistent_slot _ _ _ _ _ Hc Hk) as (i & n & -> & Hi).
    erewrite remove_run by done. cbn [fst].
    split; fields.
    + by eapply consistent_delete.
    + by apply sorted_delete.
    + by apply positive_delete.
    + intros l Hl. destruct (Hlim l Hl). split; [done |].
      rewrite length_delete by (by eexists). lia.
    + done.
  - by rewrite remove_absent.
Qed.

Lemma wf_clear me c : wf c → wf (after (clear me) c).
Proof.
  intros [Hc Hs Hpos Hlim Hlk]. destruct c as [lim ent q h mi lk].
  fields in *. subst lk.
  unfold after. rewrite clear_run by apply holdable_unlocked. cbn [fst].
  split; fields.
  - apply consistent_empty.
  - intros i a b Ha. by rewrite lookup_nil in Ha.
  - intros a Ha. by apply elem_of_nil in Ha.
  - intros l Hl. destruct (Hlim l Hl). cbn [length]. lia.
  - done.
Qed.

Lemma wf_limit_setter me v c : wf c → wf (after (limit_setter me v) c).
Proof.
  intros [Hc Hs Hpos Hlim Hlk]. destruct c as [lim ent q h mi lk].
  fields in *. subst lk.
  pose proof (holdable_unlocked me) as Hh. unfold after.
  assert (wf (mkLFUCache lim ent q h mi Unlocked)) as Hsame by (by split).
  destruct v as [| n | s].
  - rewrite limit_setter_none by done. by split.
  - destruct (decide (n < 0)).
    + rewrite limit_setter_invalid; [done.. |]. by intros ? [= <-].
    + rewrite <- (Z2Nat.id n) by lia. rewrite limit_setter_int by done. cbn [fst].
      split; fields.
      * by apply consistent_truncate.
      * by apply sorted_take.
      * by apply positive_take.
      * intros l [= <-]. rewrite length_take. lia.
      * done.
  - by rewrite limit_setter_invalid.
Qed.

Lemma wf_has_cache me k c : wf c → after (has_cache me k) c = c.
Proof.
  intros [_ _ _ _ Hlk]. destruct c as [lim ent q h mi lk].
  cbn [_lock] in Hlk. subst lk. unfold after.
  by rewrite has_cache_run by apply holdable_unlocked.
Qed.

Lemma wf_step c call : wf c → wf (step c call).
Proof.
  intros Hwf. destruct call as [me o]. unfold step. cbn [fst snd].
  destruct o.
  - by apply wf_add.
  - by apply wf_get.
  - by apply wf_remove.
  - by apply wf_clear.
  - by apply wf_limit_setter.
  - by rewrite wf_has_cache.
  - done.
  - by rewrite retrieve_after.
  - done.
  - done.
  - done.
Qed.

Lemma wf_run calls c : wf c → wf (run calls c).
Proof.
  unfold run. revert c. induction calls as [| call calls IH]; intros c Hwf; [done |].
  cbn [foldl]. by apply IH, wf_step.
Qed.

Lemma wf_init v c : __init__ v = inr c → wf c.
Proof.
  assert (∀ lim, within_limit lim [] → wf (mkLFUCache lim ∅ [] 0 0 Unlocked)) as Hnew.
  { intros lim Hlim. split; fields.
    - apply consistent_empty.
    - intros i a b Ha. by rewrite lookup_nil in Ha.
    - intros a Ha. by apply elem_of_nil in Ha.
    - done.
    - done. }
  unfold __init__. destruct v as [| n | s]; [| | done].
  - intros [= <-]. by apply Hnew.
  - destruct (n >=? 0) eqn:Hn; [| done]. intros [= <-]. apply Hnew.
    intros l [= <-]. cbn [length]. lia.
Qed.

Lemma reachable_wf c : reachable c → wf c.
Proof. intros (lim & c0 & calls & Hinit & ->). by eapply wf_run, wf_init. Qed.

(** ** Frame: the counters across the internal methods *)

Lemma set_lock_id c : set_lock (_lock c) c = c.
Proof. by destruct c. Qed.

Lemma set_lock_set_lock l l' c : set_lock l (set_lock l' c) = set_lock l c.
Proof. done. Qed.

Lemma bind_inv {A B} (m : M A) (k : A → M B) c c' b :
  bind m k c = (c', Ret b) → ∃ a c1, m c = (c1, Ret a) ∧ k a c1 = (c', Ret b).
Proof.
  unfold bind. destruct (m c) as [c1 [a | e |]]; [| done..]. intros H. by exists a, c1.
Qed.

Lemma with_lock_inv {A} me (m : M A) c c' b :
  with_lock me m c = (c', Ret b) →
  ∃ l c1, acquire me (_lock c) = Some l ∧ m (set_lock l c) = (c1, Ret b) ∧
          ∃ l', release me (_lock c1) = Some l' ∧ c' = set_lock l' c1.
Proof.
  unfold with_lock. destruct (acquire me (_lock c)) as [l |] eqn:Ha; [| done].
  destruct (m (set_lock l c)) as [c1 r] eqn:Hm.
  destruct (release me (_lock c1)) as [l' |] eqn:Hr; [| done].
  intros [= <- ->]. exists l, c1. split; [done |]. split; [done |]. by exists l'.
Qed.

Lemma with_lock_after_blocked {A} me (m : M A) c :
  acquire me (_lock c) = None → with_lock me m c = (c, Blocked).
Proof. intros H. unfold with_lock. by rewrite H. Qed.

Section Frame.

Variable me : tid.

Lemma keeps_bind {A B X} (f : LFUCache → X) (m : M A) (k : A → M B) :
  keeps f m → (∀ a, keeps f (k a)) → keeps f (bind m k).
Proof.
  intros Hm Hk c. unfold after, bind. specialize (Hm c). unfold after in Hm.
  destruct (m c) as [c1 [a | e |]]; cbn [fst] in *; [| done..].
  rewrite <- Hm. apply Hk.
Qed.

Lemma keeps_ret {A X} (f : LFUCache → X) (a : A) : keeps f (ret a).
Proof. done. Qed.

Lemma keeps_gets {A X} (f : LFUCache → X) (g : LFUCache → A) : keeps f (gets g).
Proof. done. Qed.

Lemma keeps_with_lock {A X} (f : LFUCache → X) (m : M A) :
  (∀ l c, f (set_lock l c) = f c) → keeps f m → keeps f (with_lock me m).
Proof.
  intros Hf Hm c. unfold after, with_lock.
  destruct (acquire me (_lock c)) as [l |]; [| done].
  specialize (Hm (set_lock l c)). unfold after in Hm.
  destruct (m (set_lock l c)) as [c1 r]. cbn [fst] in Hm.
  destruct (release me (_lock c1)) as [l' |]; cbn [fst].
  - by rewrite Hf, Hm, Hf.
  - by rewrite Hm, Hf.
Qed.

Lemma keeps_for_each {A X} (f : LFUCache → X) (l : list A) (body : A → M unit) :
  (∀ x, keeps f (body x)) → keeps f (for_each l body).
Proof.
  intros Hb. induction l as [| x l IH]; [done |].
  cbn [for_each]. by apply keeps_bind.
Qed.

Lemma counters_entries_getitem k : keeps counters (entries_getitem k).
Proof. intros c. unfold after, entries_getitem. by destruct (_cache_entries c !! k). Qed.

Lemma counters_entries_setitem k e : keeps counters (entries_setitem k e).
Proof. done. Qed.

Lemma counters_entries_delitem k : keeps counters (entries_delitem k).
Proof. intros c. unfold after, entries_delitem. by destruct (_cache_entries c !! k). Qed.

Lemma counters_queue_getitem i : keeps counters (queue_getitem i).
Proof. intros c. unfold after, queue_getitem. by destruct (_ ≫= _). Qed.

Lemma counters_queue_setitem i x : keeps counters (queue_setitem i x).
Proof. intros c. unfold after, queue_setitem. by destruct (py_index _ _). Qed.

Lemma counters_queue_delitem i : keeps counters (queue_delitem i).
Proof. intros c. unfold after, queue_delitem. by destruct (py_index _ _). Qed.

Lemma counters_set_lock l c : counters (set_lock l c) = counters c.
Proof. done. Qed.

Lemma counters_len : keeps counters __len__.
Proof. done. Qed.

Hint Resolve keeps_ret keeps_gets counters_entries_getitem counters_entries_setitem
  counters_entries_delitem counters_queue_getitem counters_queue_setitem
  counters_queue_delitem counters_set_lock counters_len : frame.

(** Walks down a method body: one obligation per statement, each closed
    by a lemma of the [frame] database. *)
Ltac frame :=
  repeat first
    [ progress intros
    | progress cbv zeta
    | apply keeps_with_lock
    | apply keeps_bind
    | apply keeps_for_each
    | match goal with |- keeps _ (if ?b then _ else _) => destruct b end
    | solve [auto with frame] ].

Lemma counters_shift_left item : keeps counters (shift_left item).
Proof. unfold shift_left. frame. Qed.

Lemma counters_has_cache k : keeps counters (has_cache me k).
Proof. unfold has_cache. frame. Qed.

Hint Resolve counters_shift_left counters_has_cache : frame.

Lemma counters_remove_by_id i : keeps counters (_remove_by_id me i).
Proof. unfold _remove_by_id. frame. Qed.

Lemma counters_promote fuel : ∀ i j, keeps counters (promote fuel i j).
Proof.
  induction fuel as [| fuel IH]; intros i j; [done |].
  cbn [promote]. frame.
Qed.

Hint Resolve counters_promote : frame.

Lemma counters_increment_access_count k : keeps counters (_increment_access_count me k).
Proof. unfold _increment_access_count. frame. Qed.

End Frame.

Lemma keeps_counters_eq {A} (m : M A) c c1 r :
  keeps counters m → m c = (c1, r) → _hits c1 = _hits c ∧ _misses c1 = _misses c.
Proof.
  intros Hm Hc. specialize (Hm c). unfold after in Hm. rewrite Hc in Hm.
  by injection Hm.
Qed.

Lemma has_cache_inv me k c c1 b :
  has_cache me k c = (c1, Ret b) →
  c1 = c ∧ b = bool_decide (is_Some (_cache_entries c !! k)).
Proof.
  intros (l & c2 & Ha & [= <- <-] & l' & Hr & ->)%with_lock_inv.
  cbn [_lock set_lock] in Hr.
  destruct (holdable_acquire me (_lock c)) as (l2 & Ha' & _ & Hr'); [by eapply acquire_Some |].
  rewrite Ha in Ha'. injection Ha' as <-. rewrite Hr in Hr'. injection Hr' as ->.
  by rewrite set_lock_set_lock, set_lock_id.
Qed.

Lemma bind_ext {A B} (m : M A) (k k' : A → M B) c :
  (∀ a c1, k a c1 = k' a c1) → bind m k c = bind m k' c.
Proof. intros H. unfold bind. destruct (m c) as [c1 [a | e |]]; [apply H | done..]. Qed.

(** The fuel of [promote] is enough: more of it changes nothing, the loop
    has stopped by then. *)
Lemma promote_fuel fuel : ∀ queue_id c,
  (Z.to_nat queue_id <= fuel)%nat →
  promote fuel queue_id (queue_id - 1) c
  = promote (Z.to_nat queue_id) queue_id (queue_id - 1) c.
Proof.
  induction fuel as [| fuel IH]; intros i c Hf.
  - by replace (Z.to_nat i) with O by lia.
  - destruct (Z.to_nat i) as [| t] eqn:Ht.
    + cbn [promote]. by assert ((i >? 0) = false) as -> by lia.
    + cbn [promote]. destruct (i >? 0); [| done].
      apply bind_ext. intros a c1. apply bind_ext. intros b c2.
      destruct (a.2 >? b.2); [| done].
      do 7 (apply bind_ext; intros ? ?).
      rewrite IH by lia. by replace (Z.to_nat (i - 1)) with t by lia.
Qed.

(** * The claims *)

Lemma acquire_release me l l' : acquire me l = Some l' → release me l' = Some l.
Proof.
  intros Ha. destruct (holdable_acquire me l) as (l2 & Ha' & _ & Hr); [by eapply acquire_Some |].
  rewrite Ha in Ha'. by injection Ha' as <-.
Qed.

Lemma generate_cache_reachable : reachable generate_cache.
Proof. exists (PyInt 5), fresh5. eexists. split; reflexivity. Qed.

Lemma generate_cache_consistent :
  consistent (_cache_entries generate_cache) (_priority_queue generate_cache).
Proof. apply wf_consistent, reachable_wf, generate_cache_reachable. Qed.

(** C1: from a freshly constructed cache, after any sequence of public
    calls (add, get, remove, clear, limit assignment, and the read-only
    ones), every two adjacent slots [i], [i+1] of the priority sequence
    satisfy [access_count[i] >= access_count[i+1]]. *)
Theorem sort_order_invariant lim c0 calls (i : nat) a b :
  __init__ lim = inr c0 →
  _priority_queue (run calls c0) !! i = Some a →
  _priority_queue (run calls c0) !! S i = Some b →
  snd a >= snd b.
Proof.
  intros Hinit Ha Hb.
  assert (wf (run calls c0)) as Hwf by (by eapply wf_run, wf_init).
  pose proof (wf_sorted _ Hwf i a b Ha Hb). lia.
Qed.

Lemma sort_order_invariant_witness :
  let calls := [(O, Add "a" (PyInt 1) false); (O, Add "b" (PyInt 2) false);
                (1%nat, Get "b" PyNone); (O, Add "c" PyNone true)] in
  __init__ (PyInt 2) = inr (mkLFUCache (Some 2) ∅ [] 0 0 Unlocked) ∧
  _priority_queue (run calls (mkLFUCache (Some 2) ∅ [] 0 0 Unlocked)) !! O = Some ("b", 2) ∧
  _priority_queue (run calls (mkLFUCache (Some 2) ∅ [] 0 0 Unlocked)) !! 1%nat = Some ("c", 1) ∧
  2 >= 1.
Proof.
  intros calls.
  assert (__init__ (PyInt 2) = inr (mkLFUCache (Some 2) ∅ [] 0 0 Unlocked)) as H0
    by reflexivity.
  assert (_priority_queue (run calls (mkLFUCache (Some 2) ∅ [] 0 0 Unlocked)) !! O
          = Some ("b", 2)) as H1 by (vm_compute; reflexivity).
  assert (_priority_queue (run calls (mkLFUCache (Some 2) ∅ [] 0 0 Unlocked)) !! 1%nat
          = Some ("c", 1)) as H2 by (vm_compute; reflexivity).
  split; [exact H0 |]. split; [exact H1 |]. split; [exact H2 |].
  exact (sort_order_invariant (PyInt 2) _ calls O ("b", 2) ("c", 1) H0 H1 H2).
Defined.

(** C2: from a freshly constructed cache, after any sequence of public
    calls, the key index and the priority sequence have the same size,
    the slot that the index gives for a key holds that key, and every
    slot is indexed by the key it holds and by no other key. *)
Theorem bijection_invariant lim c0 calls :
  __init__ lim = inr c0 →
  let c := run calls c0 in
  size (_cache_entries c) = length (_priority_queue c) ∧
  (∀ k j v, _cache_entries c !! k = Some (j, v) →
     0 <= j ∧ ∃ n, _priority_queue c !! Z.to_nat j = Some (k, n)) ∧
  (∀ (i : nat) k n, _priority_queue c !! i = Some (k, n) →
     (∃ v, _cache_entries c !! k = Some (Z.of_nat i, v)) ∧
     (∀ k' v', _cache_entries c !! k' = Some (Z.of_nat i, v') → k' = k)).
Proof.
  intros Hinit c.
  assert (wf c) as Hwf by (by eapply wf_run, wf_init).
  pose proof (wf_consistent _ Hwf) as Hc. pose proof Hc as [H1 H2].
  split; [by apply consistent_size |]. split; [done |].
  intros i k n Hi. split; [by eapply H1 |].
  intros k' v' Hk'. destruct (H2 _ _ _ Hk') as [_ [n' Hn']].
  rewrite Nat2Z.id, Hi in Hn'. by injection Hn'.
Qed.

Lemma bijection_invariant_witness :
  __init__ (PyInt 5) = inr fresh5 ∧
  let c := run [(O, Add "0" (PyStr "a") false); (O, Add "1" (PyStr "b") false);
                (O, Get "1" PyNone); (O, Remove "0")] fresh5 in
  size (_cache_entries c) = length (_priority_queue c) ∧
  (∀ k j v, _cache_entries c !! k = Some (j, v) →
     0 <= j ∧ ∃ n, _priority_queue c !! Z.to_nat j = Some (k, n)) ∧
  (∀ (i : nat) k n, _priority_queue c !! i = Some (k, n) →
     (∃ v, _cache_entries c !! k = Some (Z.of_nat i, v)) ∧
     (∀ k' v', _cache_entries c !! k' = Some (Z.of_nat i, v') → k' = k)).
Proof.
  split; [reflexivity |].
  apply (bijection_invariant (PyInt 5) fresh5). reflexivity.
Defined.

(** C5: from a freshly constructed cache, after any sequence of public
    calls, a finite limit bounds the size, [len() <= limit]; and with
    limit 0 every [add] returns [False] and inserts nothing. *)
Theorem capacity_invariant lim c0 calls :
  __init__ lim = inr c0 →
  let c := run calls c0 in
  (∀ l, _limit c = Some l →
     ∃ n, __len__ c = (c, Ret n) ∧ n <= l) ∧
  (_limit c = Some 0 →
     ∀ me k v update, add me k v update c = (c, Ret false)).
Proof.
  intros Hinit c.
  assert (wf c) as Hwf by (by eapply wf_run, wf_init).
  split.
  - intros l Hl. eexists. split; [reflexivity |].
    by apply (wf_limit _ Hwf).
  - intros Hl me k v update. pose proof (wf_lock _ Hwf) as Hlk.
    destruct c as [l ent q h mi lk]. cbn [_limit _lock] in *. subst l lk.
    apply add_limit_zero, holdable_unlocked.
Qed.

Lemma capacity_invariant_witness :
  __init__ (PyInt 5) = inr fresh5 ∧
  let c := run [(O, Add "0" (PyStr "a") false); (O, Add "1" (PyStr "b") false);
                (O, SetLimit (PyInt 0))] fresh5 in
  (∀ l, _limit c = Some l →
     ∃ n, __len__ c = (c, Ret n) ∧ n <= l) ∧
  (_limit c = Some 0 →
     ∀ me k v update, add me k v update c = (c, Ret false)).
Proof.
  split; [reflexivity |].
  apply (capacity_invariant (PyInt 5) fresh5). reflexivity.
Defined.

(** C7: a limit that is neither [None] nor an [int >= 0] makes the
    constructor raise [LFUCacheException], and makes the setter raise it
    with the object exactly as it was: entries, order, counters and the
    old limit. *)
Theorem invalid_limit_rejected v :
  v ≠ PyNone → (∀ n, v = PyInt n → n < 0) →
  __init__ v = inl LFUCacheException ∧
  ∀ me c,
    after (limit_setter me v) c = c ∧
    (holdable me (_lock c) → limit_setter me v c = (c, Raise LFUCacheException)).
Proof.
  intros Hnone Hint. split.
  - unfold __init__. destruct v as [| n | s]; [done | | done].
    specialize (Hint n eq_refl).
    by assert ((n >=? 0) = false) as -> by lia.
  - intros me c.
    assert (holdable me (_lock c) → limit_setter me v c = (c, Raise LFUCacheException))
      as Hraise.
    { intros Hh. destruct c as [lim ent q h mi lk]. by apply limit_setter_invalid. }
    split; [| done].
    destruct (acquire me (_lock c)) as [l |] eqn:Ha.
    + unfold after. rewrite Hraise; [done |]. by eapply acquire_Some.
    + unfold after, limit_setter. by rewrite with_lock_after_blocked.
Qed.

Lemma invalid_limit_rejected_witness :
  PyInt (-1) ≠ PyNone ∧ (∀ n, PyInt (-1) = PyInt n → n < 0) ∧
  __init__ (PyInt (-1)) = inl LFUCacheException ∧
  ∀ me c,
    after (limit_setter me (PyInt (-1))) c = c ∧
    (holdable me (_lock c) →
     limit_setter me (PyInt (-1)) c = (c, Raise LFUCacheException)).
Proof.
  assert (PyInt (-1) ≠ PyNone) as H1 by discriminate.
  assert (∀ n, PyInt (-1) = PyInt n → n < 0) as H2.
  { intros n Hn. injection Hn as <-. reflexivity. }
  split; [exact H1 |]. split; [exact H2 |].
  exact (invalid_limit_rejected (PyInt (-1)) H1 H2).
Defined.

(** C8: [get] on a key that is not stored returns the supplied default
    and leaves the whole object as it was: size, hits, misses, the
    priority sequence and the index. *)
Theorem get_absent_changes_nothing me c k default :
  _cache_entries c !! k = None →
  after (get me k default) c = c ∧
  (holdable me (_lock c) → get me k default c = (c, Ret default)).
Proof.
  intros Hk.
  assert (holdable me (_lock c) → get me k default c = (c, Ret default)) as Hret.
  { intros Hh. destruct c as [lim ent q h mi lk]. by apply get_absent. }
  split; [| done].
  destruct (acquire me (_lock c)) as [l |] eqn:Ha.
  - unfold after. rewrite Hret; [done |]. by eapply acquire_Some.
  - unfold after, get. by rewrite with_lock_after_blocked.
Qed.

Lemma get_absent_changes_nothing_witness :
  _cache_entries generate_cache !! "5" = None ∧
  after (get O "5" (PyStr "default")) generate_cache = generate_cache ∧
  (holdable O (_lock generate_cache) →
   get O "5" (PyStr "default") generate_cache = (generate_cache, Ret (PyStr "default"))).
Proof.
  assert (_cache_entries generate_cache !! "5" = None) as H1 by (vm_compute; reflexivity).
  split; [exact H1 |].
  exact (get_absent_changes_nothing O generate_cache "5" (PyStr "default") H1).
Defined.

Lemma slots_down_last ent q (l : nat) kl nl :
  consistent ent q → q !! l = Some (kl, nl) → length q = S l →
  slots_down (Z.of_nat l) (delete kl ent) = delete kl ent.
Proof.
  intros Hc Hl Hlen. apply map_eq. intros k. unfold slots_down. rewrite lookup_fmap.
  destruct (decide (k = kl)) as [-> |]; [by rewrite lookup_delete_eq |].
  rewrite lookup_delete_ne by done.
  destruct (ent !! k) as [[j w] |] eqn:Hk; [| done].
  destruct (consistent_slot _ _ _ _ _ Hc Hk) as (p & m & -> & Hp).
  apply lookup_lt_Some in Hp. simpl.
  by rewrite bool_decide_eq_false_2 by lia.
Qed.

(** C3: [add] of a new key to a cache whose size equals its finite,
    nonzero limit removes the entry at slot [limit - 1] from the sequence
    and from the index, puts the new key in that last slot with access
    count 1, keeps the size equal to the limit, and keeps the other
    entries in their order. *)
Theorem eviction_correct me c k v update (l : Z) :
  consistent (_cache_entries c) (_priority_queue c) →
  holdable me (_lock c) →
  _limit c = Some l → l ≠ 0 →
  Z.of_nat (length (_priority_queue c)) = l →
  _cache_entries c !! k = None →
  ∃ kl nl,
    _priority_queue c !! Z.to_nat (l - 1) = Some (kl, nl) ∧
    add me k v update c
    = (mkLFUCache (Some l)
         (<[k := (l - 1, v)]> (delete kl (_cache_entries c)))
         (take (Z.to_nat (l - 1)) (_priority_queue c) ++ [(k, 1)])
         (_hits c) (_misses c + 1) (_lock c),
       Ret true) ∧
    Z.of_nat (length (take (Z.to_nat (l - 1)) (_priority_queue c) ++ [(k, 1)])) = l.
Proof.
  destruct c as [lim ent q h mi lk]. fields.
  intros Hc Hh -> Hl0 Hlen Hk.
  destruct (length q) as [| l'] eqn:Hq; [lia |]. subst l.
  replace (Z.to_nat (Z.of_nat (S l') - 1)) with l' by lia.
  assert (is_Some (q !! l')) as [[kl nl] Hl'] by (apply lookup_lt_is_Some; lia).
  exists kl, nl. split; [done |]. split.
  - erewrite add_evict; [| done.. | lia | done].
    rewrite Hq. erewrite slots_down_last by done.
    by rewrite delete_take_drop, (drop_ge q (S l')), app_nil_r by lia.
  - rewrite length_app, length_take. cbn [length]. lia.
Qed.

Lemma eviction_correct_witness :
  consistent (_cache_entries generate_cache) (_priority_queue generate_cache) ∧
  holdable O (_lock generate_cache) ∧
  _limit generate_cache = Some 5 ∧ 5 ≠ 0 ∧
  Z.of_nat (length (_priority_queue generate_cache)) = 5 ∧
  _cache_entries generate_cache !! "over_limit_key" = None ∧
  ∃ kl nl,
    _priority_queue generate_cache !! Z.to_nat (5 - 1) = Some (kl, nl) ∧
    add O "over_limit_key" (PyStr "f") false generate_cache
    = (mkLFUCache (Some 5)
         (<["over_limit_key" := (5 - 1, PyStr "f")]> (delete kl (_cache_entries generate_cache)))
         (take (Z.to_nat (5 - 1)) (_priority_queue generate_cache) ++ [("over_limit_key", 1)])
         (_hits generate_cache) (_misses generate_cache + 1) (_lock generate_cache),
       Ret true) ∧
    Z.of_nat (length (take (Z.to_nat (5 - 1)) (_priority_queue generate_cache)
                        ++ [("over_limit_key", 1)])) = 5.
Proof.
  assert (holdable O (_lock generate_cache)) as H2 by (left; reflexivity).
  assert (_limit generate_cache = Some 5) as H3 by reflexivity.
  assert (5 ≠ 0) as H4 by lia.
  assert (Z.of_nat (length (_priority_queue generate_cache)) = 5) as H5
    by (vm_compute; reflexivity).
  assert (_cache_entries generate_cache !! "over_limit_key" = None) as H6
    by (vm_compute; reflexivity).
  split; [exact generate_cache_consistent |].
  split; [exact H2 |]. split; [exact H3 |]. split; [exact H4 |].
  split; [exact H5 |]. split; [exact H6 |].
  exact (eviction_correct O generate_cache "over_limit_key" (PyStr "f") false 5
           generate_cache_consistent H2 H3 H4 H5 H6).
Defined.

(** The limit test of the test suite: the queue after the eviction. *)
Example test_cache_limit :
  snd (retrieve None None (after (add O "over_limit_key" (PyStr "f") false) generate_cache))
  = Ret [CacheEntry "0" (PyStr "a") 1; CacheEntry "1" (PyStr "b") 1;
         CacheEntry "2" (PyStr "c") 1; CacheEntry "3" (PyStr "d") 1;
         CacheEntry "over_limit_key" (PyStr "f") 1].
Proof. vm_compute. reflexivity. Qed.

(** C4: after the access count of the entry at slot [i] went up (by
    [get], or by [add] with [update]), the entry sits at a slot [j <= i]:
    every entry it passed had a strictly lower count, and it stopped at
    slot 0 or below an entry whose count is equal or greater; the entries
    it passed keep their order, one slot further down. *)
Theorem promotion_correct me c k default (i : nat) n v :
  consistent (_cache_entries c) (_priority_queue c) →
  holdable me (_lock c) →
  _priority_queue c !! i = Some (k, n) →
  _cache_entries c !! k = Some (Z.of_nat i, v) →
  let q := _priority_queue c in
  ∃ j : nat,
    (j <= i)%nat ∧
    (∀ (p : nat) b, (j <= p < i)%nat → q !! p = Some b → snd b < n + 1) ∧
    (j = O ∨ ∃ b, q !! (j - 1)%nat = Some b ∧ n + 1 <= snd b) ∧
    let q' := take j q ++ (k, n + 1) :: drop j (take i q) ++ drop (S i) q in
    (∃ c', get me k default c = (c', Ret v) ∧
           _priority_queue c' = q' ∧ _hits c' = _hits c + 1) ∧
    (_limit c ≠ Some 0 →
     ∀ v', ∃ c', add me k v' true c = (c', Ret true) ∧ _priority_queue c' = q').
Proof.
  destruct c as [lim ent q h mi lk]. fields.
  intros Hc Hh Hi Hk. cbv zeta.
  pose proof (lookup_lt_Some _ _ _ Hi) as Hlt.
  exists (climb (n + 1) q i). split; [apply climb_le |]. split; [| split; [| split]].
  - intros p b Hp Hb. by eapply climb_passed.
  - destruct (climb (n + 1) q i) as [| j] eqn:Hj; [by left |]. right.
    assert (is_Some (q !! j)) as [b Hb].
    { apply lookup_lt_is_Some. pose proof (climb_le (n + 1) q i). lia. }
    exists b. replace (S j - 1)%nat with j by lia. split; [done |].
    by eapply climb_stop.
  - eexists. split; [by eapply get_present |]. done.
  - intros Hlim v'. eexists. split; [by eapply add_present_update |]. done.
Qed.

Lemma promotion_correct_witness :
  consistent (_cache_entries generate_cache) (_priority_queue generate_cache) ∧
  holdable O (_lock generate_cache) ∧
  _priority_queue generate_cache !! 4%nat = Some ("4", 1) ∧
  _cache_entries generate_cache !! "4" = Some (Z.of_nat 4, PyStr "e") ∧
  let q := _priority_queue generate_cache in
  ∃ j : nat,
    (j <= 4)%nat ∧
    (∀ (p : nat) b, (j <= p < 4)%nat → q !! p = Some b → snd b < 1 + 1) ∧
    (j = O ∨ ∃ b, q !! (j - 1)%nat = Some b ∧ 1 + 1 <= snd b) ∧
    let q' := take j q ++ ("4", 1 + 1) :: drop j (take 4 q) ++ drop 5 q in
    (∃ c', get O "4" PyNone generate_cache = (c', Ret (PyStr "e")) ∧
           _priority_queue c' = q' ∧ _hits c' = _hits generate_cache + 1) ∧
    (_limit generate_cache ≠ Some 0 →
     ∀ v', ∃ c', add O "4" v' true generate_cache = (c', Ret true) ∧
                 _priority_queue c' = q').
Proof.
  assert (holdable O (_lock generate_cache)) as H2 by (left; reflexivity).
  assert (_priority_queue generate_cache !! 4%nat = Some ("4", 1)) as H3
    by (vm_compute; reflexivity).
  assert (_cache_entries generate_cache !! "4" = Some (Z.of_nat 4, PyStr "e")) as H4
    by (vm_compute; reflexivity).
  split; [exact generate_cache_consistent |].
  split; [exact H2 |]. split; [exact H3 |]. split; [exact H4 |].
  exact (promotion_correct O generate_cache "4" PyNone 4 1 (PyStr "e")
           generate_cache_consistent H2 H3 H4).
Defined.

(** The promotion test: one [get("4")] on the seeded cache. *)
Example test_cache_get_once :
  snd (retrieve None None (after (get O "4" PyNone) generate_cache))
  = Ret [CacheEntry "4" (PyStr "e") 2; CacheEntry "0" (PyStr "a") 1;
         CacheEntry "1" (PyStr "b") 1; CacheEntry "2" (PyStr "c") 1;
         CacheEntry "3" (PyStr "d") 1].
Proof. vm_compute. reflexivity. Qed.

(** A tie does not swap: after [get("4")], a [get("3")] lifts "3" past the
    entries of count 1 and stops below "4", whose count is equal. *)
Example test_ties_do_not_swap :
  _priority_queue
    (run [(O, Get "4" PyNone); (O, Get "3" PyNone)] generate_cache)
  = [("4", 2); ("3", 2); ("0", 1); ("1", 1); ("2", 1)].
Proof. vm_compute. reflexivity. Qed.

(** C6: assigning a limit [n >= 0] keeps the first [n] entries of the
    priority sequence and removes the entries after them, the tail, from
    the sequence and from the index; a limit below the size leaves
    [len() == n] (so 0 empties the cache), a limit at or above the size
    and the limit [None] remove nothing. *)
Theorem resize_down_truncates me c (n : Z) :
  consistent (_cache_entries c) (_priority_queue c) →
  holdable me (_lock c) → 0 <= n →
  let q := _priority_queue c in
  (∃ c', limit_setter me (PyInt n) c = (c', Ret tt) ∧
     _limit c' = Some n ∧
     _priority_queue c' = take (Z.to_nat n) q ∧
     (∀ k, _cache_entries c' !! k
           = if decide (k ∈ (drop (Z.to_nat n) q).*1) then None
             else _cache_entries c !! k) ∧
     counters c' = counters c ∧ _lock c' = _lock c ∧
     (n <= Z.of_nat (length q) → __len__ c' = (c', Ret n)) ∧
     (Z.of_nat (length q) <= n → c' = set_limit (Some n) c)) ∧
  limit_setter me PyNone c = (set_limit None c, Ret tt).
Proof.
  destruct c as [lim ent q h mi lk]. fields.
  intros Hc Hh Hn. cbv zeta. split; [| by apply limit_setter_none].
  eexists. split.
  { rewrite <- (Z2Nat.id n) at 1 by lia. by apply limit_setter_int. }
  fields.
  split; [by rewrite Z2Nat.id by lia |]. split; [done |].
  split; [intros k; apply lookup_without |]. split; [done |]. split; [done |]. split.
  - intros Hle. unfold __len__, gets. cbn [_priority_queue].
    rewrite length_take. do 2 f_equal. lia.
  - intros Hge. unfold set_limit. fields.
    rewrite drop_ge, take_ge by lia. by rewrite Z2Nat.id by lia.
Qed.

Lemma resize_down_truncates_witness :
  consistent (_cache_entries generate_cache) (_priority_queue generate_cache) ∧
  holdable O (_lock generate_cache) ∧ 0 <= 0 ∧
  let q := _priority_queue generate_cache in
  (∃ c', limit_setter O (PyInt 0) generate_cache = (c', Ret tt) ∧
     _limit c' = Some 0 ∧
     _priority_queue c' = take (Z.to_nat 0) q ∧
     (∀ k, _cache_entries c' !! k
           = if decide (k ∈ (drop (Z.to_nat 0) q).*1) then None
             else _cache_entries generate_cache !! k) ∧
     counters c' = counters generate_cache ∧ _lock c' = _lock generate_cache ∧
     (0 <= Z.of_nat (length q) → __len__ c' = (c', Ret 0)) ∧
     (Z.of_nat (length q) <= 0 → c' = set_limit (Some 0) generate_cache)) ∧
  limit_setter O PyNone generate_cache = (set_limit None generate_cache, Ret tt).
Proof.
  assert (holdable O (_lock generate_cache)) as H2 by (left; reflexivity).
  assert (0 <= 0) as H3 by lia.
  split; [exact generate_cache_consistent |]. split; [exact H2 |]. split; [exact H3 |].
  exact (resize_down_truncates O generate_cache 0 generate_cache_consistent H2 H3).
Defined.

(** The resize test of the test suite: limit 0 empties the cache, limit 2
    keeps the two entries of highest priority. *)
Example test_limit_zero :
  snd (__len__ (after (limit_setter O (PyInt 0)) generate_cache)) = Ret 0.
Proof. vm_compute. reflexivity. Qed.

Example test_limit_two :
  snd (retrieve None None
         (run [(O, Get "4" PyNone); (O, SetLimit (PyInt 2))] generate_cache))
  = Ret [CacheEntry "4" (PyStr "e") 2; CacheEntry "0" (PyStr "a") 1].
Proof. vm_compute. reflexivity. Qed.


(** * Further properties of [models.py] *)

(** ** Stored values across the shifts *)

Lemma slots_down_value i (ent : gmap string (Z * pyval)) k :
  snd <$> slots_down i ent !! k = snd <$> ent !! k.
Proof.
  unfold slots_down. rewrite lookup_fmap.
  destruct (ent !! k) as [[j v] |]; [| done]. simpl. by case_bool_decide.
Qed.

Lemma slots_up_value ks (ent : gmap string (Z * pyval)) k :
  snd <$> slots_up ks ent !! k = snd <$> ent !! k.
Proof.
  unfold slots_up. induction ks as [| k0 ks IH]; [done |]. cbn [foldr].
  destruct (decide (k = k0)) as [-> |].
  - rewrite lookup_alter_eq, <- IH. by destruct (foldr _ _ _ !! k0).
  - by rewrite lookup_alter_ne.
Qed.

Lemma move_up_Permutation q (i j : nat) x y :
  (j <= i)%nat → q !! i = Some y → move_up q i j x ≡ₚ x :: delete i q.
Proof.
  intros Hj Hi. unfold move_up.
  rewrite <- Permutation_middle. constructor.
  assert (take j q ++ drop j (take i q) = take i q) as Heq.
  { replace (take j q) with (take j (take i q)); [apply take_drop |].
    rewrite take_take. f_equal. lia. }
  by rewrite delete_take_drop, (assoc_L (++)), Heq.
Qed.

Section Values.

Variable me : tid.

(** [get] finds what the index stores. *)
Lemma get_stored lim ent q h mi lk k j v default :
  consistent ent q → holdable me lk → ent !! k = Some (j, v) →
  ∃ c', get me k default (mkLFUCache lim ent q h mi lk) = (c', Ret v).
Proof.
  intros Hc Hh Hk.
  destruct (consistent_slot _ _ _ _ _ Hc Hk) as (i & n & -> & Hi).
  eexists. by eapply get_present.
Qed.

End Values.

(** X1: [remove] of a stored key returns [True]; the key is gone from the
    index and from the sequence, the other entries keep their order,
    counts and values, and limit and counters are as before. *)
Theorem remove_present me c k (i : nat) v :
  consistent (_cache_entries c) (_priority_queue c) →
  holdable me (_lock c) →
  _cache_entries c !! k = Some (Z.of_nat i, v) →
  ∃ c',
    remove me k c = (c', Ret true) ∧
    _priority_queue c' = delete i (_priority_queue c) ∧
    _cache_entries c' !! k = None ∧
    (k ∉ (_priority_queue c').*1) ∧
    (∀ k', k' ≠ k → snd <$> _cache_entries c' !! k' = snd <$> _cache_entries c !! k') ∧
    consistent (_cache_entries c') (_priority_queue c') ∧
    _limit c' = _limit c ∧ counters c' = counters c ∧ _lock c' = _lock c.
Proof.
  destruct c as [lim ent q h mi lk]. fields. intros Hc Hh Hk.
  destruct (consistent_slot _ _ _ _ _ Hc Hk) as (i' & n & Heq%Nat2Z.inj & Hi).
  subst i'. eexists. split; [by eapply remove_run |]. fields.
  assert (consistent (slots_down (Z.of_nat i) (delete k ent)) (delete i q)) as Hc'
    by (by eapply consistent_delete).
  assert (slots_down (Z.of_nat i) (delete k ent) !! k = None) as Hgone.
  { unfold slots_down. by rewrite lookup_fmap, lookup_delete_eq. }
  split; [done |]. split; [done |]. split; [by eapply consistent_absent |].
  split; [| done].
  intros k' Hne. by rewrite slots_down_value, lookup_delete_ne.
Qed.

Lemma remove_present_witness :
  consistent (_cache_entries generate_cache) (_priority_queue generate_cache) ∧
  holdable O (_lock generate_cache) ∧
  _cache_entries generate_cache !! "2" = Some (Z.of_nat 2, PyStr "c") ∧
  ∃ c',
    remove O "2" generate_cache = (c', Ret true) ∧
    _priority_queue c' = delete 2%nat (_priority_queue generate_cache) ∧
    _cache_entries c' !! "2" = None ∧
    ("2" ∉ (_priority_queue c').*1) ∧
    (∀ k', k' ≠ "2" →
       snd <$> _cache_entries c' !! k' = snd <$> _cache_entries generate_cache !! k') ∧
    consistent (_cache_entries c') (_priority_queue c') ∧
    _limit c' = _limit generate_cache ∧ counters c' = counters generate_cache ∧
    _lock c' = _lock generate_cache.
Proof.
  assert (holdable O (_lock generate_cache)) as H2 by (left; reflexivity).
  assert (_cache_entries generate_cache !! "2" = Some (Z.of_nat 2, PyStr "c")) as H3
    by (vm_compute; reflexivity).
  split; [exact generate_cache_consistent |]. split; [exact H2 |]. split; [exact H3 |].
  exact (remove_present O generate_cache "2" 2 (PyStr "c") generate_cache_consistent H2 H3).
Defined.

(** X2: [remove] of a key that is not stored returns [False] and leaves
    the object as it was, in every state. *)
Theorem remove_absent_changes_nothing me c k :
  _cache_entries c !! k = None →
  after (remove me k) c = c ∧
  (holdable me (_lock c) → remove me k c = (c, Ret false)).
Proof.
  intros Hk.
  assert (holdable me (_lock c) → remove me k c = (c, Ret false)) as Hret.
  { intros Hh. destruct c as [lim ent q h mi lk]. by apply remove_absent. }
  split; [| done].
  destruct (acquire me (_lock c)) as [l |] eqn:Ha.
  - unfold after. rewrite Hret; [done |]. by eapply acquire_Some.
  - unfold after, remove. by rewrite with_lock_after_blocked.
Qed.

Lemma remove_absent_changes_nothing_witness :
  _cache_entries generate_cache !! "9" = None ∧
  after (remove O "9") generate_cache = generate_cache ∧
  (holdable O (_lock generate_cache) →
   remove O "9" generate_cache = (generate_cache, Ret false)).
Proof.
  assert (_cache_entries generate_cache !! "9" = None) as H1 by (vm_compute; reflexivity).
  split; [exact H1 |].
  exact (remove_absent_changes_nothing O generate_cache "9" H1).
Defined.

(** X3: [get] of a stored key returns the stored value, raises the count
    of that key by one and [hits] by one, and changes nothing else: the
    sequence holds the same entries (in an order that may differ), every
    stored value is as before, limit and [misses] are as before. *)
Theorem get_present_only_counts me c k default (i : nat) n v :
  consistent (_cache_entries c) (_priority_queue c) →
  holdable me (_lock c) →
  _priority_queue c !! i = Some (k, n) →
  _cache_entries c !! k = Some (Z.of_nat i, v) →
  ∃ c',
    get me k default c = (c', Ret v) ∧
    _priority_queue c' ≡ₚ <[i := (k, n + 1)]> (_priority_queue c) ∧
    (∀ k', snd <$> _cache_entries c' !! k' = snd <$> _cache_entries c !! k') ∧
    _hits c' = _hits c + 1 ∧ _misses c' = _misses c ∧
    _limit c' = _limit c ∧ _lock c' = _lock c.
Proof.
  destruct c as [lim ent q h mi lk]. fields. intros Hc Hh Hi Hk.
  pose proof (lookup_lt_Some _ _ _ Hi) as Hlt.
  pose proof (climb_le (n + 1) q i) as Hle.
  eexists. split; [by eapply get_present |]. fields.
  split; [| split; [| done]].
  - rewrite move_up_Permutation by done.
    rewrite insert_take_drop by done. rewrite <- Permutation_middle.
    by rewrite delete_take_drop.
  - intros k'. destruct (decide (k' = k)) as [-> |].
    + by rewrite lookup_insert_eq, Hk.
    + by rewrite lookup_insert_ne, slots_up_value.
Qed.

Lemma get_present_only_counts_witness :
  consistent (_cache_entries generate_cache) (_priority_queue generate_cache) ∧
  holdable O (_lock generate_cache) ∧
  _priority_queue generate_cache !! 3%nat = Some ("3", 1) ∧
  _cache_entries generate_cache !! "3" = Some (Z.of_nat 3, PyStr "d") ∧
  ∃ c',
    get O "3" PyNone generate_cache = (c', Ret (PyStr "d")) ∧
    _priority_queue c' ≡ₚ <[3%nat := ("3", 1 + 1)]> (_priority_queue generate_cache) ∧
    (∀ k', snd <$> _cache_entries c' !! k' = snd <$> _cache_entries generate_cache !! k') ∧
    _hits c' = _hits generate_cache + 1 ∧ _misses c' = _misses generate_cache ∧
    _limit c' = _limit generate_cache ∧ _lock c' = _lock generate_cache.
Proof.
  assert (holdable O (_lock generate_cache)) as H2 by (left; reflexivity).
  assert (_priority_queue generate_cache !! 3%nat = Some ("3", 1)) as H3
    by (vm_compute; reflexivity).
  assert (_cache_entries generate_cache !! "3" = Some (Z.of_nat 3, PyStr "d")) as H4
    by (vm_compute; reflexivity).
  split; [exact generate_cache_consistent |]. split; [exact H2 |].
  split; [exact H3 |]. split; [exact H4 |].
  exact (get_present_only_counts O generate_cache "3" PyNone 3 1 (PyStr "d")
           generate_cache_consistent H2 H3 H4).
Defined.

(** ** Insertion and eviction *)

(** The states [add] reaches when it writes, by its three writing
    branches: the key is stored with the value given. *)
Lemma add_writes me c k v update :
  wf c → _limit c ≠ Some 0 →
  _cache_entries c !! k = None ∨ update = true →
  add me k v update c = (after (add me k v update) c, Ret true) ∧
  ∃ j, _cache_entries (after (add me k v update) c) !! k = Some (j, v).
Proof.
  intros [Hc Hs Hpos Hlim Hlk] Hz Hcase. destruct c as [lim ent q h mi lk].
  fields in *. subst lk. pose proof (holdable_unlocked me) as Hh. unfold after.
  destruct (ent !! k) as [[j v0] |] eqn:Hk.
  - destruct Hcase as [? | ->]; [done |].
    destruct (consistent_slot _ _ _ _ _ Hc Hk) as (i & n & -> & Hi).
    erewrite add_present_update by done. cbn [fst]. fields.
    split; [done |]. eexists. apply lookup_insert_eq.
  - assert ((∀ l, lim = Some l → Z.of_nat (length q) < l) →
            add me k v update (mkLFUCache lim ent q h mi Unlocked)
            = ((add me k v update (mkLFUCache lim ent q h mi Unlocked)).1, Ret true) ∧
            ∃ j, _cache_entries (add me k v update (mkLFUCache lim ent q h mi Unlocked)).1 !! k
                 = Some (j, v)) as Hnew.
    { intros Hroom. rewrite add_new by done. cbn [fst]. fields.
      split; [done |]. eexists. apply lookup_insert_eq. }
    destruct lim as [l |]; [| by apply Hnew].
    destruct (decide (Z.of_nat (length q) < l)); [by apply Hnew; intros ? [= <-] |].
    destruct (Hlim l eq_refl) as [Hl0 Hlen].
    assert (l = Z.of_nat (length q)) as -> by lia.
    destruct (length q) as [| l'] eqn:Hq; [done |].
    assert (is_Some (q !! l')) as [[kl nl] Hl'] by (apply lookup_lt_is_Some; lia).
    erewrite add_evict; [| done.. | lia | done]. cbn [fst]. fields.
    split; [done |]. eexists. apply lookup_insert_eq.
Qed.

(** X4: what [add] writes, [get] reads.  After an [add] that writes (a
    new key, or a stored key with [update]), on a cache whose limit is not
    0, [get] of that key returns the value given, also when the [add] had
    to evict.  An [add] without [update] on a stored key does not
    overwrite: [get] still returns the old value. *)
Theorem add_then_get me me' c k v update default :
  wf c →
  (_limit c ≠ Some 0 →
   _cache_entries c !! k = None ∨ update = true →
   add me k v update c = (after (add me k v update) c, Ret true) ∧
   ∃ c2, get me' k default (after (add me k v update) c) = (c2, Ret v)) ∧
  (∀ j v0, _cache_entries c !! k = Some (j, v0) →
   ∃ c2, get me' k default (after (add me k v false) c) = (c2, Ret v0)).
Proof.
  intros Hwf. split.
  - intros Hz Hcase. destruct (add_writes me c k v update Hwf Hz Hcase) as [Hadd [j Hj]].
    split; [done |].
    pose proof (wf_add me k v update c Hwf) as [Hc' _ _ _ Hlk'].
    destruct (after (add me k v update) c) as [lim ent q h mi lk]. fields in *. subst lk.
    by eapply get_stored; [| apply holdable_unlocked |].
  - intros j v0 Hk. pose proof Hwf as [Hc _ _ _ Hlk].
    destruct c as [lim ent q h mi lk]. fields in *. subst lk. unfold after.
    assert ((add me k v false (mkLFUCache lim ent q h mi Unlocked)).1
            = mkLFUCache lim ent q h mi Unlocked) as ->.
    { destruct (decide (lim = Some 0)) as [-> | Hz].
      - by rewrite add_limit_zero by apply holdable_unlocked.
      - by rewrite add_present_keep by (apply holdable_unlocked || done || by eexists). }
    by eapply get_stored; [| apply holdable_unlocked |].
Qed.

Lemma add_then_get_witness :
  wf generate_cache ∧
  (_limit generate_cache ≠ Some 0 →
   _cache_entries generate_cache !! "new" = None ∨ false = true →
   add O "new" (PyInt 7) false generate_cache
   = (after (add O "new" (PyInt 7) false) generate_cache, Ret true) ∧
   ∃ c2, get 1%nat "new" PyNone (after (add O "new" (PyInt 7) false) generate_cache)
         = (c2, Ret (PyInt 7))) ∧
  (∀ j v0, _cache_entries generate_cache !! "new" = Some (j, v0) →
   ∃ c2, get 1%nat "new" PyNone (after (add O "new" (PyInt 7) false) generate_cache)
         = (c2, Ret v0)).
Proof.
  assert (wf generate_cache) as H1 by (apply reachable_wf, generate_cache_reachable).
  split; [exact H1 |].
  exact (add_then_get O 1%nat generate_cache "new" (PyInt 7) false PyNone H1).
Defined.

(** X5: the eviction is least-frequently-used.  When [add] of a new key
    finds the cache at its limit, the entry it removes has an access
    count that no stored entry undercuts, and every other entry stays. *)
Theorem eviction_takes_least_used me c k v update (l : Z) :
  wf c → _limit c = Some l → l ≠ 0 →
  Z.of_nat (length (_priority_queue c)) = l →
  _cache_entries c !! k = None →
  ∃ kl nl c',
    _priority_queue c !! Z.to_nat (l - 1) = Some (kl, nl) ∧
    (∀ b, b ∈ _priority_queue c → nl <= snd b) ∧
    add me k v update c = (c', Ret true) ∧
    _cache_entries c' !! kl = None ∧
    (∀ b, b ∈ _priority_queue c → fst b ≠ kl → b ∈ _priority_queue c').
Proof.
  intros [Hc Hs Hpos Hlim Hlk] Hl Hl0 Hlen Hk. destruct c as [lim ent q h mi lk].
  fields in *. subst lim lk.
  destruct (length q) as [| l'] eqn:Hq; [lia |]. subst l.
  replace (Z.to_nat (Z.of_nat (S l') - 1)) with l' by lia.
  assert (is_Some (q !! l')) as [[kl nl] Hl'] by (apply lookup_lt_is_Some; lia).
  exists kl, nl. eexists. split; [done |]. split; [| split; [| split]].
  - intros b [p Hp]%list_elem_of_lookup.
    apply (sorted_le q p l' b (kl, nl) Hs); [| done..].
    apply lookup_lt_Some in Hp. lia.
  - eapply add_evict; [done | apply holdable_unlocked | done | lia | done].
  - fields. rewrite lookup_insert_ne by (intros <-; destruct Hc as [H1 _];
      destruct (H1 _ _ _ Hl') as [? ?]; congruence).
    unfold slots_down. by rewrite lookup_fmap, lookup_delete_eq.
  - fields. intros [k' n'] [p Hp]%list_elem_of_lookup Hne. cbn [fst] in Hne.
    apply elem_of_app. left. apply list_elem_of_lookup.
    assert (p ≠ l') by (intros ->; rewrite Hl' in Hp; congruence).
    pose proof (lookup_lt_Some _ _ _ Hp).
    exists p. rewrite list_lookup_delete_lt by lia. done.
Qed.

Lemma eviction_takes_least_used_witness :
  let c := run [(O, Get "0" PyNone); (O, Get "4" PyNone); (O, Get "4" PyNone)]
             generate_cache in
  wf c ∧ _limit c = Some 5 ∧ 5 ≠ 0 ∧
  Z.of_nat (length (_priority_queue c)) = 5 ∧
  _cache_entries c !! "k" = None ∧
  ∃ kl nl c',
    _priority_queue c !! Z.to_nat (5 - 1) = Some (kl, nl) ∧
    (∀ b, b ∈ _priority_queue c → nl <= snd b) ∧
    add O "k" PyNone false c = (c', Ret true) ∧
    _cache_entries c' !! kl = None ∧
    (∀ b, b ∈ _priority_queue c → fst b ≠ kl → b ∈ _priority_queue c').
Proof.
  intros c.
  assert (wf c) as H1.
  { apply wf_run, reachable_wf, generate_cache_reachable. }
  assert (_limit c = Some 5) as H2 by (vm_compute; reflexivity).
  assert (5 ≠ 0) as H3 by lia.
  assert (Z.of_nat (length (_priority_queue c)) = 5) as H4 by (vm_compute; reflexivity).
  assert (_cache_entries c !! "k" = None) as H5 by (vm_compute; reflexivity).
  split; [exact H1 |]. split; [exact H2 |]. split; [exact H3 |].
  split; [exact H4 |]. split; [exact H5 |].
  exact (eviction_takes_least_used O c "k" PyNone false 5 H1 H2 H3 H4 H5).
Defined.

(** X6: a key that is added to a full cache and not read is the next one
    to go.  Two [add]s of new keys in a row leave the cache without the
    first of them, whatever the counts of the older entries are: the
    second [add] evicts the entry the first one put in the last slot. *)
Theorem newest_is_next_evicted me c k1 v1 k2 v2 (l : Z) :
  wf c → _limit c = Some l → l ≠ 0 →
  Z.of_nat (length (_priority_queue c)) = l →
  _cache_entries c !! k1 = None → _cache_entries c !! k2 = None → k1 ≠ k2 →
  let c2 := after (add me k2 v2 false) (after (add me k1 v1 false) c) in
  _cache_entries c2 !! k1 = None ∧
  _priority_queue c2 = take (Z.to_nat (l - 1)) (_priority_queue c) ++ [(k2, 1)].
Proof.
  intros Hwf Hl Hl0 Hlen Hk1 Hk2 Hne.
  pose proof (wf_add me k1 v1 false c Hwf) as [Hc1 _ _ _ Hlk1].
  destruct Hwf as [Hc Hs Hpos Hlim Hlk]. destruct c as [lim ent q h mi lk].
  fields in *. subst lim lk. pose proof (holdable_unlocked me) as Hh.
  destruct (length q) as [| l'] eqn:Hq; [lia |]. subst l.
  replace (Z.to_nat (Z.of_nat (S l') - 1)) with l' by lia.
  assert (is_Some (q !! l')) as [[kl nl] Hl'] by (apply lookup_lt_is_Some; lia).
  assert (length (delete l' q) = l') as Hdel
    by (rewrite length_delete by (by eexists); lia).
  unfold after in *.
  pose proof (add_evict me h mi ent q Unlocked l' k1 v1 false kl nl
                Hc Hh Hk1 ltac:(lia) Hl') as Hadd1.
  rewrite Hadd1 in Hc1 |- *. cbn [fst] in *. fields in *.
  erewrite add_evict; [| done | done | | | ].
  - cbn [fst]. fields. split.
    + rewrite lookup_insert_ne by done.
      unfold slots_down. by rewrite lookup_fmap, lookup_delete_eq.
    + rewrite delete_take_drop.
      rewrite take_app_length' by done.
      rewrite drop_ge by (rewrite length_app; cbn [length]; lia).
      rewrite app_nil_r, delete_take_drop, (drop_ge q (S l')), app_nil_r by lia.
      done.
  - rewrite lookup_insert_ne by done. by apply slots_down_absent.
  - rewrite length_app. cbn [length]. lia.
  - by apply list_lookup_middle.
Qed.

Lemma newest_is_next_evicted_witness :
  wf generate_cache ∧ _limit generate_cache = Some 5 ∧ 5 ≠ 0 ∧
  Z.of_nat (length (_priority_queue generate_cache)) = 5 ∧
  _cache_entries generate_cache !! "x" = None ∧
  _cache_entries generate_cache !! "y" = None ∧ "x" ≠ "y" ∧
  let c2 := after (add O "y" PyNone false) (after (add O "x" PyNone false) generate_cache) in
  _cache_entries c2 !! "x" = None ∧
  _priority_queue c2 = take (Z.to_nat (5 - 1)) (_priority_queue generate_cache) ++ [("y", 1)].
Proof.
  assert (wf generate_cache) as H1 by (apply reachable_wf, generate_cache_reachable).
  assert (_limit generate_cache = Some 5) as H2 by reflexivity.
  assert (5 ≠ 0) as H3 by lia.
  assert (Z.of_nat (length (_priority_queue generate_cache)) = 5) as H4
    by (vm_compute; reflexivity).
  assert (_cache_entries generate_cache !! "x" = None) as H5 by (vm_compute; reflexivity).
  assert (_cache_entries generate_cache !! "y" = None) as H6 by (vm_compute; reflexivity).
  assert ("x" ≠ "y") as H7 by discriminate.
  split; [exact H1 |]. split; [exact H2 |]. split; [exact H3 |]. split; [exact H4 |].
  split; [exact H5 |]. split; [exact H6 |]. split; [exact H7 |].
  exact (newest_is_next_evicted O generate_cache "x" PyNone "y" PyNone 5
           H1 H2 H3 H4 H5 H6 H7).
Defined.

(** X7: a key is stored once.  From a fresh cache, after any calls, no
    key occurs twice in the priority sequence, however often it was
    added. *)
Theorem keys_are_unique lim c0 calls :
  __init__ lim = inr c0 → NoDup (_priority_queue (run calls c0)).*1.
Proof.
  intros Hinit. eapply consistent_NoDup, wf_consistent, wf_run, wf_init. done.
Qed.

Lemma keys_are_unique_witness :
  __init__ PyNone = inr (mkLFUCache None ∅ [] 0 0 Unlocked) ∧
  NoDup (_priority_queue
           (run [(O, Add "a" PyNone false); (O, Add "a" PyNone false);
                 (O, Add "a" (PyInt 1) true)]
              (mkLFUCache None ∅ [] 0 0 Unlocked))).*1.
Proof.
  split; [reflexivity |].
  apply (keys_are_unique PyNone). reflexivity.
Defined.

(** X8: with room left, or with no limit, [add] of a new key evicts
    nothing: the entry goes to the end of the sequence with count 1, the
    index gets the one new key, [misses] goes up by one.  This holds in
    every state. *)
Theorem add_with_room me c k v update :
  holdable me (_lock c) → _cache_entries c !! k = None →
  (∀ l, _limit c = Some l → Z.of_nat (length (_priority_queue c)) < l) →
  add me k v update c
  = (mkLFUCache (_limit c)
       (<[k := (Z.of_nat (length (_priority_queue c)), v)]> (_cache_entries c))
       (_priority_queue c ++ [(k, 1)])
       (_hits c) (_misses c + 1) (_lock c),
     Ret true).
Proof. destruct c as [lim ent q h mi lk]. fields. apply add_new. Qed.

Lemma add_with_room_witness :
  let c := mkLFUCache None ∅ [] 0 0 (Locked O 2) in
  holdable O (_lock c) ∧ _cache_entries c !! "k" = None ∧
  (∀ l, _limit c = Some l → Z.of_nat (length (_priority_queue c)) < l) ∧
  add O "k" (PyInt 1) false c
  = (mkLFUCache (_limit c)
       (<["k" := (Z.of_nat (length (_priority_queue c)), PyInt 1)]> (_cache_entries c))
       (_priority_queue c ++ [("k", 1)])
       (_hits c) (_misses c + 1) (_lock c),
     Ret true).
Proof.
  intros c.
  assert (holdable O (_lock c)) as H1 by (right; exists 2%nat; reflexivity).
  assert (_cache_entries c !! "k" = None) as H2 by reflexivity.
  assert (∀ l, _limit c = Some l → Z.of_nat (length (_priority_queue c)) < l) as H3
    by (intros l Hl; discriminate Hl).
  split; [exact H1 |]. split; [exact H2 |]. split; [exact H3 |].
  exact (add_with_room O c "k" (PyInt 1) false H1 H2 H3).
Defined.

(** X9: [_remove_by_id] checks its bounds.  An id below 0 or at or above
    the size returns [False] and changes nothing, in every state (a
    negative id is not taken from the end); an id within the bounds, on a
    consistent object, removes the entry of that slot from the sequence
    and from the index and returns [True]. *)
Theorem remove_by_id_bounds me c (queue_id : Z) :
  holdable me (_lock c) →
  (¬ (0 <= queue_id < Z.of_nat (length (_priority_queue c))) →
   _remove_by_id me queue_id c = (c, Ret false)) ∧
  (consistent (_cache_entries c) (_priority_queue c) →
   ∀ k n, 0 <= queue_id → _priority_queue c !! Z.to_nat queue_id = Some (k, n) →
   ∃ c', _remove_by_id me queue_id c = (c', Ret true) ∧
         _priority_queue c' = delete (Z.to_nat queue_id) (_priority_queue c) ∧
         _cache_entries c' !! k = None ∧
         consistent (_cache_entries c') (_priority_queue c') ∧
         _limit c' = _limit c ∧ counters c' = counters c ∧ _lock c' = _lock c).
Proof.
  destruct c as [lim ent q h mi lk]. fields. intros Hh. split.
  - intros Hout. by apply _remove_by_id_out_of_range.
  - intros Hc k n H0 Hk. eexists. split.
    { rewrite <- (Z2Nat.id queue_id) at 1 by lia. by eapply _remove_by_id_run. }
    fields. split; [done |]. split.
    { unfold slots_down. by rewrite lookup_fmap, lookup_delete_eq. }
    split; [| done]. by eapply consistent_delete.
Qed.

Lemma remove_by_id_bounds_witness :
  holdable O (_lock generate_cache) ∧
  (¬ (0 <= -1 < Z.of_nat (length (_priority_queue generate_cache))) →
   _remove_by_id O (-1) generate_cache = (generate_cache, Ret false)).
Proof.
  assert (holdable O (_lock generate_cache)) as H1 by (left; reflexivity).
  split; [exact H1 |].
  exact (proj1 (remove_by_id_bounds O generate_cache (-1) H1)).
Defined.

(** X10: [clear] empties the index and the sequence and keeps the limit
    and both counters; it does so in every state, also one that is not
    consistent, without raising.  Afterwards no key is stored and the
    size is 0. *)
Theorem clear_empties_keeps_counters me c :
  holdable me (_lock c) →
  let c' := mkLFUCache (_limit c) ∅ [] (_hits c) (_misses c) (_lock c) in
  clear me c = (c', Ret tt) ∧
  (∀ k, has_cache me k c' = (c', Ret false)) ∧
  __len__ c' = (c', Ret 0) ∧
  consistent (_cache_entries c') (_priority_queue c').
Proof.
  destruct c as [lim ent q h mi lk]. fields. intros Hh. cbv zeta.
  split; [by apply clear_run |]. split; [| split; [done | apply consistent_empty]].
  intros k. rewrite has_cache_run by done.
  by rewrite lookup_empty, bool_decide_eq_false_2 by (by intros [? ?]).
Qed.

Lemma clear_empties_keeps_counters_witness :
  let c := after (get O "1" PyNone) generate_cache in
  holdable O (_lock c) ∧
  let c' := mkLFUCache (_limit c) ∅ [] (_hits c) (_misses c) (_lock c) in
  clear O c = (c', Ret tt) ∧
  (∀ k, has_cache O k c' = (c', Ret false)) ∧
  __len__ c' = (c', Ret 0) ∧
  consistent (_cache_entries c') (_priority_queue c').
Proof.
  intros c.
  assert (holdable O (_lock c)) as H1 by (left; vm_compute; reflexivity).
  split; [exact H1 |].
  exact (clear_empties_keeps_counters O c H1).
Defined.

(** ** The lock across a call *)

Section LockFrame.

Variable me : tid.

Lemma neutral_bind {A B} (m : M A) (k : A → M B) :
  lock_neutral me m → (∀ a, lock_neutral me (k a)) → lock_neutral me (bind m k).
Proof.
  intros Hm Hk c Hh. unfold after, bind.
  destruct (Hm c Hh) as [Hl Hb]. unfold after in Hl.
  destruct (m c) as [c1 [a | e |]]; cbn [fst snd] in *; [| done..].
  rewrite <- Hl in Hh. destruct (Hk a c1 Hh) as [Hl' Hb']. unfold after in Hl'.
  split; [congruence | done].
Qed.

(** A statement that keeps the lock field and does not wait. *)
Lemma neutral_plain {A} (m : M A) :
  (∀ c, _lock (m c).1 = _lock c ∧ (m c).2 ≠ Blocked) → lock_neutral me m.
Proof. intros H c _. apply H. Qed.

Lemma neutral_with_lock {A} (m : M A) :
  lock_neutral me m → lock_neutral me (with_lock me m).
Proof.
  intros Hm c Hh. destruct (holdable_acquire me _ Hh) as (l' & Ha & Hh' & Hr).
  unfold after, with_lock. rewrite Ha.
  destruct (Hm (set_lock l' c) Hh') as [Hl Hb]. unfold after in Hl.
  destruct (m (set_lock l' c)) as [c1 r]. cbn [fst snd _lock set_lock] in *.
  by rewrite Hl, Hr.
Qed.

Lemma neutral_for_each {A} (l : list A) (body : A → M unit) :
  (∀ x, lock_neutral me (body x)) → lock_neutral me (for_each l body).
Proof.
  intros Hb. induction l as [| x l IH]; [by apply neutral_plain |].
  cbn [for_each]. by apply neutral_bind.
Qed.

Lemma neutral_ret {A} (a : A) : lock_neutral me (ret a).
Proof. by apply neutral_plain. Qed.

Lemma neutral_raise {A} e : lock_neutral me (raise e : M A).
Proof. by apply neutral_plain. Qed.

Lemma neutral_gets {A} (g : LFUCache → A) : lock_neutral me (gets g).
Proof. by apply neutral_plain. Qed.

Lemma neutral_modify f : (∀ c, _lock (f c) = _lock c) → lock_neutral me (modify f).
Proof. intros Hf. apply neutral_plain. intros c. by split; [apply Hf |]. Qed.

Lemma neutral_len : lock_neutral me __len__.
Proof. by apply neutral_plain. Qed.

Lemma neutral_entries_getitem k : lock_neutral me (entries_getitem k).
Proof.
  apply neutral_plain. intros c. unfold entries_getitem.
  by destruct (_cache_entries c !! k).
Qed.

Lemma neutral_entries_setitem k e : lock_neutral me (entries_setitem k e).
Proof. by apply neutral_plain. Qed.

Lemma neutral_entries_delitem k : lock_neutral me (entries_delitem k).
Proof.
  apply neutral_plain. intros c. unfold entries_delitem.
  by destruct (_cache_entries c !! k).
Qed.

Lemma neutral_queue_getitem i : lock_neutral me (queue_getitem i).
Proof. apply neutral_plain. intros c. unfold queue_getitem. by destruct (_ ≫= _). Qed.

Lemma neutral_queue_setitem i x : lock_neutral me (queue_setitem i x).
Proof. apply neutral_plain. intros c. unfold queue_setitem. by destruct (py_index _ _). Qed.

Lemma neutral_queue_delitem i : lock_neutral me (queue_delitem i).
Proof. apply neutral_plain. intros c. unfold queue_delitem. by destruct (py_index _ _). Qed.

Lemma neutral_queue_append x : lock_neutral me (queue_append x).
Proof. by apply neutral_plain. Qed.

Lemma neutral_queue_pop : lock_neutral me queue_pop.
Proof.
  apply neutral_plain. intros c. unfold queue_pop.
  by destruct (last (_priority_queue c)).
Qed.

Create HintDb neutral.

Hint Resolve neutral_ret neutral_raise neutral_gets neutral_len
  neutral_entries_getitem neutral_entries_setitem neutral_entries_delitem
  neutral_queue_getitem neutral_queue_setitem neutral_queue_delitem
  neutral_queue_append neutral_queue_pop : neutral.

(** Walks down a method body; every statement is neutral by a lemma of
    the [neutral] database. *)
Ltac neutral :=
  repeat first
    [ progress intros
    | progress cbv zeta
    | apply neutral_with_lock
    | apply neutral_bind
    | apply neutral_for_each
    | apply neutral_modify; done
    | match goal with
      | |- lock_neutral _ (if ?b then _ else _) => destruct b
      | |- lock_neutral _ (match ?x with _ => _ end) => destruct x
      end
    | solve [auto with neutral] ].

Lemma neutral_shift_left item : lock_neutral me (shift_left item).
Proof. unfold shift_left. neutral. Qed.

Lemma neutral_has_cache k : lock_neutral me (has_cache me k).
Proof. unfold has_cache. neutral. Qed.

Hint Resolve neutral_shift_left neutral_has_cache : neutral.

Lemma neutral_remove_by_id i : lock_neutral me (_remove_by_id me i).
Proof. unfold _remove_by_id. neutral. Qed.

Lemma neutral_promote fuel : ∀ i j, lock_neutral me (promote fuel i j).
Proof.
  induction fuel as [| fuel IH]; intros i j; [by apply neutral_plain |].
  cbn [promote]. neutral.
Qed.

Hint Resolve neutral_promote neutral_remove_by_id : neutral.

Lemma neutral_increment_access_count k : lock_neutral me (_increment_access_count me k).
Proof. unfold _increment_access_count. neutral. Qed.

Hint Resolve neutral_increment_access_count : neutral.

Lemma neutral_drop_excessive n : lock_neutral me (drop_excessive n).
Proof. induction n as [| n IH]; [by apply neutral_plain |]. cbn [drop_excessive]. neutral. Qed.

Hint Resolve neutral_drop_excessive : neutral.

Lemma neutral_add k v update : lock_neutral me (add me k v update).
Proof. unfold add. neutral. Qed.

Lemma neutral_get k default : lock_neutral me (get me k default).
Proof. unfold get. neutral. Qed.

Lemma neutral_remove k : lock_neutral me (remove me k).
Proof. unfold remove. neutral. Qed.

Lemma neutral_clear : lock_neutral me (clear me).
Proof. unfold clear. neutral. Qed.

Lemma neutral_limit_setter v : lock_neutral me (limit_setter me v).
Proof. unfold limit_setter. neutral. Qed.

Lemma neutral_comprehension {B} (f : string * Z → M B) items :
  (∀ item, lock_neutral me (f item)) → lock_neutral me (comprehension items f).
Proof.
  intros Hf. induction items as [| item items IH]; [by apply neutral_plain |].
  cbn [comprehension]. neutral.
Qed.

Lemma neutral_retrieve start end_ : lock_neutral me (retrieve start end_).
Proof. unfold retrieve. neutral. apply neutral_comprehension. neutral. Qed.

End LockFrame.

(** X11: the lock is given back.  When the caller can take the lock (it
    is free, or the caller holds it already), no public call waits, and
    after the call the lock is as it was before, whether the call returned
    or raised, and in every state of the two containers. *)
Theorem lock_given_back me c o :
  holdable me (_lock c) →
  _lock (step c (me, o)) = _lock c ∧ ¬ blocks c (me, o).
Proof.
  intros Hh. unfold step, blocks. cbn [fst snd].
  destruct o.
  - by apply neutral_add.
  - by apply neutral_get.
  - by apply neutral_remove.
  - by apply neutral_clear.
  - by apply neutral_limit_setter.
  - by apply neutral_has_cache.
  - done.
  - by apply (neutral_retrieve me).
  - done.
  - done.
  - done.
Qed.

Lemma lock_given_back_witness :
  let c := mkLFUCache (Some 1) {["a" := (7, PyNone)]} [("b", 1)] 0 0 (Locked O 1) in
  holdable O (_lock c) ∧
  _lock (step c (O, Get "a" PyNone)) = _lock c ∧ ¬ blocks c (O, Get "a" PyNone).
Proof.
  intros c.
  assert (holdable O (_lock c)) as H1 by (right; exists 1%nat; reflexivity).
  split; [exact H1 |].
  exact (lock_given_back O c (Get "a" PyNone) H1).
Defined.

(** ** The counters *)

Lemma add_writes_counters me c k v update :
  wf c → _limit c ≠ Some 0 →
  _cache_entries c !! k = None ∨ update = true →
  counters (after (add me k v update) c) = (_hits c, _misses c + 1).
Proof.
  intros [Hc Hs Hpos Hlim Hlk] Hz Hcase. destruct c as [lim ent q h mi lk].
  fields in *. subst lk. pose proof (holdable_unlocked me) as Hh. unfold after.
  destruct (ent !! k) as [[j v0] |] eqn:Hk.
  - destruct Hcase as [? | ->]; [done |].
    destruct (consistent_slot _ _ _ _ _ Hc Hk) as (i & n & -> & Hi).
    by erewrite add_present_update.
  - assert ((∀ l, lim = Some l → Z.of_nat (length q) < l) →
            counters (add me k v update (mkLFUCache lim ent q h mi Unlocked)).1
            = (h, mi + 1)) as Hnew.
    { intros Hroom. by rewrite add_new. }
    destruct lim as [l |]; [| by apply Hnew].
    destruct (decide (Z.of_nat (length q) < l)); [by apply Hnew; intros ? [= <-] |].
    destruct (Hlim l eq_refl) as [Hl0 Hlen].
    assert (l = Z.of_nat (length q)) as -> by lia.
    destruct (length q) as [| l'] eqn:Hq; [done |].
    assert (is_Some (q !! l')) as [[kl nl] Hl'] by (apply lookup_lt_is_Some; lia).
    by erewrite add_evict; [| done.. | lia | done].
Qed.

(** X12: what moves the counters.  On a cache reached from a fresh one,
    [hits] goes up by one on a [get] that finds its key, [misses] goes up
    by one on an [add] that writes (limit not 0, and new key or
    [update]); every other call, [clear] and the limit setter included,
    leaves both counters as they are. *)
Theorem counters_account me o c :
  wf c →
  counters (step c (me, o))
  = match o with
    | Get k _ =>
        if bool_decide (is_Some (_cache_entries c !! k))
        then (_hits c + 1, _misses c) else (_hits c, _misses c)
    | Add k _ update =>
        if negb (bool_decide (_limit c = Some 0))
           && (negb (bool_decide (is_Some (_cache_entries c !! k))) || update)
        then (_hits c, _misses c + 1) else (_hits c, _misses c)
    | _ => (_hits c, _misses c)
    end.
Proof.
  intros Hwf. pose proof Hwf as [Hc Hs Hpos Hlim Hlk].
  destruct c as [lim ent q h mi lk]. fields in *. subst lk.
  pose proof (holdable_unlocked me) as Hh. unfold step, after. cbn [fst snd].
  destruct o as [k v update | k default | k | | v | k | | start end_ | | |]; try done.
  - destruct (decide (lim = Some 0)) as [-> | Hz].
    { by rewrite add_limit_zero, bool_decide_eq_true_2. }
    rewrite (bool_decide_eq_false_2 (lim = Some 0)) by done. cbn [negb andb].
    destruct (ent !! k) as [[j v0] |] eqn:Hk.
    + rewrite (bool_decide_eq_true_2 (is_Some _)) by (by eexists). cbn [negb orb].
      destruct update.
      * destruct (consistent_slot _ _ _ _ _ Hc Hk) as (i & n & -> & Hi).
        by erewrite add_present_update.
      * by rewrite add_present_keep by (done || by eexists).
    + rewrite (bool_decide_eq_false_2 (is_Some _)) by (by intros [? ?]). cbn [negb orb].
      apply (add_writes_counters me (mkLFUCache lim ent q h mi Unlocked) k v update);
        [done | done | by left].
  - destruct (ent !! k) as [[j v0] |] eqn:Hk.
    + rewrite bool_decide_eq_true_2 by (by eexists).
      destruct (consistent_slot _ _ _ _ _ Hc Hk) as (i & n & -> & Hi).
      by erewrite get_present.
    + rewrite bool_decide_eq_false_2 by (by intros [? ?]). by rewrite get_absent.
  - destruct (ent !! k) as [[j v0] |] eqn:Hk.
    + destruct (consistent_slot _ _ _ _ _ Hc Hk) as (i & n & -> & Hi).
      by erewrite remove_run.
    + by rewrite remove_absent.
  - by rewrite clear_run.
  - destruct v as [| n | s].
    + by rewrite limit_setter_none.
    + destruct (decide (n < 0)).
      * rewrite limit_setter_invalid; [done.. |]. by intros ? [= <-].
      * rewrite <- (Z2Nat.id n) by lia. by rewrite limit_setter_int.
    + by rewrite limit_setter_invalid.
  - by rewrite has_cache_run.
  - pose proof (retrieve_after start end_ (mkLFUCache lim ent q h mi Unlocked)) as Hr.
    unfold after in Hr. by rewrite Hr.
Qed.

Lemma counters_account_witness :
  wf generate_cache ∧
  counters (step generate_cache (O, Clear))
  = (_hits generate_cache, _misses generate_cache).
Proof.
  assert (wf generate_cache) as H1 by (apply reachable_wf, generate_cache_reachable).
  split; [exact H1 |].
  exact (counters_account O Clear generate_cache H1).
Defined.

(** ** Resizing twice *)

Lemma elem_of_drop_take_drop {A} (l : list A) (n m : nat) x :
  x ∈ drop m (take n l) ∨ x ∈ drop n l ↔ x ∈ drop (n `min` m) l.
Proof.
  destruct (decide (m <= n)%nat).
  - replace (n `min` m)%nat with m by lia.
    rewrite <- (take_drop (n - m) (drop m l)), elem_of_app.
    rewrite take_drop_commute, drop_drop.
    by replace (m + (n - m))%nat with n by lia.
  - replace (n `min` m)%nat with n by lia.
    rewrite drop_ge by (rewrite length_take; lia).
    rewrite elem_of_nil. tauto.
Qed.

(** X13: resizing in two steps.  Setting the limit to [n] and then to
    [m] leaves the same entries as setting it once to the smaller of the
    two, and the limit [m]. *)
Theorem limit_setter_twice me c (n m : Z) :
  consistent (_cache_entries c) (_priority_queue c) →
  holdable me (_lock c) → 0 <= n → 0 <= m →
  after (limit_setter me (PyInt m)) (after (limit_setter me (PyInt n)) c)
  = set_limit (Some m) (after (limit_setter me (PyInt (Z.min n m))) c).
Proof.
  destruct c as [lim ent q h mi lk]. fields. intros Hc Hh Hn Hm. unfold after.
  rewrite <- (Z2Nat.id n), <- (Z2Nat.id m) by lia.
  rewrite <- Nat2Z.inj_min.
  rewrite !limit_setter_int by done. cbn [fst].
  rewrite limit_setter_int by (done || by apply consistent_truncate). cbn [fst].
  unfold set_limit. fields. f_equal.
  - apply map_eq. intros k. rewrite !lookup_without.
    rewrite !fmap_drop, fmap_take.
    pose proof (elem_of_drop_take_drop q.*1 (Z.to_nat n) (Z.to_nat m) k) as Hiff.
    repeat case_decide; try done; exfalso; tauto.
  - by rewrite take_take, Nat.min_comm.
Qed.

Lemma limit_setter_twice_witness :
  consistent (_cache_entries generate_cache) (_priority_queue generate_cache) ∧
  holdable O (_lock generate_cache) ∧ 0 <= 2 ∧ 0 <= 4 ∧
  after (limit_setter O (PyInt 4)) (after (limit_setter O (PyInt 2)) generate_cache)
  = set_limit (Some 4) (after (limit_setter O (PyInt (Z.min 2 4))) generate_cache).
Proof.
  assert (holdable O (_lock generate_cache)) as H2 by (left; reflexivity).
  assert (0 <= 2) as H3 by lia. assert (0 <= 4) as H4 by lia.
  split; [exact generate_cache_consistent |]. split; [exact H2 |].
  split; [exact H3 |]. split; [exact H4 |].
  exact (limit_setter_twice O generate_cache 2 4 generate_cache_consistent H2 H3 H4).
Defined.

(** ** The views of the cache *)

(** X14: [retrieve] reads and does not write.  In every state it leaves
    the object as it was, also when it raises; on a consistent object it
    returns the slice [start:end] of the priority sequence, in order,
    each key with its count and with the value the index stores, and
    without arguments it returns as many entries as [len()] counts. *)
Theorem retrieve_reads_slice c start end_ :
  after (retrieve start end_) c = c ∧
  (consistent (_cache_entries c) (_priority_queue c) →
   retrieve start end_ c
   = (c, Ret (entry_at (_cache_entries c) <$> py_slice (_priority_queue c) start end_)) ∧
   ∃ es, retrieve None None c = (c, Ret es) ∧
         key <$> es = (_priority_queue c).*1 ∧
         access_count <$> es = (_priority_queue c).*2 ∧
         (∀ e, e ∈ es → ∃ j, _cache_entries c !! key e = Some (j, value e)) ∧
         __len__ c = (c, Ret (Z.of_nat (length es)))).
Proof.
  split; [apply retrieve_after |].
  destruct c as [lim ent q h mi lk]. fields. intros Hc.
  split; [by apply retrieve_run |].
  eexists. split; [by apply retrieve_run |]. rewrite py_slice_all.
  split; [| split; [| split]].
  - rewrite <- list_fmap_compose. by apply list_fmap_ext.
  - rewrite <- list_fmap_compose. by apply list_fmap_ext.
  - intros e [[k n] [-> Hin]]%list_elem_of_fmap.
    apply list_elem_of_lookup in Hin as [i Hi].
    destruct Hc as [H1 _]. destruct (H1 _ _ _ Hi) as [v Hv].
    exists (Z.of_nat i). unfold entry_at. cbn [key value fst]. by rewrite Hv.
  - unfold __len__, gets. fields. by rewrite length_fmap.
Qed.

Lemma retrieve_reads_slice_witness :
  consistent (_cache_entries generate_cache) (_priority_queue generate_cache) ∧
  retrieve (Some 1) (Some (-1)) generate_cache
  = (generate_cache,
     Ret (entry_at (_cache_entries generate_cache)
            <$> py_slice (_priority_queue generate_cache) (Some 1) (Some (-1)))).
Proof.
  split; [exact generate_cache_consistent |].
  exact (proj1 (proj2 (retrieve_reads_slice generate_cache (Some 1) (Some (-1)))
                  generate_cache_consistent)).
Defined.

(** X15: the views agree.  On a consistent object [has_cache(k)] is
    [True] exactly when [k] is among the keys that [retrieve()] lists, and
    then [get(k)] returns the value that [retrieve()] lists for it. *)
Theorem has_cache_agrees_with_retrieve me c k default :
  consistent (_cache_entries c) (_priority_queue c) →
  holdable me (_lock c) →
  ∃ b es,
    has_cache me k c = (c, Ret b) ∧
    retrieve None None c = (c, Ret es) ∧
    (b = true ↔ k ∈ key <$> es) ∧
    (∀ e, e ∈ es → key e = k → ∃ c', get me k default c = (c', Ret (value e))).
Proof.
  destruct c as [lim ent q h mi lk]. fields. intros Hc Hh.
  eexists _, _. split; [by apply has_cache_run |].
  split; [by apply retrieve_run |]. rewrite py_slice_all.
  pose proof Hc as [H1 H2]. split.
  - rewrite bool_decide_eq_true, <- list_fmap_compose. split.
    + intros [[j v] Hk]. destruct (consistent_slot _ _ _ _ _ Hc Hk) as (i & n & _ & Hi).
      apply list_elem_of_fmap. exists (k, n). split; [done |].
      apply list_elem_of_lookup. by exists i.
    + intros [[k' n] [-> Hin]]%list_elem_of_fmap.
      apply list_elem_of_lookup in Hin as [i Hi].
      destruct (H1 _ _ _ Hi) as [v Hv]. by eexists.
  - intros e [[k' n] [-> Hin]]%list_elem_of_fmap Hkey. cbn [entry_at key fst] in Hkey.
    subst k'. apply list_elem_of_lookup in Hin as [i Hi].
    destruct (H1 _ _ _ Hi) as [v Hv].
    unfold entry_at. cbn [value fst]. rewrite Hv. cbn.
    by eapply get_stored.
Qed.

Lemma has_cache_agrees_with_retrieve_witness :
  consistent (_cache_entries generate_cache) (_priority_queue generate_cache) ∧
  holdable O (_lock generate_cache) ∧
  ∃ b es,
    has_cache O "2" generate_cache = (generate_cache, Ret b) ∧
    retrieve None None generate_cache = (generate_cache, Ret es) ∧
    (b = true ↔ "2" ∈ key <$> es) ∧
    (∀ e, e ∈ es → key e = "2" →
       ∃ c', get O "2" PyNone generate_cache = (c', Ret (value e))).
Proof.
  assert (holdable O (_lock generate_cache)) as H2 by (left; reflexivity).
  split; [exact generate_cache_consistent |]. split; [exact H2 |].
  exact (has_cache_agrees_with_retrieve O generate_cache "2" PyNone
           generate_cache_consistent H2).
Defined.

(** * Properties of [decorators.py] *)

(** On a cache reached from a fresh one [add] returns. *)
Lemma add_returns me c k v update :
  wf c → ∃ b, add me k v update c = (after (add me k v update) c, Ret b).
Proof.
  intros Hwf. pose proof Hwf as [Hc _ _ _ Hlk].
  destruct (decide (_limit c = Some 0)) as [Hz | Hz].
  { destruct c as [lim ent q h mi lk]. fields in *. subst lim lk. exists false.
    unfold after. by rewrite add_limit_zero by apply holdable_unlocked. }
  destruct (_cache_entries c !! k) as [e |] eqn:Hk.
  - destruct update.
    + exists true. apply add_writes; [done.. | by right].
    + exists false. destruct c as [lim ent q h mi lk]. fields in *. subst lk.
      unfold after. by rewrite add_present_keep by (apply holdable_unlocked || done || by eexists).
  - exists true. apply add_writes; [done.. | by left].
Qed.

(** The values in the index after [add] stored a new key: the value
    given under that key, and under any other key the value it had. *)
Lemma add_new_values me c k v update k' j' v' :
  wf c → _cache_entries c !! k = None →
  _cache_entries (after (add me k v update) c) !! k' = Some (j', v') →
  (k' = k ∧ v' = v) ∨ (k' ≠ k ∧ ∃ j0, _cache_entries c !! k' = Some (j0, v')).
Proof.
  intros [Hc Hs Hpos Hlim Hlk] Hk. destruct c as [lim ent q h mi lk].
  fields in *. subst lk. pose proof (holdable_unlocked me) as Hh. unfold after.
  destruct (decide (lim = Some 0)) as [-> | Hz].
  { rewrite add_limit_zero by done. cbn [fst]. fields. intros Hk'.
    right. split; [intros ->; congruence | by eexists]. }
  assert (∀ ent0 : gmap string (Z * pyval), ∀ j,
            (∀ k0, snd <$> ent0 !! k0 = None ∨ snd <$> ent0 !! k0 = snd <$> ent !! k0) →
            <[k := (j, v)]> ent0 !! k' = Some (j', v') →
            (k' = k ∧ v' = v) ∨ (k' ≠ k ∧ ∃ j0, ent !! k' = Some (j0, v'))) as Hins.
  { intros ent0 j Hsub Hk'. destruct (decide (k' = k)) as [-> | Hne].
    - rewrite lookup_insert_eq in Hk'. injection Hk' as <- <-. by left.
    - rewrite lookup_insert_ne in Hk' by done. right. split; [done |].
      destruct (Hsub k') as [Hn | He]; rewrite Hk' in *; [done |].
      destruct (ent !! k') as [[j0 w] |]; [| done]. injection He as <-. by eexists. }
  assert ((∀ l, lim = Some l → Z.of_nat (length q) < l) →
          _cache_entries (add me k v update (mkLFUCache lim ent q h mi Unlocked)).1 !! k'
          = Some (j', v') →
          (k' = k ∧ v' = v) ∨ (k' ≠ k ∧ ∃ j0, ent !! k' = Some (j0, v'))) as Hnew.
  { intros Hroom. rewrite add_new by done. cbn [fst]. fields.
    apply Hins. intros k0. by right. }
  destruct lim as [l |]; [| by apply Hnew].
  destruct (decide (Z.of_nat (length q) < l)); [by apply Hnew; intros ? [= <-] |].
  destruct (Hlim l eq_refl) as [Hl0 Hlen].
  assert (l = Z.of_nat (length q)) as -> by lia.
  destruct (length q) as [| l'] eqn:Hq; [done |].
  assert (is_Some (q !! l')) as [[kl nl] Hl'] by (apply lookup_lt_is_Some; lia).
  erewrite add_evict; [| done.. | lia | done]. cbn [fst]. fields.
  apply Hins. intros k0. rewrite slots_down_value.
  destruct (decide (k0 = kl)) as [-> |].
  - left. by rewrite lookup_delete_eq.
  - right. by rewrite lookup_delete_ne.
Qed.

Section DecoratorProofs.

Context {Args : Type}.
Variable _make_key : Args → bool → string.
Variable me : tid.

(** X16: on a hit the decorated function is not called.  When the key of
    the arguments is stored, the wrapper returns the stored value and
    does what [get] does ([hits] up by one, [misses] as before), whatever
    the function is: one that raises or would change the cache makes no
    difference. *)
Theorem wrapper_hit c typed args j v :
  consistent (_cache_entries c) (_priority_queue c) →
  holdable me (_lock c) →
  _cache_entries c !! _make_key args typed = Some (j, v) →
  ∃ c',
    get me (_make_key args typed) PyNone c = (c', Ret v) ∧
    (∀ func, wrapper_body _make_key me func typed args c = (c', Ret v)) ∧
    _hits c' = _hits c + 1 ∧ _misses c' = _misses c.
Proof.
  destruct c as [lim ent q h mi lk]. fields. intros Hc Hh Hk.
  destruct (consistent_slot _ _ _ _ _ Hc Hk) as (i & n & -> & Hi).
  eexists. split; [by eapply get_present |]. split; [| done].
  intros func. unfold wrapper_body. cbv zeta.
  erewrite bind_Ret by (by apply has_cache_run).
  rewrite bool_decide_eq_true_2 by (by eexists).
  by eapply get_present.
Qed.

Lemma wrapper_miss_run c c1 func typed args v :
  holdable me (_lock c) →
  _cache_entries c !! _make_key args typed = None →
  func args c = (c1, Ret v) → wf c1 →
  wrapper_body _make_key me func typed args c
  = (after (add me (_make_key args typed) v false) c1, Ret v).
Proof.
  intros Hh Hk Hfunc Hwf. destruct c as [lim ent q h mi lk]. fields in *.
  unfold wrapper_body. cbv zeta.
  erewrite bind_Ret by (by apply has_cache_run).
  rewrite Hk, bool_decide_eq_false_2 by (by intros [? ?]).
  erewrite bind_Ret by done.
  destruct (add_returns me c1 (_make_key args typed) v false Hwf) as [b Hadd].
  by erewrite bind_Ret by done.
Qed.

(** X17: on a miss the wrapper returns what the function returned, and
    stores it when the limit allows: with a limit other than 0 the key is
    stored afterwards (with that value, unless the function stored the
    key itself), with limit 0 nothing is stored and the value is returned
    all the same. *)
Theorem wrapper_miss c c1 func typed args v :
  holdable me (_lock c) →
  _cache_entries c !! _make_key args typed = None →
  func args c = (c1, Ret v) → wf c1 →
  wrapper_body _make_key me func typed args c
  = (after (add me (_make_key args typed) v false) c1, Ret v) ∧
  (_limit c1 = Some 0 → after (add me (_make_key args typed) v false) c1 = c1) ∧
  (_limit c1 ≠ Some 0 →
   ∃ j v', _cache_entries (after (add me (_make_key args typed) v false) c1)
             !! _make_key args typed = Some (j, v') ∧
           (_cache_entries c1 !! _make_key args typed = None → v' = v)).
Proof.
  intros Hh Hk Hfunc Hwf. split; [by apply wrapper_miss_run | split].
  - intros Hz. pose proof Hwf as [_ _ _ _ Hlk].
    destruct c1 as [lim ent q h mi lk]. fields in *. subst lim lk.
    unfold after. by rewrite add_limit_zero by apply holdable_unlocked.
  - intros Hz. destruct (_cache_entries c1 !! _make_key args typed) as [[j0 v0] |] eqn:Hk1.
    + exists j0, v0. split; [| done].
      pose proof Hwf as [_ _ _ _ Hlk].
      destruct c1 as [lim ent q h mi lk]. fields in *. subst lk.
      unfold after. by rewrite add_present_keep by (apply holdable_unlocked || done || by eexists).
    + destruct (add_writes me c1 (_make_key args typed) v false Hwf Hz) as [_ [j Hj]];
        [by left |].
      by exists j, v.
Qed.

(** X18: an exception of the decorated function passes through the
    wrapper, and the wrapper stores nothing: the cache is as the function
    left it.  This holds in every state. *)
Theorem wrapper_propagates c c1 func typed args e :
  holdable me (_lock c) →
  _cache_entries c !! _make_key args typed = None →
  func args c = (c1, Raise e) →
  wrapper_body _make_key me func typed args c = (c1, Raise e).
Proof.
  destruct c as [lim ent q h mi lk]. fields. intros Hh Hk Hfunc.
  unfold wrapper_body. cbv zeta.
  erewrite bind_Ret by (by apply has_cache_run).
  rewrite Hk, bool_decide_eq_false_2 by (by intros [? ?]).
  by erewrite bind_Raise by done.
Qed.

(** One call of the wrapper of a function without effects: it returns the
    value of the function and keeps the cache well formed and right. *)
Lemma wrapper_step (f : Args → pyval) typed args c :
  (∀ a b, _make_key a typed = _make_key b typed → f a = f b) →
  wf c →
  (∀ a j v, _cache_entries c !! _make_key a typed = Some (j, v) → v = f a) →
  ∃ c',
    wrapper_body _make_key me (λ a, ret (f a)) typed args c = (c', Ret (f args)) ∧
    wf c' ∧
    (∀ a j v, _cache_entries c' !! _make_key a typed = Some (j, v) → v = f a).
Proof.
  intros Hkey Hwf Hright.
  destruct (_cache_entries c !! _make_key args typed) as [[j v] |] eqn:Hk.
  - pose proof Hwf as [Hc _ _ _ Hlk].
    pose proof (wf_get me (_make_key args typed) PyNone c Hwf) as Hwf'.
    destruct c as [lim ent q h mi lk]. fields in *. subst lk.
    destruct (consistent_slot _ _ _ _ _ Hc Hk) as (i & n & -> & Hi).
    unfold after in Hwf'.
    erewrite get_present in Hwf' by (done || apply holdable_unlocked). cbn [fst] in Hwf'.
    eexists. split; [| split; [exact Hwf' |]].
    + unfold wrapper_body. cbv zeta.
      erewrite bind_Ret by (apply has_cache_run, holdable_unlocked).
      rewrite bool_decide_eq_true_2 by (by eexists).
      rewrite (Hright args _ _ Hk).
      erewrite get_present by (done || apply holdable_unlocked).
      by rewrite (Hright args _ _ Hk).
    + fields. intros a j v0 Ha. apply (f_equal (fmap snd)) in Ha.
      destruct (decide (_make_key a typed = _make_key args typed)) as [Heq | Hne].
      * rewrite Heq, lookup_insert_eq in Ha. injection Ha as <-.
        rewrite (Hkey a args Heq). by eapply Hright.
      * rewrite lookup_insert_ne, slots_up_value in Ha by done.
        destruct (ent !! _make_key a typed) as [[j0 w] |] eqn:He; [| done].
        injection Ha as <-. by eapply Hright.
  - pose proof (wrapper_miss_run c c (λ a, ret (f a)) typed args (f args)) as Hrun.
    eexists. split.
    { apply Hrun; [| done..]. destruct Hwf as [_ _ _ _ ->]. apply holdable_unlocked. }
    split; [by apply wf_add |].
    intros a j v Ha.
    destruct (add_new_values me c _ _ false _ _ _ Hwf Hk Ha) as [[Heq ->] | [_ [j0 Hj0]]].
    + symmetry. by apply Hkey.
    + by eapply Hright.
Qed.

(** X19: the decorated function is the function.  For a function [f]
    without effects whose value depends on its arguments only through
    their key, [create_lfu_cache] on a function that has no cache yet
    returns a wrapper that, after any calls, returns [f args]; the calls
    leave the caches of other functions alone; and decorating the
    function again raises and changes nothing. *)
Theorem decorated_function_is_memoized (f : Args → pyval) limit typed func_id cache
    (funcs_cache_map : gmap string LFUCache) :
  (∀ a b, _make_key a typed = _make_key b typed → f a = f b) →
  funcs_cache_map !! func_id = None →
  __init__ limit = inr cache →
  ∃ w,
    create_lfu_cache _make_key me limit typed func_id (λ a, ret (f a)) funcs_cache_map
    = (<[func_id := cache]> funcs_cache_map, inr w) ∧
    ∀ history args,
      let m := foldl (λ m a, fst (w a m)) (<[func_id := cache]> funcs_cache_map) history in
      snd (w args m) = Ret (f args) ∧
      (∀ other, other ≠ func_id → m !! other = funcs_cache_map !! other) ∧
      ∀ limit' typed' func',
        create_lfu_cache _make_key me limit' typed' func_id func' m
        = (m, inl (AlreadyCached func_id)).
Proof.
  intros Hkey Hnone Hinit. eexists. split.
  { unfold create_lfu_cache.
    rewrite bool_decide_eq_false_2 by (rewrite Hnone; by intros [? ?]).
    by rewrite Hinit. }
  intros history args.
  set (good := λ m : gmap string LFUCache,
         (∃ c, m !! func_id = Some c ∧ wf c ∧
               ∀ a j v, _cache_entries c !! _make_key a typed = Some (j, v) → v = f a) ∧
         ∀ other, other ≠ func_id → m !! other = funcs_cache_map !! other).
  assert (good (<[func_id := cache]> funcs_cache_map)) as Hstart.
  { split.
    - exists cache. split; [apply lookup_insert_eq |]. split; [by eapply wf_init |].
      intros a j v. unfold __init__ in Hinit.
      destruct limit as [| n | s]; [| destruct (n >=? 0) |]; try done;
        injection Hinit as <-; fields; by rewrite lookup_empty.
    - intros other Hne. by rewrite lookup_insert_ne. }
  assert (∀ a m, good m →
            snd (wrapper _make_key me func_id (λ a, ret (f a)) typed a m) = Ret (f a) ∧
            good (fst (wrapper _make_key me func_id (λ a, ret (f a)) typed a m))) as Hcall.
  { intros a m [(c & Hm & Hwf & Hright) Hothers]. unfold wrapper. rewrite Hm.
    destruct (wrapper_step f typed a c Hkey Hwf Hright) as (c' & -> & Hwf' & Hright').
    split; [done |]. split.
    - exists c'. split; [apply lookup_insert_eq | done].
    - intros other Hne. cbn [fst]. rewrite lookup_insert_ne by done. by apply Hothers. }
  cut (good (foldl (λ m a, fst (wrapper _make_key me func_id (λ a, ret (f a)) typed a m))
               (<[func_id := cache]> funcs_cache_map) history)).
  { intros Hgood. cbv zeta. split; [by apply Hcall |].
    destruct Hgood as [(c & Hm & _) Hothers]. split; [done |].
    intros limit' typed' func'. unfold create_lfu_cache.
    by rewrite bool_decide_eq_true_2 by (by eexists). }
  revert Hstart. generalize (<[func_id := cache]> funcs_cache_map).
  induction history as [| a history IH]; intros m Hgood; [done |].
  cbn [foldl]. by apply IH, Hcall.
Qed.

End DecoratorProofs.

(** ** Instances: a function of one string, keyed by the string *)

Lemma wrapper_hit_witness :
  consistent (_cache_entries generate_cache) (_priority_queue generate_cache) ∧
  holdable O (_lock generate_cache) ∧
  _cache_entries generate_cache !! "1" = Some (1, PyStr "b") ∧
  ∃ c',
    get O "1" PyNone generate_cache = (c', Ret (PyStr "b")) ∧
    (∀ func : string → M pyval,
       wrapper_body (λ a _, a) O func false "1" generate_cache = (c', Ret (PyStr "b"))) ∧
    _hits c' = _hits generate_cache + 1 ∧ _misses c' = _misses generate_cache.
Proof.
  assert (holdable O (_lock generate_cache)) as H2 by (left; reflexivity).
  assert (_cache_entries generate_cache !! "1" = Some (1, PyStr "b")) as H3
    by (vm_compute; reflexivity).
  split; [exact generate_cache_consistent |]. split; [exact H2 |]. split; [exact H3 |].
  exact (wrapper_hit (λ a _, a) O generate_cache false "1" 1 (PyStr "b")
           generate_cache_consistent H2 H3).
Defined.

Lemma wrapper_miss_witness :
  let func : string → M pyval := λ a, ret (PyInt (Z.of_nat (String.length a))) in
  holdable O (_lock generate_cache) ∧
  _cache_entries generate_cache !! "abc" = None ∧
  func "abc" generate_cache = (generate_cache, Ret (PyInt 3)) ∧
  wf generate_cache ∧
  wrapper_body (λ a _, a) O func false "abc" generate_cache
  = (after (add O "abc" (PyInt 3) false) generate_cache, Ret (PyInt 3)).
Proof.
  intros func.
  assert (holdable O (_lock generate_cache)) as H1 by (left; reflexivity).
  assert (_cache_entries generate_cache !! "abc" = None) as H2 by (vm_compute; reflexivity).
  assert (func "abc" generate_cache = (generate_cache, Ret (PyInt 3))) as H3 by reflexivity.
  assert (wf generate_cache) as H4 by (apply reachable_wf, generate_cache_reachable).
  split; [exact H1 |]. split; [exact H2 |]. split; [exact H3 |]. split; [exact H4 |].
  exact (proj1 (wrapper_miss (λ a _, a) O generate_cache generate_cache func false "abc"
                  (PyInt 3) H1 H2 H3 H4)).
Defined.

Lemma wrapper_propagates_witness :
  let func : string → M pyval := λ a, raise (KeyError a) in
  holdable O (_lock generate_cache) ∧
  _cache_entries generate_cache !! "abc" = None ∧
  func "abc" generate_cache = (generate_cache, Raise (KeyError "abc")) ∧
  wrapper_body (λ a _, a) O func false "abc" generate_cache
  = (generate_cache, Raise (KeyError "abc")).
Proof.
  intros func.
  assert (holdable O (_lock generate_cache)) as H1 by (left; reflexivity).
  assert (_cache_entries generate_cache !! "abc" = None) as H2 by (vm_compute; reflexivity).
  assert (func "abc" generate_cache = (generate_cache, Raise (KeyError "abc"))) as H3
    by reflexivity.
  split; [exact H1 |]. split; [exact H2 |]. split; [exact H3 |].
  exact (wrapper_propagates (λ a _, a) O generate_cache generate_cache func false "abc"
           (KeyError "abc") H1 H2 H3).
Defined.

Lemma decorated_function_is_memoized_witness :
  let f : string → pyval := λ a, PyInt (Z.of_nat (String.length a)) in
  (∀ a b : string, a = b → f a = f b) ∧
  (∅ : gmap string LFUCache) !! "f" = None ∧
  __init__ (PyInt 2) = inr (mkLFUCache (Some 2) ∅ [] 0 0 Unlocked) ∧
  ∃ w,
    create_lfu_cache (λ a _, a) O (PyInt 2) false "f" (λ a, ret (f a)) ∅
    = (<["f" := mkLFUCache (Some 2) ∅ [] 0 0 Unlocked]> ∅, inr w) ∧
    ∀ history args,
      let m := foldl (λ m a, fst (w a m))
                 (<["f" := mkLFUCache (Some 2) ∅ [] 0 0 Unlocked]> ∅) history in
      snd (w args m) = Ret (f args) ∧
      (∀ other, other ≠ "f" → m !! other = (∅ : gmap string LFUCache) !! other) ∧
      ∀ limit' typed' func',
        create_lfu_cache (λ a _, a) O limit' typed' "f" func' m
        = (m, inl (AlreadyCached "f")).
Proof.
  intros f.
  assert (∀ a b : string, a = b → f a = f b) as H1 by (intros a b ->; reflexivity).
  assert ((∅ : gmap string LFUCache) !! "f" = None) as H2 by reflexivity.
  assert (__init__ (PyInt 2) = inr (mkLFUCache (Some 2) ∅ [] 0 0 Unlocked)) as H3
    by reflexivity.
  split; [exact H1 |]. split; [exact H2 |]. split; [exact H3 |].
  exact (decorated_function_is_memoized (λ a _, a) O f (PyInt 2) false "f" _ ∅ H1 H2 H3).
Defined.

(** A function that counts the characters of a string, decorated with
    limit 2 and called on "ab", "abc", "ab", "a": one hit, three misses,
    and "abc", stored and never read, is the entry that went. *)
Example test_decorated_calls :
  let f : string → pyval := λ a, PyInt (Z.of_nat (String.length a)) in
  let c := replay (λ a _, a) O (λ a, ret (f a)) false ["ab"; "abc"; "ab"; "a"]
             (mkLFUCache (Some 2) ∅ [] 0 0 Unlocked) in
  _priority_queue c = [("ab", 2); ("a", 1)] ∧ counters c = (1, 3).
Proof. vm_compute. split; reflexivity. Qed.

(** * The two results of [add] *)

(** C9: [add] returns [False] exactly when the limit is 0 or the key is
    stored and [update] is false, and then the whole object is as it was.
    [add] returns [True] only in the two writing branches (new key, or
    stored key with [update]), with [misses] up by exactly 1 and [hits] by
    0; and on a cache that satisfies the invariants each of the two
    writing branches does return [True], stores the value under the key
    and counts exactly one miss and no hit. *)
Theorem add_false_changes_nothing me c k v update :
  (∀ c', add me k v update c = (c', Ret false) →
     c' = c ∧
     (_limit c = Some 0 ∨ (is_Some (_cache_entries c !! k) ∧ update = false))) ∧
  (holdable me (_lock c) →
   _limit c = Some 0 ∨ (is_Some (_cache_entries c !! k) ∧ update = false) →
   add me k v update c = (c, Ret false)) ∧
  (∀ c', add me k v update c = (c', Ret true) →
     _misses c' = _misses c + 1 ∧ _hits c' = _hits c ∧
     _limit c ≠ Some 0 ∧
     (_cache_entries c !! k = None ∨ (is_Some (_cache_entries c !! k) ∧ update = true))) ∧
  (wf c → _limit c ≠ Some 0 →
   _cache_entries c !! k = None ∨ (is_Some (_cache_entries c !! k) ∧ update = true) →
   ∃ c', add me k v update c = (c', Ret true) ∧
         (∃ j, _cache_entries c' !! k = Some (j, v)) ∧
         _misses c' = _misses c + 1 ∧ _hits c' = _hits c).
Proof.
  split; [| split; [| split]].
  - intros c' (l & c1 & Ha & Hbody & l' & Hr & ->)%with_lock_inv.
    apply bind_inv in Hbody as (lim & c2 & [= <- <-] & Hbody). cbv beta in Hbody.
    cbn [_limit set_lock] in Hbody.
    assert (∀ b, ret b (set_lock l c) = (c1, Ret false) →
                 set_lock l' c1 = c ∧ b = false) as Hsame.
    { intros b [= Hc1 ->]. subst c1. cbn [_lock set_lock] in Hr.
      apply acquire_release in Ha. rewrite Ha in Hr. injection Hr as <-.
      by rewrite set_lock_set_lock, set_lock_id. }
    case_bool_decide as Hlim.
    { destruct (Hsame _ Hbody) as [Heq _]. split; [done | by left]. }
    apply bind_inv in Hbody as (present & c3 & [-> ->]%has_cache_inv & Hbody).
    cbv beta in Hbody. cbn [_cache_entries set_lock] in Hbody.
    case_bool_decide as Hk; cbn [negb] in Hbody.
    + destruct update.
      * repeat (apply bind_inv in Hbody as (? & ? & _ & Hbody); cbv beta in Hbody).
        discriminate Hbody.
      * destruct (Hsame _ Hbody) as [Heq _]. split; [done | by right].
    + repeat (apply bind_inv in Hbody as (? & ? & _ & Hbody); cbv beta in Hbody).
      discriminate Hbody.
  - intros Hh Hcase. destruct c as [lim ent q h mi lk].
    cbn [_limit _cache_entries _lock] in *.
    destruct (decide (lim = Some 0)) as [-> | Hlim]; [by apply add_limit_zero |].
    destruct Hcase as [? | [Hk ->]]; [done |]. by apply add_present_keep.
  - intros c' (l & c1 & Ha & Hbody & l' & Hr & ->)%with_lock_inv.
    apply bind_inv in Hbody as (lim & c2 & [= <- <-] & Hbody). cbv beta in Hbody.
    cbn [_limit set_lock] in Hbody.
    case_bool_decide as Hlim; [discriminate Hbody |].
    apply bind_inv in Hbody as (present & c3 & [-> ->]%has_cache_inv & Hbody).
    cbv beta in Hbody. cbn [_cache_entries set_lock] in Hbody.
    case_bool_decide as Hk; cbn [negb] in Hbody.
    + destruct update; [| discriminate Hbody].
      apply bind_inv in Hbody as ([] & c4 & Hinc & Hbody). cbv beta in Hbody.
      apply (keeps_counters_eq _ _ _ _ (counters_increment_access_count me k)) in Hinc
        as [Hh Hm].
      apply bind_inv in Hbody as (e & c5 & Hget & Hbody). cbv beta in Hbody.
      apply (keeps_counters_eq _ _ _ _ (counters_entries_getitem k)) in Hget
        as [Hh' Hm'].
      injection Hbody as <-. cbn. cbn in Hh, Hm. rewrite Hh', Hm', Hh, Hm.
      repeat split; try done. right. by split.
    + apply bind_inv in Hbody as (n & c4 & [= <- <-] & Hbody). cbv beta in Hbody.
      apply bind_inv in Hbody as (n' & c5 & Hevict & Hbody). cbv beta in Hbody.
      assert (_hits c5 = _hits c ∧ _misses c5 = _misses c) as [Hh Hm].
      { destruct (_limit c) as [l0 |]; [| by injection Hevict as <- _].
        destruct (_ >=? l0); [| by injection Hevict as <- _].
        apply bind_inv in Hevict as (b & c6 & Hrm & [= <- _]).
        by apply (keeps_counters_eq _ _ _ _ (counters_remove_by_id me (l0 - 1))) in Hrm. }
      injection Hbody as <-. cbn. rewrite Hh, Hm.
      repeat split; try done. left.
      destruct (_cache_entries c !! k) eqn:He; [| done]. destruct Hk. by eexists.
  - intros Hwf Hlim Hcase.
    assert (_cache_entries c !! k = None ∨ update = true) as Hcase'.
    { destruct Hcase as [? | [_ ?]]; [by left | by right]. }
    destruct (add_writes me c k v update Hwf Hlim Hcase') as [Hadd Hstored].
    pose proof (add_writes_counters me c k v update Hwf Hlim Hcase') as Hcount.
    unfold counters in Hcount. injection Hcount as Hh Hm.
    exists (after (add me k v update) c). by repeat split.
Qed.

(** On the cache of the test suite: [add] of the stored key "3" without
    [update] is refused and changes nothing; with [update] it returns
    [True], stores the new value and counts a miss; and so does [add] of
    the new key "5", which evicts. *)
Lemma add_false_changes_nothing_witness :
  (holdable O (_lock generate_cache) ∧
   (_limit generate_cache = Some 0 ∨
    (is_Some (_cache_entries generate_cache !! "3") ∧ false = false)) ∧
   add O "3" (PyStr "new") false generate_cache = (generate_cache, Ret false)) ∧
  (wf generate_cache ∧ _limit generate_cache ≠ Some 0 ∧
   (_cache_entries generate_cache !! "3" = None ∨
    (is_Some (_cache_entries generate_cache !! "3") ∧ true = true)) ∧
   ∃ c', add O "3" (PyStr "new") true generate_cache = (c', Ret true) ∧
         (∃ j, _cache_entries c' !! "3" = Some (j, PyStr "new")) ∧
         _misses c' = _misses generate_cache + 1 ∧ _hits c' = _hits generate_cache) ∧
  (_cache_entries generate_cache !! "5" = None ∨
   (is_Some (_cache_entries generate_cache !! "5") ∧ false = true)) ∧
  ∃ c', add O "5" (PyStr "f") false generate_cache = (c', Ret true) ∧
        (∃ j, _cache_entries c' !! "5" = Some (j, PyStr "f")) ∧
        _misses c' = _misses generate_cache + 1 ∧ _hits c' = _hits generate_cache.
Proof.
  assert (holdable O (_lock generate_cache)) as H1 by (left; reflexivity).
  assert (is_Some (_cache_entries generate_cache !! "3")) as Hk.
  { exists (3, PyStr "d"). vm_compute. reflexivity. }
  assert (_limit generate_cache = Some 0 ∨
          (is_Some (_cache_entries generate_cache !! "3") ∧ false = false)) as H2.
  { right. split; [exact Hk | reflexivity]. }
  assert (wf generate_cache) as H3 by exact (reachable_wf _ generate_cache_reachable).
  assert (_limit generate_cache ≠ Some 0) as H4 by (vm_compute; discriminate).
  assert (_cache_entries generate_cache !! "3" = None ∨
          (is_Some (_cache_entries generate_cache !! "3") ∧ true = true)) as H5.
  { right. split; [exact Hk | reflexivity]. }
  assert (_cache_entries generate_cache !! "5" = None ∨
          (is_Some (_cache_entries generate_cache !! "5") ∧ false = true)) as H6.
  { left. vm_compute. reflexivity. }
  split; [| split; [| split]].
  - split; [exact H1 |]. split; [exact H2 |].
    exact (proj1 (proj2 (add_false_changes_nothing O generate_cache "3" (PyStr "new") false))
             H1 H2).
  - split; [exact H3 |]. split; [exact H4 |]. split; [exact H5 |].
    exact (proj2 (proj2 (proj2
             (add_false_changes_nothing O generate_cache "3" (PyStr "new") true)))
             H3 H4 H5).
  - exact H6.
  - exact (proj2 (proj2 (proj2
             (add_false_changes_nothing O generate_cache "5" (PyStr "f") false)))
             H3 H4 H6).
Defined.

(** * The lock discipline *)

(** ** The lock under the accesses *)

Create HintDb lock.

Lemma lock_entries_getitem k : keeps _lock (entries_getitem k).
Proof. intros c. unfold after, entries_getitem. by destruct (_ !! _). Qed.

Lemma lock_entries_setitem k e : keeps _lock (entries_setitem k e).
Proof. done. Qed.

Lemma lock_entries_delitem k : keeps _lock (entries_delitem k).
Proof. intros c. unfold after, entries_delitem. by destruct (_ !! _). Qed.

Lemma lock_queue_getitem i : keeps _lock (queue_getitem i).
Proof. intros c. unfold after, queue_getitem. cbv zeta. by destruct (_ ≫= _). Qed.

Lemma lock_queue_setitem i x : keeps _lock (queue_setitem i x).
Proof. intros c. unfold after, queue_setitem. cbv zeta. by destruct (py_index _ _). Qed.

Lemma lock_queue_delitem i : keeps _lock (queue_delitem i).
Proof. intros c. unfold after, queue_delitem. cbv zeta. by destruct (py_index _ _). Qed.

Lemma lock_queue_append x : keeps _lock (queue_append x).
Proof. done. Qed.

Lemma lock_queue_pop : keeps _lock queue_pop.
Proof. intros c. unfold after, queue_pop. cbv zeta. by destruct (last _). Qed.

Lemma lock_modify f : (∀ c, _lock (f c) = _lock c) → keeps _lock (modify f).
Proof. intros H c. apply H. Qed.

Lemma lock_len : keeps _lock __len__.
Proof. done. Qed.

#[local] Hint Resolve keeps_gets lock_entries_getitem lock_entries_setitem
  lock_entries_delitem lock_queue_getitem lock_queue_setitem lock_queue_delitem
  lock_queue_append lock_queue_pop lock_len : lock.
#[local] Hint Extern 1 (keeps _lock (modify _)) => (apply lock_modify; done) : lock.

(** ** The discipline through the statements *)

Lemma under_lock_pbind {A B} (p : Prog A) (k : A → Prog B) : ∀ d fin,
  under_lock d fin p → (∀ a, under_lock fin fin (k a)) → under_lock d fin (pbind p k).
Proof.
  induction p as [a | e | | X f h IH | p IH | p IH]; intros d fin Hp Hk;
    cbn [pbind under_lock] in *.
  - subst d. apply Hk.
  - done.
  - done.
  - destruct Hp as (Hd & Hf & Hh). split; [done |]. split; [done |].
    intros o. by apply IH.
  - by apply IH.
  - destruct d; [done |]. destruct Hp as [Hfin Hp]. split; [done |]. by apply IH.
Qed.

Lemma under_lock_finally {A} (p : Prog A) : ∀ d fin,
  under_lock d (S fin) p → under_lock d fin (finally p).
Proof.
  induction p as [a | e | | X f h IH | p IH | p IH]; intros d fin Hp;
    cbn [finally under_lock] in *.
  - subst d. split; [lia | done].
  - subst d. split; [lia | done].
  - subst d. split; [lia | done].
  - destruct Hp as (Hd & Hf & Hh). split; [done |]. split; [done |].
    intros o. by apply IH.
  - by apply IH.
  - destruct d; [done |]. destruct Hp as [Hfin Hp]. split; [lia |]. by apply IH.
Qed.

Lemma under_lock_with_lock {A} (p : Prog A) d :
  under_lock (S d) (S d) p → under_lock d d (with_lock_steps p).
Proof. intros Hp. unfold with_lock_steps. cbn [under_lock]. by apply under_lock_finally. Qed.

Lemma under_lock_atom {A} (f : M A) d :
  (0 < d)%nat → keeps _lock f → under_lock d d (atom f).
Proof.
  intros Hd Hf. unfold atom. cbn [under_lock]. split; [done |]. split; [done |].
  by intros [a | e |].
Qed.

Lemma under_lock_for_each {A} (l : list A) (body : A → Prog unit) d :
  (∀ x, under_lock d d (body x)) → under_lock d d (for_each_steps l body).
Proof.
  intros Hb. induction l as [| x l IH]; [done |].
  cbn [for_each_steps]. by apply under_lock_pbind.
Qed.

Lemma under_lock_comprehension {A B} (l : list A) (f : A → Prog B) d :
  (∀ x, under_lock d d (f x)) → under_lock d d (comprehension_steps l f).
Proof.
  intros Hb. induction l as [| x l IH]; [done |].
  cbn [comprehension_steps]. apply under_lock_pbind; [done |]. intros y.
  by apply under_lock_pbind.
Qed.

(** Walks down the steps of a method: one obligation per statement. *)
Ltac discipline :=
  repeat first
    [ progress intros
    | progress cbv zeta
    | match goal with
      | |- under_lock _ _ (Done _) => exact eq_refl
      | |- under_lock _ _ (Fail _) => exact eq_refl
      | |- under_lock _ _ (atom _) => apply under_lock_atom; [lia | auto with lock]
      | |- under_lock _ _ (with_lock_steps _) => apply under_lock_with_lock
      | |- under_lock _ _ (pbind _ _) => apply under_lock_pbind
      | |- under_lock _ _ (for_each_steps _ _) => apply under_lock_for_each
      | |- under_lock _ _ (if ?b then _ else _) => destruct b
      | |- under_lock _ _ (match ?x with _ => _ end) => destruct x
      end
    | solve [auto with lock] ].

Lemma under_lock_len d : (0 < d)%nat → under_lock d d len_steps.
Proof. intros Hd. unfold len_steps. discipline. Qed.

Lemma under_lock_shift_left item d : (0 < d)%nat → under_lock d d (shift_left_steps item).
Proof. intros Hd. unfold shift_left_steps. discipline. Qed.

Lemma under_lock_has_cache k d : under_lock d d (has_cache_steps k).
Proof. unfold has_cache_steps. discipline. Qed.

#[local] Hint Resolve under_lock_has_cache : lock.
#[local] Hint Extern 1 (under_lock _ _ len_steps) => (apply under_lock_len; lia) : lock.
#[local] Hint Extern 1 (under_lock _ _ (shift_left_steps _)) =>
  (apply under_lock_shift_left; lia) : lock.

Lemma under_lock_remove_by_id i d : under_lock d d (_remove_by_id_steps i).
Proof. unfold _remove_by_id_steps. discipline. Qed.

Lemma under_lock_promote fuel : ∀ i j d,
  (0 < d)%nat → under_lock d d (promote_steps fuel i j).
Proof.
  induction fuel as [| fuel IH]; intros i j d Hd; cbn [promote_steps]; [done |].
  discipline.
Qed.

Lemma under_lock_drop_excessive n : ∀ d,
  (0 < d)%nat → under_lock d d (drop_excessive_steps n).
Proof.
  induction n as [| n IH]; intros d Hd; cbn [drop_excessive_steps]; [done |].
  discipline.
Qed.

#[local] Hint Resolve under_lock_remove_by_id : lock.
#[local] Hint Extern 1 (under_lock _ _ (promote_steps _ _ _)) =>
  (apply under_lock_promote; lia) : lock.
#[local] Hint Extern 1 (under_lock _ _ (drop_excessive_steps _)) =>
  (apply under_lock_drop_excessive; lia) : lock.

Lemma under_lock_increment_access_count k d :
  under_lock d d (_increment_access_count_steps k).
Proof. unfold _increment_access_count_steps. discipline. Qed.

#[local] Hint Resolve under_lock_increment_access_count : lock.

Lemma under_lock_add k v update d : under_lock d d (add_steps k v update).
Proof. unfold add_steps. discipline. Qed.

Lemma under_lock_get k default d : under_lock d d (get_steps k default).
Proof. unfold get_steps. discipline. Qed.

Lemma under_lock_remove k d : under_lock d d (remove_steps k).
Proof. unfold remove_steps. discipline. Qed.

Lemma under_lock_clear d : under_lock d d clear_steps.
Proof. unfold clear_steps. discipline. Qed.

Lemma under_lock_limit_setter v d : under_lock d d (limit_setter_steps v).
Proof. unfold limit_setter_steps. discipline. Qed.

Lemma guarded_call {A} (p : Prog A) : guarded p → guarded (call p).
Proof. intros Hp. unfold guarded, call. by apply under_lock_pbind. Qed.

(** ** A thread on its own runs the methods *)

Lemma bind_ext2 {A B} (m m' : M A) (k k' : A → M B) c :
  (∀ c0, m c0 = m' c0) → (∀ a c1, k a c1 = k' a c1) → bind m k c = bind m' k' c.
Proof.
  intros Hm Hk. unfold bind. rewrite Hm.
  destruct (m' c) as [c1 [a | e |]]; [apply Hk | done..].
Qed.

Lemma with_lock_ext {A} me (m m' : M A) c :
  (∀ c0, m c0 = m' c0) → with_lock me m c = with_lock me m' c.
Proof.
  intros Hm. unfold with_lock. destruct (acquire me (_lock c)); [| done]. by rewrite Hm.
Qed.

Lemma release_holdable me l l' : release me l = Some l' → holdable me l'.
Proof.
  destruct l as [| o n]; [done |]. simpl. case_decide as Ho; [| done]. subst o.
  intros [= <-]. destruct n; [by left | right; by eexists].
Qed.

Lemma run_alone_pbind {A B} me (p : Prog A) (k : A → Prog B) : ∀ c,
  run_alone me (pbind p k) c = bind (run_alone me p) (λ a, run_alone me (k a)) c.
Proof.
  induction p as [a | e | | X f h IH | p IH | p IH]; intros c;
    cbn [pbind run_alone]; unfold bind; cbn [run_alone]; try done.
  - destruct (f c) as [c1 o]. apply IH.
  - destruct (acquire me (_lock c)); [apply IH | done].
  - destruct (release me (_lock c)); [apply IH | done].
Qed.

Lemma run_alone_atom {A} me (f : M A) c : run_alone me (atom f) c = f c.
Proof. unfold atom. cbn [run_alone]. by destruct (f c) as [c1 [a | e |]]. Qed.

Lemma run_alone_finally {A} me (p : Prog A) : ∀ d fin c,
  under_lock d fin p → holdable me (_lock c) →
  run_alone me (finally p) c
  = let '(c1, r) := run_alone me p c in
    match release me (_lock c1) with
    | Some l' => (set_lock l' c1, r)
    | None => (c1, Raise RuntimeError)
    end.
Proof.
  induction p as [a | e | | X f h IH | p IH | p IH]; intros d fin c Hp Hh;
    cbn [finally run_alone under_lock] in *; try done.
  - destruct Hp as (Hd & Hf & Hk). specialize (Hf c). unfold after in Hf.
    destruct (f c) as [c1 o]. cbn [fst] in Hf.
    eapply IH; [apply Hk | by rewrite Hf].
  - destruct (holdable_acquire me _ Hh) as (l & -> & Hl & _).
    eapply IH; [apply Hp | done].
  - destruct d as [| d]; [done |]. destruct Hp as [_ Hp].
    destruct (release me (_lock c)) as [l |] eqn:Hr; [| by rewrite Hr].
    eapply IH; [apply Hp |]. by eapply release_holdable.
Qed.

Lemma run_alone_with_lock {A} me (p : Prog A) d fin c :
  under_lock d fin p →
  run_alone me (with_lock_steps p) c = with_lock me (run_alone me p) c.
Proof.
  intros Hp. unfold with_lock_steps, with_lock. cbn [run_alone].
  destruct (acquire me (_lock c)) as [l |] eqn:Ha; [| done].
  eapply run_alone_finally; [done |].
  destruct (holdable_acquire me (_lock c)) as (l2 & Ha' & Hl & _);
    [by eapply acquire_Some |].
  rewrite Ha in Ha'. by injection Ha' as <-.
Qed.

Lemma run_alone_for_each {A} me (l : list A) body body' :
  (∀ x c, run_alone me (body x) c = body' x c) →
  ∀ c, run_alone me (for_each_steps l body) c = for_each l body' c.
Proof.
  intros Hb. induction l as [| x l IH]; intros c; [done |].
  cbn [for_each_steps for_each]. rewrite run_alone_pbind. by apply bind_ext2.
Qed.

Lemma run_alone_comprehension {A B} me (l : list A) (f : A → Prog B) f' :
  (∀ x c, run_alone me (f x) c = f' x c) →
  ∀ c, run_alone me (comprehension_steps l f) c = comprehension l f' c.
Proof.
  intros Hb. induction l as [| x l IH]; intros c; [done |].
  cbn [comprehension_steps comprehension]. rewrite run_alone_pbind.
  apply bind_ext2; [done |]. intros y c1. rewrite run_alone_pbind. by apply bind_ext2.
Qed.

Create HintDb alone.

(** Walks down the steps of a method next to its body. *)
Ltac alone :=
  repeat first
    [ progress intros
    | progress cbv zeta
    | reflexivity
    | rewrite run_alone_atom
    | solve [auto with alone]
    | match goal with
      | |- run_alone _ (with_lock_steps _) _ = _ =>
          rewrite (run_alone_with_lock _ _ 1 1) by discipline; apply with_lock_ext
      | |- run_alone _ (pbind _ _) _ = _ => rewrite run_alone_pbind; apply bind_ext2
      | |- run_alone _ (for_each_steps _ _) _ = _ => apply run_alone_for_each
      | |- run_alone _ (if ?b then _ else _) _ = _ => destruct b
      | |- run_alone _ (match ?x with _ => _ end) _ = _ => destruct x
      end ].

Lemma run_alone_len me c : run_alone me len_steps c = __len__ c.
Proof. done. Qed.

Lemma run_alone_shift_left me item c :
  run_alone me (shift_left_steps item) c = shift_left item c.
Proof. unfold shift_left_steps, shift_left. alone. Qed.

Lemma run_alone_has_cache me k c : run_alone me (has_cache_steps k) c = has_cache me k c.
Proof. unfold has_cache_steps, has_cache. alone. Qed.

#[local] Hint Resolve run_alone_len run_alone_shift_left run_alone_has_cache : alone.

Lemma run_alone_remove_by_id me i c :
  run_alone me (_remove_by_id_steps i) c = _remove_by_id me i c.
Proof. unfold _remove_by_id_steps, _remove_by_id. alone. Qed.

Lemma run_alone_promote me fuel : ∀ i j c,
  run_alone me (promote_steps fuel i j) c = promote fuel i j c.
Proof.
  induction fuel as [| fuel IH]; intros i j c; cbn [promote_steps promote]; [done |].
  alone.
Qed.

Lemma run_alone_drop_excessive me n : ∀ c,
  run_alone me (drop_excessive_steps n) c = drop_excessive n c.
Proof.
  induction n as [| n IH]; intros c; cbn [drop_excessive_steps drop_excessive]; [done |].
  alone.
Qed.

#[local] Hint Resolve run_alone_remove_by_id run_alone_promote run_alone_drop_excessive
  : alone.

Lemma run_alone_increment_access_count me k c :
  run_alone me (_increment_access_count_steps k) c = _increment_access_count me k c.
Proof. unfold _increment_access_count_steps, _increment_access_count. alone. Qed.

#[local] Hint Resolve run_alone_increment_access_count : alone.

Lemma run_alone_add me k v update c :
  run_alone me (add_steps k v update) c = add me k v update c.
Proof. unfold add_steps, add. alone. Qed.

Lemma run_alone_get me k default c :
  run_alone me (get_steps k default) c = get me k default c.
Proof. unfold get_steps, get. alone. Qed.

Lemma run_alone_remove me k c : run_alone me (remove_steps k) c = remove me k c.
Proof. unfold remove_steps, remove. alone. Qed.

Lemma run_alone_clear me c : run_alone me clear_steps c = clear me c.
Proof. unfold clear_steps, clear. alone. Qed.

Lemma run_alone_limit_setter me v c :
  run_alone me (limit_setter_steps v) c = limit_setter me v c.
Proof. unfold limit_setter_steps, limit_setter. alone. Qed.

Lemma run_alone_retrieve me start end_ c :
  run_alone me (retrieve_steps start end_) c = retrieve start end_ c.
Proof.
  unfold retrieve_steps, retrieve. alone. apply run_alone_comprehension. alone.
Qed.

(** A turn is a step of the thread on its own. *)
Lemma run_alone_thread_step {A} t (p p' : Prog A) c c' :
  thread_step t c p = Some (c', p') → run_alone t p c = run_alone t p' c'.
Proof.
  destruct p as [a | e | | X f h | p | p]; cbn [thread_step run_alone]; try done.
  - destruct (f c) as [c1 o]. by intros [= <- <-].
  - destruct (acquire t (_lock c)); [| done]. by intros [= <- <-].
  - destruct (release t (_lock c)); by intros [= <- <-].
Qed.

(** ** Threads taking turns *)

Lemma turn_discipline {A} (s : threads A) t depth :
  (∀ t', under_lock (depth t') 0 (snd s t')) →
  lock_counts (_lock (fst s)) depth →
  ∃ depth',
    (∀ t', under_lock (depth' t') 0 (snd (turn s t) t')) ∧
    lock_counts (_lock (fst (turn s t))) depth'.
Proof.
  destruct s as [c P]. cbn [fst snd]. intros HP Hl.
  pose proof (HP t) as Ht. unfold turn. cbn [fst snd].
  destruct (P t) as [a | e | | X f h | p | p] eqn:Hp; cbn [thread_step under_lock] in *;
    try (by exists depth).
  - destruct Ht as (Hd & Hf & Hh). specialize (Hf c). unfold after in Hf.
    destruct (f c) as [c1 o]. cbn [fst snd] in *. exists depth. split; [| by rewrite Hf].
    intros t'. case_decide as Ht'; [subst t'; apply Hh | apply HP].
  - destruct (acquire t (_lock c)) as [l |] eqn:Ha; [| by exists depth].
    cbn [fst snd _lock set_lock].
    exists (λ t', if decide (t' = t) then S (depth t) else depth t'). split.
    + intros t'. case_decide as Ht'; [done | apply HP].
    + destruct (_lock c) as [| o n]; cbn [acquire lock_counts] in *.
      * injection Ha as <-. cbn [lock_counts]. rewrite decide_True by done.
        split; [by rewrite Hl |]. intros t' Ht'. by rewrite decide_False.
      * case_decide as Ho; [| done]. subst o. injection Ha as <-.
        destruct Hl as [Hd Hl]. cbn [lock_counts]. rewrite decide_True by done.
        split; [by rewrite Hd |]. intros t' Ht'. rewrite decide_False by done. by apply Hl.
  - destruct (depth t) as [| d] eqn:Hd; [done |]. destruct Ht as [_ Ht].
    assert (_lock c = Locked t d) as Hlock.
    { destruct (_lock c) as [| o n]; cbn [lock_counts] in Hl.
      - rewrite Hl in Hd. discriminate Hd.
      - destruct Hl as [Ho Hl]. destruct (decide (t = o)) as [-> | Hne].
        + rewrite Ho in Hd. by injection Hd as ->.
        + rewrite Hl in Hd by done. discriminate Hd. }
    rewrite Hlock. cbn [release]. rewrite decide_True by done.
    cbn [fst snd _lock set_lock].
    exists (λ t', if decide (t' = t) then d else depth t'). split.
    + intros t'. case_decide as Ht'; [done | apply HP].
    + rewrite Hlock in Hl. cbn [lock_counts] in Hl. destruct Hl as [_ Hl].
      destruct d as [| d']; cbn [lock_counts].
      * intros t'. case_decide as Ht'; [done | by apply Hl].
      * rewrite decide_True by done. split; [done |].
        intros t' Ht'. rewrite decide_False by done. by apply Hl.
Qed.

Lemma interleave_discipline {A} schedule : ∀ (s : threads A) depth,
  (∀ t, under_lock (depth t) 0 (snd s t)) →
  lock_counts (_lock (fst s)) depth →
  ∃ depth',
    (∀ t, under_lock (depth' t) 0 (snd (interleave schedule s) t)) ∧
    lock_counts (_lock (fst (interleave schedule s))) depth'.
Proof.
  induction schedule as [| t schedule IH]; intros s depth HP Hl; [by exists depth |].
  cbn [interleave foldl].
  destruct (turn_discipline s t depth HP Hl) as (depth' & HP' & Hl').
  by apply (IH _ depth').
Qed.

(** Whatever the schedule, of threads that run guarded steps on a cache
    whose lock is free: a thread about to access the object holds the
    lock, the others are then outside every locked region, and while a
    thread holds the lock the turns of the others change nothing. *)
Lemma guarded_threads_exclude {A} schedule (s0 : threads A) :
  _lock (fst s0) = Unlocked →
  (∀ t, guarded (snd s0 t)) →
  let s := interleave schedule s0 in
  (∀ t X (f : M X) k, snd s t = Access f k →
     (∃ n, _lock (fst s) = Locked t n) ∧ ∀ t', t' ≠ t → guarded (snd s t')) ∧
  (∀ t n t', _lock (fst s) = Locked t n → t' ≠ t → turn s t' = s).
Proof.
  intros Hl0 HP0 s.
  destruct (interleave_discipline schedule s0 (λ _, O)) as (depth & HP & Hl).
  { intros t. apply HP0. }
  { rewrite Hl0. by intros t. }
  fold s in HP, Hl. split.
  - intros t X f k Hp. pose proof (HP t) as Ht. rewrite Hp in Ht.
    cbn [under_lock] in Ht. destruct Ht as (Hd & _).
    destruct (_lock (fst s)) as [| o n]; cbn [lock_counts] in Hl.
    + rewrite Hl in Hd. lia.
    + destruct Hl as [Ho Hl]. destruct (decide (t = o)) as [-> | Hne].
      * split; [by eexists |]. intros t' Ht'. unfold guarded.
        specialize (HP t'). by rewrite Hl in HP.
      * rewrite Hl in Hd by done. lia.
  - intros t n t' Hlock Ht'. rewrite Hlock in Hl. cbn [lock_counts] in Hl.
    destruct Hl as [_ Hl]. specialize (HP t'). rewrite Hl in HP by done.
    unfold turn. destruct (snd s t') as [a | e | | X f h | p | p];
      cbn [thread_step under_lock] in *; try done.
    + lia.
    + rewrite Hlock. cbn [acquire]. by rewrite decide_False by done.
Qed.

(** ** Locked calls come one after the other *)

Lemma run_alone_finished {A} t (p : Prog A) c : finished p → fst (run_alone t p c) = c.
Proof. by destruct p. Qed.

Lemma after_call {A} t (p : Prog A) (m : M A) c :
  (∀ c0, run_alone t p c0 = m c0) → fst (run_alone t (call p) c) = after m c.
Proof.
  intros Hp. unfold call, after. rewrite run_alone_pbind. unfold bind. rewrite Hp.
  by destruct (m c) as [c1 [a | e |]].
Qed.

(** The steps of a call, taken by one thread on its own, leave the object
    as the call does. *)
Lemma run_alone_steps_of t o c : fst (run_alone t (steps_of o) c) = step c (t, o).
Proof.
  destruct o; cbn [steps_of step fst snd]; apply after_call; intros c0.
  - apply run_alone_add.
  - apply run_alone_get.
  - apply run_alone_remove.
  - apply run_alone_clear.
  - apply run_alone_limit_setter.
  - apply run_alone_has_cache.
  - done.
  - apply run_alone_retrieve.
  - done.
  - done.
  - done.
Qed.

(** A locking call is one [with] block around a body that keeps the
    lock it was given. *)
Lemma steps_of_locking o :
  locking o →
  ∃ X (b : Prog X),
    steps_of o = Acq (pbind (finally b) (λ _, Done tt)) ∧ under_lock 1 1 b.
Proof.
  destruct o; try done; intros _; (eexists _, _; split; [reflexivity |]); discipline.
Qed.

Lemma run_snoc calls c call : run (calls ++ [call]) c = step (run calls c) call.
Proof. unfold run. by rewrite foldl_app. Qed.

Lemma interleave_snoc {A} schedule t (s : threads A) :
  interleave (schedule ++ [t]) s = turn (interleave schedule s) t.
Proof. unfold interleave. by rewrite foldl_app. Qed.

(** Threads that each make one locking call, on a cache whose lock is
    free.  After any schedule some threads are through, in the order
    [order] in which they took the lock, and the others have not begun,
    but for the one that holds the lock: on its own from here, it would
    leave the object as its whole call does after the calls that are
    through. *)
Lemma locked_calls_in_order (calls : tid → op) c0 schedule :
  (∀ t, locking (calls t)) →
  _lock c0 = Unlocked →
  let s := interleave schedule (c0, λ t, steps_of (calls t)) in
  ∃ order,
    NoDup order ∧
    (∀ t, t ∈ order → finished (snd s t)) ∧
    match _lock (fst s) with
    | Unlocked =>
        fst s = run (map (λ t, (t, calls t)) order) c0 ∧
        ∀ t, (t ∉ order) → snd s t = steps_of (calls t)
    | Locked h n =>
        (h ∉ order) ∧
        (∀ t, (t ∉ order) → t ≠ h → snd s t = steps_of (calls t)) ∧
        ∃ X (b : Prog X),
          snd s h = pbind (finally b) (λ _, Done tt) ∧
          under_lock (S n) 1 b ∧
          fst (run_alone h (snd s h) (fst s))
          = run (map (λ t, (t, calls t)) (order ++ [h])) c0
    end.
Proof.
  intros Hcalls Hl0. induction schedule as [| t schedule IH] using rev_ind.
  { exists []. cbn. rewrite Hl0. split; [constructor |]. split; [by intros t ?%elem_of_nil |].
    done. }
  cbv zeta in *. rewrite interleave_snoc.
  destruct (interleave schedule (c0, λ t, steps_of (calls t))) as [c P].
  cbn [fst snd] in *. destruct IH as (order & Hnd & Hfin & IH).
  assert (∀ t', t' ∈ order → turn (c, P) t' = (c, P)) as Hdone.
  { intros t' Ht'. specialize (Hfin t' Ht'). unfold turn. cbn [fst snd].
    by destruct (P t'). }
  destruct (decide (t ∈ order)) as [Hin | Hout].
  { rewrite (Hdone t Hin). by exists order. }
  unfold turn. cbn [fst snd].
  destruct (_lock c) as [| h n] eqn:Hlock.
  - destruct IH as [Hc Hrest].
    destruct (steps_of_locking (calls t) (Hcalls t)) as (X & b & Hb & Hbody).
    pose proof (Hrest t Hout) as Ht. rewrite Hb in Ht. rewrite Ht.
    cbn [thread_step]. rewrite Hlock. cbn [acquire fst snd _lock set_lock].
    exists order. split; [done |]. split.
    { intros t' Ht'. rewrite decide_False by (intros ->; done). by apply Hfin. }
    split; [done |]. split.
    { intros t' Ht' Hne. rewrite decide_False by done. by apply Hrest. }
    exists X, b. rewrite decide_True by done. split; [done |]. split; [done |].
    rewrite map_app. cbn [map]. rewrite run_snoc, <- Hc, <- run_alone_steps_of, Hb.
    cbn [run_alone]. by rewrite Hlock.
  - destruct IH as (Hh & Hrest & X & b & HP & Hbody & Hrun).
    destruct (decide (t = h)) as [-> | Hne].
    + rewrite HP in *.
      assert (∀ p : Prog unit, finished p →
                fst (run_alone h (Rel p) c)
                = run (map (λ t, (t, calls t)) (order ++ [h])) c0 →
                n = O →
                ∃ order',
                  NoDup order' ∧
                  (∀ t, t ∈ order' → finished (if decide (t = h) then p else P t)) ∧
                  match _lock (set_lock Unlocked c) with
                  | Unlocked =>
                      set_lock Unlocked c = run (map (λ t, (t, calls t)) order') c0 ∧
                      ∀ t, (t ∉ order') → (if decide (t = h) then p else P t)
                                        = steps_of (calls t)
                  | Locked h' n' => False
                  end) as Hend.
      { intros p Hp Hr ->. exists (order ++ [h]). split.
        { apply NoDup_app. split; [done |]. split; [| apply NoDup_singleton].
          intros t' Ht' ->%list_elem_of_singleton. done. }
        split.
        { intros t' [Ht' | ->%list_elem_of_singleton]%elem_of_app.
          - rewrite decide_False by (intros ->; done). by apply Hfin.
          - by rewrite decide_True. }
        cbn [_lock set_lock]. split.
        { rewrite <- Hr. cbn [run_alone]. rewrite Hlock. cbn [release].
          rewrite decide_True by done. by rewrite run_alone_finished. }
        intros t' [Ht1 Ht2]%not_elem_of_app.
        assert (t' ≠ h) as Hne by (intros ->; by apply Ht2, list_elem_of_singleton).
        rewrite decide_False by done. by apply Hrest. }
      destruct b as [a | e | | Y f k | b | b]; cbn [finally pbind under_lock] in *.
      * injection Hbody as ->. cbn [thread_step]. rewrite Hlock. cbn [release].
        rewrite decide_True by done. cbn [fst snd]. by apply Hend.
      * injection Hbody as ->. cbn [thread_step]. rewrite Hlock. cbn [release].
        rewrite decide_True by done. cbn [fst snd]. by apply Hend.
      * injection Hbody as ->. cbn [thread_step]. rewrite Hlock. cbn [release].
        rewrite decide_True by done. cbn [fst snd]. by apply Hend.
      * destruct Hbody as (_ & Hf & Hk). cbn [thread_step run_alone] in *.
        specialize (Hf c). unfold after in Hf. destruct (f c) as [c1 o].
        cbn [fst snd] in *. rewrite Hf, Hlock.
        exists order. split; [done |]. split.
        { intros t' Ht'. rewrite decide_False by (intros ->; done). by apply Hfin. }
        split; [done |]. split.
        { intros t' Ht' Hne. rewrite decide_False by done. by apply Hrest. }
        exists X, (k o). rewrite decide_True by done. by split.
      * cbn [thread_step run_alone] in *. rewrite Hlock in *. cbn [acquire] in *.
        rewrite decide_True in * by done. cbn [fst snd _lock set_lock].
        exists order. split; [done |]. split.
        { intros t' Ht'. rewrite decide_False by (intros ->; done). by apply Hfin. }
        split; [done |]. split.
        { intros t' Ht' Hne. rewrite decide_False by done. by apply Hrest. }
        exists X, b. rewrite decide_True by done. by split.
      * destruct Hbody as [Hn Hbody]. destruct n as [| n]; [lia |].
        cbn [thread_step run_alone] in *. rewrite Hlock in *. cbn [release] in *.
        rewrite decide_True in * by done. cbn [fst snd _lock set_lock].
        exists order. split; [done |]. split.
        { intros t' Ht'. rewrite decide_False by (intros ->; done). by apply Hfin. }
        split; [done |]. split.
        { intros t' Ht' Hne. rewrite decide_False by done. by apply Hrest. }
        exists X, b. rewrite decide_True by done. by split.
    + destruct (steps_of_locking (calls t) (Hcalls t)) as (Y & b' & Hb & _).
      rewrite (Hrest t Hout Hne), Hb. cbn [thread_step]. rewrite Hlock. cbn [acquire].
      rewrite decide_False by done. cbn [fst snd]. rewrite Hlock.
      exists order. split; [done |]. split; [done |]. split; [done |]. split; [done |].
      by exists X, b.
Qed.

(** Whenever the lock is free, the object is as after the calls that are
    through, made one after the other in the order in which they took the
    lock. *)
Lemma locked_calls_serialized (calls : tid → op) c0 schedule :
  (∀ t, locking (calls t)) →
  _lock c0 = Unlocked →
  let s := interleave schedule (c0, λ t, steps_of (calls t)) in
  _lock (fst s) = Unlocked →
  ∃ order,
    NoDup order ∧
    fst s = run (map (λ t, (t, calls t)) order) c0 ∧
    (∀ t, t ∈ order → finished (snd s t)) ∧
    (∀ t, (t ∉ order) → snd s t = steps_of (calls t)).
Proof.
  intros Hcalls Hl0 s Hl.
  destruct (locked_calls_in_order calls c0 schedule Hcalls Hl0) as (order & Hnd & Hfin & H).
  fold s in Hfin, H. rewrite Hl in H. destruct H as [Hc Hrest]. by exists order.
Qed.

(** ** The lock and the public operations *)



(** Two locked calls taking turns step by step leave the cache as the
    two calls one after the other do: thread 0 takes the lock first, so
    its [add] comes first. *)
Example test_locked_calls_take_turns :
  let s0 : threads unit :=
    (generate_cache,
     λ t, match t with
          | O => call (add_steps "5" (PyStr "f") false)
          | _ => call (get_steps "3" PyNone)
          end) in
  let s := interleave (concat (replicate 80 [0; 1]%nat)) s0 in
  snd s 0%nat = Done tt ∧ snd s 1%nat = Done tt ∧
  fst s = run [(0%nat, Add "5" (PyStr "f") false); (1%nat, Get "3" PyNone)] generate_cache.
Proof. vm_compute. repeat split; reflexivity. Qed.

(** [retrieve] next to [add]: thread 1 reads the sequence, thread 0 then
    runs its whole [add], which evicts "4", and thread 1 goes on to look up
    the keys it has read: [KeyError], which [retrieve] never raises on
    the cache as public calls leave it. *)
Example test_retrieve_races_with_add :
  let s0 : threads unit :=
    (generate_cache,
     λ t, match t with
          | O => call (add_steps "5" (PyStr "f") false)
          | _ => call (retrieve_steps None None)
          end) in
  let s := interleave ([1] ++ replicate 17 0 ++ replicate 5 1)%nat s0 in
  snd s 0%nat = Done tt ∧ snd s 1%nat = Fail (KeyError "4").
Proof. vm_compute. split; reflexivity. Qed.

(** [retrieve] runs from its first step to its last while another
    thread is inside [add] and holds the lock. *)
Example test_retrieve_inside_add :
  let s0 : threads unit :=
    (generate_cache,
     λ t, match t with
          | O => call (add_steps "5" (PyStr "f") false)
          | _ => call (retrieve_steps None None)
          end) in
  let s := interleave [0]%nat s0 in
  let s' := interleave (replicate 6 1%nat) s in
  _lock (fst s) = Locked O O ∧ (∃ X (f : M X) k, snd s 1%nat = Access f k) ∧
  _lock (fst s') = Locked O O ∧ snd s' 1%nat = Done tt.
Proof.
  split; [vm_compute; reflexivity |]. split; [vm_compute; by do 3 eexists |].
  vm_compute. split; reflexivity.
Qed.
